(** * Terrier query-execution core: pipeline compiler, bytecode table,
      table iterator, catalog row encoding and the MVCC index contract.

    Each module embeds one source file of the repository; the theorems
    that follow the definitions relate the embedded code to the
    statements of the specification. *)

From Stdlib Require Import ZArith Lia Bool Ascii String.
From stdpp Require Import base tactics option list strings numbers sorting gmap.

Local Open Scope string_scope.
Local Open Scope list_scope.
Local Open Scope Z_scope.

(** Fixed-width integers of the C++ sources, as [Z] with the wrap-around
    written out. *)
Module CInt.

Definition to_unsigned (bits : Z) (z : Z) : Z := z mod 2 ^ bits.

Definition to_signed (bits : Z) (z : Z) : Z :=
  let u := z mod 2 ^ bits in
  if u <? 2 ^ (bits - 1) then u else u - 2 ^ bits.

Definition in_signed (bits : Z) (z : Z) : Prop :=
  - 2 ^ (bits - 1) <= z < 2 ^ (bits - 1).

Definition to_u32 : Z -> Z := to_unsigned 32.

End CInt.

(** * execution/vm/bytecodes.h *)
Module Bytecodes.

(** Operand kinds named by the opcode list ([OperandType::X]). *)
Inductive OperandType :=
| Imm1 | Imm2 | Imm4 | Imm8 | Imm4F | Imm8F | UImm4
| JumpOffset | Local | LocalCount | FunctionId.

(** The macro argument [F] of the list macros: what one entry
    expands to. *)
Definition Macro (A : Type) : Type := string -> list OperandType -> A.

(** [CREATE_FOR_INT_TYPES(F, op, ...)] *)
Definition CREATE_FOR_INT_TYPES {A} (F : Macro A) (op : string)
    (args : list OperandType) : list A :=
  [ F (op +:+ "_i8") args; F (op +:+ "_i16") args;
    F (op +:+ "_i32") args; F (op +:+ "_i64") args;
    F (op +:+ "_u8") args; F (op +:+ "_u16") args;
    F (op +:+ "_u32") args; F (op +:+ "_u64") args ].

(** [CREATE_FOR_FLOAT_TYPES(F, op, ...)] *)
Definition CREATE_FOR_FLOAT_TYPES {A} (F : Macro A) (op : string)
    (args : list OperandType) : list A :=
  [ F (op +:+ "_f32") args; F (op +:+ "_f64") args ].

(** [CREATE_FOR_ALL_TYPES(F, op, ...)] *)
Definition CREATE_FOR_ALL_TYPES {A} (F : Macro A) (op : string)
    (args : list OperandType) : list A :=
  CREATE_FOR_INT_TYPES F op args ++ CREATE_FOR_FLOAT_TYPES F op args.

(** [BYTECODE_LIST(F)]: the master list, one expansion of [F] per
    bytecode, in declaration order. *)
Definition BYTECODE_LIST {A} (F : Macro A) : list A :=
  CREATE_FOR_INT_TYPES F "Add" [Local; Local; Local] ++
  CREATE_FOR_INT_TYPES F "Neg" [Local; Local] ++
  CREATE_FOR_INT_TYPES F "Sub" [Local; Local; Local] ++
  CREATE_FOR_INT_TYPES F "Mul" [Local; Local; Local] ++
  CREATE_FOR_INT_TYPES F "Div" [Local; Local; Local] ++
  CREATE_FOR_INT_TYPES F "Rem" [Local; Local; Local] ++
  CREATE_FOR_INT_TYPES F "BitAnd" [Local; Local; Local] ++
  CREATE_FOR_INT_TYPES F "BitOr" [Local; Local; Local] ++
  CREATE_FOR_INT_TYPES F "BitXor" [Local; Local; Local] ++
  CREATE_FOR_INT_TYPES F "BitNeg" [Local; Local] ++
  CREATE_FOR_INT_TYPES F "GreaterThan" [Local; Local; Local] ++
  CREATE_FOR_INT_TYPES F "GreaterThanEqual" [Local; Local; Local] ++
  CREATE_FOR_INT_TYPES F "Equal" [Local; Local; Local] ++
  CREATE_FOR_INT_TYPES F "LessThan" [Local; Local; Local] ++
  CREATE_FOR_INT_TYPES F "LessThanEqual" [Local; Local; Local] ++
  CREATE_FOR_INT_TYPES F "NotEqual" [Local; Local; Local] ++
  [F "Not" [Local; Local];
   F "Jump" [JumpOffset];
   F "JumpIfTrue" [Local; JumpOffset];
   F "JumpIfFalse" [Local; JumpOffset];
   F "IsNullPtr" [Local; Local];
   F "IsNotNullPtr" [Local; Local];
   F "Deref1" [Local; Local];
   F "Deref2" [Local; Local];
   F "Deref4" [Local; Local];
   F "Deref8" [Local; Local];
   F "DerefN" [Local; Local; UImm4];
   F "Assign1" [Local; Local];
   F "Assign2" [Local; Local];
   F "Assign4" [Local; Local];
   F "Assign8" [Local; Local];
   F "AssignImm1" [Local; Imm1];
   F "AssignImm2" [Local; Imm2];
   F "AssignImm4" [Local; Imm4];
   F "AssignImm8" [Local; Imm8];
   F "AssignImm4F" [Local; Imm4F];
   F "AssignImm8F" [Local; Imm8F];
   F "Lea" [Local; Local; Imm4];
   F "LeaScaled" [Local; Local; Local; Imm4; Imm4];
   F "Call" [FunctionId; LocalCount];
   F "Return" [];
   F "ExecutionContextGetMemoryPool" [Local; Local];
   F "ThreadStateContainerInit" [Local; Local];
   F "ThreadStateContainerIterate" [Local; Local; FunctionId];
   F "ThreadStateContainerReset" [Local; Local; FunctionId; FunctionId; Local];
   F "ThreadStateContainerFree" [Local];
   F "TableVectorIteratorInit" [Local; UImm4; UImm4; UImm4; Local];
   F "TableVectorIteratorPerformInit" [Local];
   F "TableVectorIteratorNext" [Local; Local];
   F "TableVectorIteratorFree" [Local];
   F "TableVectorIteratorGetPCI" [Local; Local];
   F "ParallelScanTable" [UImm4; UImm4; Local; Local; FunctionId];
   F "PCIIsFiltered" [Local; Local];
   F "PCIHasNext" [Local; Local];
   F "PCIHasNextFiltered" [Local; Local];
   F "PCIAdvance" [Local];
   F "PCIAdvanceFiltered" [Local];
   F "PCIMatch" [Local; Local];
   F "PCIReset" [Local];
   F "PCIResetFiltered" [Local];
   F "PCIGetSmallInt" [Local; Local; UImm4];
   F "PCIGetInteger" [Local; Local; UImm4];
   F "PCIGetBigInt" [Local; Local; UImm4];
   F "PCIGetReal" [Local; Local; UImm4];
   F "PCIGetDouble" [Local; Local; UImm4];
   F "PCIGetDecimal" [Local; Local; UImm4];
   F "PCIGetDate" [Local; Local; UImm4];
   F "PCIGetVarlen" [Local; Local; UImm4];
   F "PCIGetSmallIntNull" [Local; Local; UImm4];
   F "PCIGetIntegerNull" [Local; Local; UImm4];
   F "PCIGetBigIntNull" [Local; Local; UImm4];
   F "PCIGetRealNull" [Local; Local; UImm4];
   F "PCIGetDoubleNull" [Local; Local; UImm4];
   F "PCIGetDecimalNull" [Local; Local; UImm4];
   F "PCIGetDateNull" [Local; Local; UImm4];
   F "PCIGetVarlenNull" [Local; Local; UImm4];
   F "PCIFilterEqual" [Local; Local; UImm4; Imm1; Imm8];
   F "PCIFilterGreaterThan" [Local; Local; UImm4; Imm1; Imm8];
   F "PCIFilterGreaterThanEqual" [Local; Local; UImm4; Imm1; Imm8];
   F "PCIFilterLessThan" [Local; Local; UImm4; Imm1; Imm8];
   F "PCIFilterLessThanEqual" [Local; Local; UImm4; Imm1; Imm8];
   F "PCIFilterNotEqual" [Local; Local; UImm4; Imm1; Imm8];
   F "FilterManagerInit" [Local];
   F "FilterManagerStartNewClause" [Local];
   F "FilterManagerInsertFlavor" [Local; FunctionId];
   F "FilterManagerFinalize" [Local];
   F "FilterManagerRunFilters" [Local; Local];
   F "FilterManagerFree" [Local];
   F "ForceBoolTruth" [Local; Local];
   F "InitBool" [Local; Local];
   F "InitInteger" [Local; Local];
   F "InitReal" [Local; Local];
   F "InitDate" [Local; Local; Local; Local];
   F "InitString" [Local; Imm8; Imm8];
   F "InitVarlen" [Local; Local];
   F "LessThanInteger" [Local; Local; Local];
   F "LessThanEqualInteger" [Local; Local; Local];
   F "GreaterThanInteger" [Local; Local; Local];
   F "GreaterThanEqualInteger" [Local; Local; Local];
   F "EqualInteger" [Local; Local; Local];
   F "NotEqualInteger" [Local; Local; Local];
   F "LessThanReal" [Local; Local; Local];
   F "LessThanEqualReal" [Local; Local; Local];
   F "GreaterThanReal" [Local; Local; Local];
   F "GreaterThanEqualReal" [Local; Local; Local];
   F "EqualReal" [Local; Local; Local];
   F "NotEqualReal" [Local; Local; Local];
   F "LessThanString" [Local; Local; Local];
   F "LessThanEqualString" [Local; Local; Local];
   F "GreaterThanString" [Local; Local; Local];
   F "GreaterThanEqualString" [Local; Local; Local];
   F "EqualString" [Local; Local; Local];
   F "NotEqualString" [Local; Local; Local];
   F "AbsInteger" [Local; Local];
   F "AbsReal" [Local; Local];
   F "ValIsNull" [Local; Local];
   F "ValIsNotNull" [Local; Local];
   F "AddInteger" [Local; Local; Local];
   F "SubInteger" [Local; Local; Local];
   F "MulInteger" [Local; Local; Local];
   F "DivInteger" [Local; Local; Local];
   F "RemInteger" [Local; Local; Local];
   F "AddReal" [Local; Local; Local];
   F "SubReal" [Local; Local; Local];
   F "MulReal" [Local; Local; Local];
   F "DivReal" [Local; Local; Local];
   F "RemReal" [Local; Local; Local];
   F "HashInt" [Local; Local];
   F "HashReal" [Local; Local];
   F "HashString" [Local; Local];
   F "HashCombine" [Local; Local];
   F "AggregationHashTableInit" [Local; Local; Local];
   F "AggregationHashTableInsert" [Local; Local; Local];
   F "AggregationHashTableLookup" [Local; Local; Local; FunctionId; Local];
   F "AggregationHashTableProcessBatch" [Local; Local; FunctionId; FunctionId; FunctionId; FunctionId];
   F "AggregationHashTableTransferPartitions" [Local; Local; Local; FunctionId];
   F "AggregationHashTableParallelPartitionedScan" [Local; Local; Local; FunctionId];
   F "AggregationHashTableFree" [Local];
   F "AggregationHashTableIteratorInit" [Local; Local];
   F "AggregationHashTableIteratorHasNext" [Local; Local];
   F "AggregationHashTableIteratorNext" [Local];
   F "AggregationHashTableIteratorGetRow" [Local; Local];
   F "AggregationHashTableIteratorFree" [Local];
   F "AggregationOverflowPartitionIteratorHasNext" [Local; Local];
   F "AggregationOverflowPartitionIteratorNext" [Local];
   F "AggregationOverflowPartitionIteratorGetHash" [Local; Local];
   F "AggregationOverflowPartitionIteratorGetRow" [Local; Local];
   F "CountAggregateInit" [Local];
   F "CountAggregateAdvance" [Local; Local];
   F "CountAggregateMerge" [Local; Local];
   F "CountAggregateReset" [Local];
   F "CountAggregateGetResult" [Local; Local];
   F "CountAggregateFree" [Local];
   F "CountStarAggregateInit" [Local];
   F "CountStarAggregateAdvance" [Local; Local];
   F "CountStarAggregateMerge" [Local; Local];
   F "CountStarAggregateReset" [Local];
   F "CountStarAggregateGetResult" [Local; Local];
   F "CountStarAggregateFree" [Local];
   F "IntegerSumAggregateInit" [Local];
   F "IntegerSumAggregateAdvance" [Local; Local];
   F "IntegerSumAggregateMerge" [Local; Local];
   F "IntegerSumAggregateReset" [Local];
   F "IntegerSumAggregateGetResult" [Local; Local];
   F "IntegerSumAggregateFree" [Local];
   F "IntegerMaxAggregateInit" [Local];
   F "IntegerMaxAggregateAdvance" [Local; Local];
   F "IntegerMaxAggregateMerge" [Local; Local];
   F "IntegerMaxAggregateReset" [Local];
   F "IntegerMaxAggregateGetResult" [Local; Local];
   F "IntegerMaxAggregateFree" [Local];
   F "IntegerMinAggregateInit" [Local];
   F "IntegerMinAggregateAdvance" [Local; Local];
   F "IntegerMinAggregateMerge" [Local; Local];
   F "IntegerMinAggregateReset" [Local];
   F "IntegerMinAggregateGetResult" [Local; Local];
   F "IntegerMinAggregateFree" [Local];
   F "AvgAggregateInit" [Local];
   F "AvgAggregateAdvance" [Local; Local];
   F "AvgAggregateMerge" [Local; Local];
   F "AvgAggregateReset" [Local];
   F "AvgAggregateGetResult" [Local; Local];
   F "AvgAggregateFree" [Local];
   F "RealSumAggregateInit" [Local];
   F "RealSumAggregateAdvance" [Local; Local];
   F "RealSumAggregateMerge" [Local; Local];
   F "RealSumAggregateReset" [Local];
   F "RealSumAggregateGetResult" [Local; Local];
   F "RealSumAggregateFree" [Local];
   F "RealMaxAggregateInit" [Local];
   F "RealMaxAggregateAdvance" [Local; Local];
   F "RealMaxAggregateMerge" [Local; Local];
   F "RealMaxAggregateReset" [Local];
   F "RealMaxAggregateGetResult" [Local; Local];
   F "RealMaxAggregateFree" [Local];
   F "RealMinAggregateInit" [Local];
   F "RealMinAggregateAdvance" [Local; Local];
   F "RealMinAggregateMerge" [Local; Local];
   F "RealMinAggregateReset" [Local];
   F "RealMinAggregateGetResult" [Local; Local];
   F "RealMinAggregateFree" [Local];
   F "JoinHashTableInit" [Local; Local; Local];
   F "JoinHashTableAllocTuple" [Local; Local; Local];
   F "JoinHashTableIterInit" [Local; Local; Local];
   F "JoinHashTableIterHasNext" [Local; Local; FunctionId; Local; Local];
   F "JoinHashTableIterGetRow" [Local; Local];
   F "JoinHashTableIterClose" [Local];
   F "JoinHashTableBuild" [Local];
   F "JoinHashTableBuildParallel" [Local; Local; Local];
   F "JoinHashTableFree" [Local];
   F "SorterInit" [Local; Local; FunctionId; Local];
   F "SorterAllocTuple" [Local; Local];
   F "SorterAllocTupleTopK" [Local; Local];
   F "SorterAllocTupleTopKFinish" [Local; Local];
   F "SorterSort" [Local];
   F "SorterSortParallel" [Local; Local; Local];
   F "SorterSortTopKParallel" [Local; Local; Local; Local];
   F "SorterFree" [Local];
   F "SorterIteratorInit" [Local; Local];
   F "SorterIteratorGetRow" [Local; Local];
   F "SorterIteratorHasNext" [Local; Local];
   F "SorterIteratorNext" [Local];
   F "SorterIteratorFree" [Local];
   F "OutputAlloc" [Local; Local];
   F "OutputAdvance" [Local];
   F "OutputFinalize" [Local];
   F "OutputSetNull" [Local; Local];
   F "Insert" [Local; UImm4; UImm4; UImm4; Local];
   F "IndexIteratorInit" [Local; UImm4; UImm4; Local];
   F "IndexIteratorScanKey" [Local; Local];
   F "IndexIteratorFree" [Local];
   F "IndexIteratorAdvance" [Local; Local];
   F "IndexIteratorGetSmallInt" [Local; Local; UImm4];
   F "IndexIteratorGetInteger" [Local; Local; UImm4];
   F "IndexIteratorGetBigInt" [Local; Local; UImm4];
   F "IndexIteratorGetDecimal" [Local; Local; UImm4];
   F "IndexIteratorGetReal" [Local; Local; UImm4];
   F "IndexIteratorGetDouble" [Local; Local; UImm4];
   F "IndexIteratorGetSmallIntNull" [Local; Local; UImm4];
   F "IndexIteratorGetIntegerNull" [Local; Local; UImm4];
   F "IndexIteratorGetBigIntNull" [Local; Local; UImm4];
   F "IndexIteratorGetDecimalNull" [Local; Local; UImm4];
   F "IndexIteratorGetRealNull" [Local; Local; UImm4];
   F "IndexIteratorGetDoubleNull" [Local; Local; UImm4];
   F "Pi" [Local];
   F "E" [Local];
   F "Acos" [Local; Local];
   F "Asin" [Local; Local];
   F "Atan" [Local; Local];
   F "Atan2" [Local; Local; Local];
   F "Cos" [Local; Local];
   F "Cot" [Local; Local];
   F "Sin" [Local; Local];
   F "Tan" [Local; Local];
   F "Cosh" [Local; Local];
   F "Tanh" [Local; Local];
   F "Sinh" [Local; Local];
   F "Sqrt" [Local; Local];
   F "Cbrt" [Local; Local];
   F "Exp" [Local; Local];
   F "Ceil" [Local; Local];
   F "Floor" [Local; Local];
   F "Truncate" [Local; Local];
   F "Ln" [Local; Local];
   F "Log2" [Local; Local];
   F "Log10" [Local; Local];
   F "Sign" [Local; Local];
   F "Radians" [Local; Local];
   F "Degrees" [Local; Local];
   F "Round" [Local; Local];
   F "RoundUpTo" [Local; Local; Local];
   F "Log" [Local; Local; Local];
   F "Pow" [Local; Local; Local];
   F "Left" [Local; Local; Local; Local];
   F "Length" [Local; Local; Local];
   F "Lower" [Local; Local; Local];
   F "LPad" [Local; Local; Local; Local; Local];
   F "LTrim" [Local; Local; Local; Local];
   F "Repeat" [Local; Local; Local; Local];
   F "Reverse" [Local; Local; Local];
   F "Right" [Local; Local; Local; Local];
   F "RPad" [Local; Local; Local; Local; Local];
   F "RTrim" [Local; Local; Local; Local];
   F "SplitPart" [Local; Local; Local; Local; Local];
   F "Substring" [Local; Local; Local; Local; Local];
   F "Trim" [Local; Local; Local; Local];
   F "Upper" [Local; Local; Local]].

(** [#define DECLARE_OP(inst, ...) inst,] *)
Definition DECLARE_OP : Macro string := fun inst _ => inst.

(** [#define COUNT_OP(inst, ...) +1] *)
Definition COUNT_OP : Macro Z := fun _ _ => 1.

(** An enumerator list assigns 0 to its first name and one more than
    the previous enumerator to each following one. *)
Definition enumerate (names : list string) : list (string * Z) :=
  imap (fun i inst => (inst, Z.of_nat i)) names.

(** The enumerators declared by [BYTECODE_LIST(DECLARE_OP)]. *)
Definition opcodes : list (string * Z) := enumerate (BYTECODE_LIST DECLARE_OP).

(** [Last = -1 BYTECODE_LIST(COUNT_OP)]: the sum [-1 +1 +1 ... +1],
    stored in the [u32] underlying type. *)
Definition Last : Z :=
  CInt.to_u32 (foldl Z.add (-1) (BYTECODE_LIST COUNT_OP)).

(** [enum class Bytecode : u32], as names with their values. *)
Definition Bytecode : list (string * Z) := opcodes ++ [("Last", Last)].

(** [kBytecodeCount = static_cast<u32>(Bytecode::Last) + 1] *)
Definition kBytecodeCount : Z := CInt.to_u32 (CInt.to_u32 Last + 1).

Definition NumBytecodes : Z := kBytecodeCount.

(** [ToByte]/[FromByte] assert [bytecode <= Bytecode::Last]. *)
Definition valid_bytecode (b : Z) : bool := (0 <=? b) && (b <=? Last).

Definition FromByte (val : Z) : option Z :=
  if valid_bytecode val then Some val else None.

(** [Bytecode::inst]: the value of an enumerator. *)
Definition enumerator (inst : string) : option Z :=
  e ← list_find (fun e : string * Z => e.1 = inst) Bytecode; Some e.2.2.

(** [bytecode == Bytecode::inst] *)
Definition bytecode_is (bytecode : Z) (inst : string) : bool :=
  bool_decide (enumerator inst = Some bytecode).

(** [Bytecodes::ToByte] *)
Definition ToByte (bytecode : Z) : option Z :=
  if valid_bytecode bytecode then Some bytecode else None.

(** [Bytecodes::IsJump] *)
Definition IsJump (bytecode : Z) : bool :=
  bytecode_is bytecode "Jump" || bytecode_is bytecode "JumpIfFalse"
  || bytecode_is bytecode "JumpIfTrue".

(** [Bytecodes::IsCall] *)
Definition IsCall (bytecode : Z) : bool := bytecode_is bytecode "Call".

(** [Bytecodes::IsTerminal] *)
Definition IsTerminal (bytecode : Z) : bool :=
  bytecode_is bytecode "Jump" || bytecode_is bytecode "Return".

(** [GET_BASE_FOR_INT_TYPES(op)] *)
Definition GET_BASE_FOR_INT_TYPES (op : string) : string := op +:+ "_i8".

End Bytecodes.

(** * plan_node/plan_node_defs.h *)
Module PlanNode.

Inductive PlanNodeType :=
| INVALID
| ABSTRACTPLAN
(* Scan Nodes *)
| SEQSCAN | INDEXSCAN | HYBRIDSCAN | CSVSCAN
(* Join Nodes *)
| NESTLOOP | HASHJOIN
(* Mutator Nodes *)
| UPDATE | INSERT | DELETE | APPEND
(* DDL Nodes *)
| DROP | CREATE | POPULATE_INDEX | ANALYZE | CREATE_FUNC
(* Algebra Nodes *)
| AGGREGATE | ORDERBY | PROJECTION | LIMIT | DISTINCT | HASH
(* Utility *)
| EXPORT_EXTERNAL_FILE
(* Test *)
| MOCK.

#[global] Instance PlanNodeType_eq_dec : EqDecision PlanNodeType.
Proof. solve_decision. Defined.

(** The plan tree the compiler walks.  The class [AbstractPlanNode]
    is declared outside the sources; the compiler reads its node
    type, whether it carries an output schema, and its children. *)
#[warnings="-register-all"]
Inductive AbstractPlanNode :=
| PlanNodeOf (type : PlanNodeType) (output_schema : option (list string))
             (children : list AbstractPlanNode).

Definition GetPlanNodeType (op : AbstractPlanNode) : PlanNodeType :=
  match op with PlanNodeOf t _ _ => t end.
Definition GetOutputSchema (op : AbstractPlanNode) : option (list string) :=
  match op with PlanNodeOf _ s _ => s end.
Definition GetChildren (op : AbstractPlanNode) : list AbstractPlanNode :=
  match op with PlanNodeOf _ _ cs => cs end.
Definition GetChildrenSize (op : AbstractPlanNode) : nat := length (GetChildren op).

(** A node object is designated by its position in the tree: the
    list of child indices leading to it from the root.  With the
    position the holder of the pointer also reads the node's type. *)
Record NodeRef := { addr : list nat; node_type : PlanNodeType }.

#[global] Instance NodeRef_eq_dec : EqDecision NodeRef.
Proof. solve_decision. Defined.

Definition ref_of (path : list nat) (op : AbstractPlanNode) : NodeRef :=
  {| addr := path; node_type := GetPlanNodeType op |}.

(** The node reached from [op] along [path]. *)
Fixpoint subplan (op : AbstractPlanNode) (path : list nat) : option AbstractPlanNode :=
  match path with
  | [] => Some op
  | k :: rest =>
      match GetChildren op !! k with
      | Some c => subplan c rest
      | None => None
      end
  end.

End PlanNode.

(** * The emitted IR, as far as the compiler driver builds it *)
Module Ast.

(** [ast::Identifier].  [PipelineFn i] is the name of the function
    emitted for pipeline [i]. *)
Inductive Identifier :=
| Ident (name : string)
| PipelineFn (i : nat).

#[global] Instance Identifier_eq_dec : EqDecision Identifier.
Proof. solve_decision. Defined.

(** [ast::BuiltinType::Kind], the kinds the driver names. *)
Inductive BuiltinKind := Int32 | Nil.

Inductive Expr :=
| BuiltinType (k : BuiltinKind)          (* codegen_.BuiltinType(k) *)
| MakeExpr (id : Identifier)             (* codegen_.MakeExpr(id) *)
| IntLiteral (z : Z)                     (* codegen_.IntLiteral(z) *)
| OpaqueExpr (n : nat).                  (* an expression built by a translator *)

(** [codegen_.MakeField(name, type)] *)
Record FieldDecl := MakeField { field_name : Identifier; field_type : Expr }.

Inductive Stmt :=
| DeclareVariable (name : Identifier) (type : Expr) (init : option Expr)
| ExecCall (fn : Identifier)             (* codegen_.ExecCall(fn) *)
| ReturnStmt (e : Expr)                  (* codegen_.ReturnStmt(e) *)
| OpaqueStmt (n : nat).                  (* a statement built by a translator *)

Inductive Decl :=
| MakeStruct (name : Identifier) (fields : list FieldDecl)
| FunctionDecl (name : Identifier) (params : list FieldDecl) (ret_type : Expr)
               (body : list Stmt)
| OpaqueDecl (n : nat).                  (* a helper declared by a translator *)

(** [FunctionBuilder]: collects the appended statements in order;
    [Finish] closes the function. *)
Record FunctionBuilder := {
  fb_name : Identifier;
  fb_params : list FieldDecl;
  fb_ret : Expr;
  fb_stmts : list Stmt
}.

Definition NewFunctionBuilder (name : Identifier) (params : list FieldDecl)
    (ret : Expr) : FunctionBuilder :=
  {| fb_name := name; fb_params := params; fb_ret := ret; fb_stmts := [] |}.

Definition Append (s : Stmt) (b : FunctionBuilder) : FunctionBuilder :=
  {| fb_name := fb_name b; fb_params := fb_params b; fb_ret := fb_ret b;
     fb_stmts := fb_stmts b ++ [s] |}.

Definition Finish (b : FunctionBuilder) : Decl :=
  FunctionDecl (fb_name b) (fb_params b) (fb_ret b) (fb_stmts b).

Definition body_of (d : Decl) : list Stmt :=
  match d with FunctionDecl _ _ _ body => body | _ => [] end.

End Ast.

(** * execution/compiler/compiler.cpp *)
Module Compiler.
Import PlanNode Ast.

(** The translator objects made by [TranslatorFactory].  The factory
    is declared outside the sources; each of its calls is recorded
    with its arguments: the node and, for the top and right
    translators, the translator they read from. *)
Inductive OperatorTranslator :=
| BottomTranslator (op : NodeRef)
| TopTranslator (op : NodeRef) (bottom : OperatorTranslator)
| LeftTranslator (op : NodeRef)
| RightTranslator (op : NodeRef) (left : OperatorTranslator)
| RegularTranslator (op : NodeRef)
| OutputTranslator.

#[global] Instance OperatorTranslator_eq_dec : EqDecision OperatorTranslator.
Proof. solve_decision. Defined.

(** The node a translator was made for. *)
Definition translated_op (t : OperatorTranslator) : option NodeRef :=
  match t with
  | BottomTranslator op | TopTranslator op _ | LeftTranslator op
  | RightTranslator op _ | RegularTranslator op => Some op
  | OutputTranslator => None
  end.

(** The four vectors [Compile] hands to [Pipeline::Initialize]. *)
Record InitVectors := {
  decls : list Decl;
  state_fields : list FieldDecl;
  setup_stmts : list Stmt;
  teardown_stmts : list Stmt
}.

Definition empty_vectors : InitVectors :=
  {| decls := []; state_fields := []; setup_stmts := []; teardown_stmts := [] |}.

(** What the translators of a pipeline emit.  The translator classes
    are declared outside the sources, so their code is a parameter
    of the driver. *)
Class TranslatorCode := {
  (** the effect of [Pipeline::Initialize] on the four vectors *)
  emit_initialize : list OperatorTranslator -> InitVectors -> InitVectors;
  (** the produce/consume code of a pipeline function *)
  emit_produce : list OperatorTranslator -> list Stmt
}.

(** The identifiers and parameter lists the [CodeGen] object hands
    out ([GetMainFn], [GetSetupFn], ...). *)
Class CodeGen := {
  GetMainFn : Identifier;
  GetSetupFn : Identifier;
  GetTeardownFn : Identifier;
  GetStateVar : Identifier;
  GetStateType : Identifier;
  MainParams : list FieldDecl;
  ExecParams : list FieldDecl
}.

(** Modelled from the spec: class [Pipeline], which is declared
    outside the sources.  A pipeline is "an ordered list of operator
    translators, bottom to top", to which [Add] appends; [Produce(i)]
    emits the function of pipeline [i], "named pipeline_<i>", and
    [GetPipelineName] returns that name. *)
Record Pipeline := {
  translators : list OperatorTranslator;
  pipeline_idx : option nat
}.

Definition new_Pipeline : Pipeline := {| translators := []; pipeline_idx := None |}.

Definition Pipeline_Add (t : OperatorTranslator) (p : Pipeline) : Pipeline :=
  {| translators := translators p ++ [t]; pipeline_idx := pipeline_idx p |}.

Definition GetPipelineName (p : Pipeline) : Identifier :=
  match pipeline_idx p with
  | Some i => PipelineFn i
  | None => Ident "pipeline"
  end.

Definition Pipeline_Produce `{CodeGen} `{TranslatorCode}
    (idx : nat) (p : Pipeline) : Decl * Pipeline :=
  let p' := {| translators := translators p; pipeline_idx := Some idx |} in
  (FunctionDecl (GetPipelineName p') ExecParams (BuiltinType Nil)
                (emit_produce (translators p)), p').

(** The compiler object.  Pipelines are heap objects handled through
    pointers: [heap] holds the objects made by [new Pipeline], a
    pointer is an index into it, and [pipelines_] is the vector of
    pointers. *)
Record Compiler := {
  heap : list Pipeline;
  pipelines_ : list nat
}.

Definition empty_compiler : Compiler := {| heap := []; pipelines_ := [] |}.

(** [new Pipeline(&codegen_)] *)
Definition alloc_pipeline (c : Compiler) : nat * Compiler :=
  (length (heap c), {| heap := heap c ++ [new_Pipeline]; pipelines_ := pipelines_ c |}).

(** [p->Add(t)] *)
Definition Add (p : nat) (t : OperatorTranslator) (c : Compiler) : Compiler :=
  {| heap := alter (Pipeline_Add t) p (heap c); pipelines_ := pipelines_ c |}.

(** [pipelines_.push_back(p)] *)
Definition push_back (p : nat) (c : Compiler) : Compiler :=
  {| heap := heap c; pipelines_ := pipelines_ c ++ [p] |}.

(** [Compiler::MakePipelines].  [path] is the position of [op];
    the result is [None] when the walk asks a node for a child it
    does not have. *)
Fixpoint MakePipelines (op : AbstractPlanNode) (path : list nat)
    (curr_pipeline : nat) (c : Compiler) {struct op} : option Compiler :=
  match op with
  | PlanNodeOf ty _ cs =>
      let this := {| addr := path; node_type := ty |} in
      match ty with
      | AGGREGATE | ORDERBY =>
          let bottom_translator := BottomTranslator this in
          let top_translator := TopTranslator this bottom_translator in
          let c := Add curr_pipeline top_translator c in
          (* Make the next pipeline *)
          let '(next_pipeline, c) := alloc_pipeline c in
          match cs with
          | child0 :: _ =>
              match MakePipelines child0 (path ++ [0%nat]) next_pipeline c with
              | Some c =>
                  let c := Add next_pipeline bottom_translator c in
                  Some (push_back next_pipeline c)
              | None => None
              end
          | [] => None
          end
      | HASHJOIN =>
          (* Create left and right translators *)
          let left_translator := LeftTranslator this in
          let right_translator := RightTranslator this left_translator in
          (* Generate left pipeline *)
          let '(next_pipeline, c) := alloc_pipeline c in
          match cs with
          | child0 :: rest =>
              match MakePipelines child0 (path ++ [0%nat]) next_pipeline c with
              | Some c =>
                  let c := Add next_pipeline left_translator c in
                  let c := push_back next_pipeline c in
                  (* Continue right pipeline *)
                  match rest with
                  | child1 :: _ =>
                      match MakePipelines child1 (path ++ [1%nat]) curr_pipeline c with
                      | Some c => Some (Add curr_pipeline right_translator c)
                      | None => None
                      end
                  | [] => None
                  end
              | None => None
              end
          | [] => None
          end
      | NESTLOOP =>
          (* Create left and right translators *)
          let left_translator := LeftTranslator this in
          let right_translator := RightTranslator this left_translator in
          match cs with
          | child0 :: rest =>
              match MakePipelines child0 (path ++ [0%nat]) curr_pipeline c with
              | Some c =>
                  let c := Add curr_pipeline left_translator c in
                  match rest with
                  | child1 :: _ =>
                      match MakePipelines child1 (path ++ [1%nat]) curr_pipeline c with
                      | Some c => Some (Add curr_pipeline right_translator c)
                      | None => None
                      end
                  | [] => None
                  end
              | None => None
              end
          | [] => None
          end
      | _ =>
          let translator := RegularTranslator this in
          match cs with
          | child0 :: _ =>
              match MakePipelines child0 (path ++ [0%nat]) curr_pipeline c with
              | Some c => Some (Add curr_pipeline translator c)
              | None => None
              end
          | [] => Some (Add curr_pipeline translator c)
          end
      end
  end.

(** The constructor [Compiler::Compiler(query)], for the plan of the
    query. *)
Definition new_Compiler (plan : AbstractPlanNode) : option Compiler :=
  (* Make the pipelines *)
  let '(main_pipeline, c) := alloc_pipeline empty_compiler in
  match MakePipelines plan [] main_pipeline c with
  | Some c =>
      (* The query has an output *)
      let c := match GetOutputSchema plan with
               | Some _ => Add main_pipeline OutputTranslator c
               | None => c
               end in
      (* Finally add the main pipeline *)
      Some (push_back main_pipeline c)
  | None => None
  end.

(** ** What the walk computes

    [split_pipelines op path] is the closed form of
    [MakePipelines op path curr]: the translators the walk appends
    to the current pipeline, and the contents of the pipelines it
    finishes, in the order in which they are pushed. *)
Fixpoint split_pipelines (op : AbstractPlanNode) (path : list nat) {struct op}
    : option (list OperatorTranslator * list (list OperatorTranslator)) :=
  match op with
  | PlanNodeOf ty _ cs =>
      let this := {| addr := path; node_type := ty |} in
      match ty with
      | AGGREGATE | ORDERBY =>
          match cs with
          | child0 :: _ =>
              match split_pipelines child0 (path ++ [0%nat]) with
              | Some (a0, f0) =>
                  Some ([TopTranslator this (BottomTranslator this)],
                        f0 ++ [a0 ++ [BottomTranslator this]])
              | None => None
              end
          | [] => None
          end
      | HASHJOIN =>
          match cs with
          | child0 :: child1 :: _ =>
              match split_pipelines child0 (path ++ [0%nat]),
                    split_pipelines child1 (path ++ [1%nat]) with
              | Some (a0, f0), Some (a1, f1) =>
                  Some (a1 ++ [RightTranslator this (LeftTranslator this)],
                        f0 ++ [a0 ++ [LeftTranslator this]] ++ f1)
              | _, _ => None
              end
          | _ => None
          end
      | NESTLOOP =>
          match cs with
          | child0 :: child1 :: _ =>
              match split_pipelines child0 (path ++ [0%nat]),
                    split_pipelines child1 (path ++ [1%nat]) with
              | Some (a0, f0), Some (a1, f1) =>
                  Some (a0 ++ [LeftTranslator this] ++ a1
                           ++ [RightTranslator this (LeftTranslator this)],
                        f0 ++ f1)
              | _, _ => None
              end
          | _ => None
          end
      | _ =>
          match cs with
          | child0 :: _ =>
              match split_pipelines child0 (path ++ [0%nat]) with
              | Some (a0, f0) => Some (a0 ++ [RegularTranslator this], f0)
              | None => None
              end
          | [] => Some ([RegularTranslator this], [])
          end
      end
  end.

(** The pipelines of a plan in the order of [pipelines_], the main
    pipeline last. *)
Definition pipelines_of (plan : AbstractPlanNode)
    : option (list (list OperatorTranslator)) :=
  match split_pipelines plan [] with
  | Some (a, f) =>
      Some (f ++ [a ++ match GetOutputSchema plan with
                       | Some _ => [OutputTranslator]
                       | None => []
                       end])
  | None => None
  end.

(** Appending translators to a pipeline object. *)
Definition add_all (ts : list OperatorTranslator) (p : Pipeline) : Pipeline :=
  {| translators := translators p ++ ts; pipeline_idx := pipeline_idx p |}.

(** A node at which the walk breaks the pipeline. *)
Definition is_breaker (ty : PlanNodeType) : bool :=
  match ty with
  | AGGREGATE | ORDERBY | HASHJOIN => true
  | _ => false
  end.

(** The children of a node the walk descends into. *)
Definition visited_children (op : AbstractPlanNode) : list AbstractPlanNode :=
  match GetPlanNodeType op with
  | HASHJOIN | NESTLOOP => take 2 (GetChildren op)
  | _ => take 1 (GetChildren op)
  end.

(** The number of pipeline breakers among the nodes the walk
    visits. *)
Fixpoint breakers (op : AbstractPlanNode) : nat :=
  match op with
  | PlanNodeOf ty _ cs =>
      let n := if is_breaker ty then 1%nat else 0%nat in
      match ty, cs with
      | (HASHJOIN | NESTLOOP), c0 :: c1 :: _ => (n + breakers c0 + breakers c1)%nat
      | (HASHJOIN | NESTLOOP), [c0] => (n + breakers c0)%nat
      | _, c0 :: _ => (n + breakers c0)%nat
      | _, [] => n
      end
  end.

(** Translator [t] sits in the pipeline with index [i], the [i]-th
    entry of [pipelines_]. *)
Definition in_pipeline (c : Compiler) (i : nat) (t : OperatorTranslator) : Prop :=
  exists p pl, pipelines_ c !! i = Some p /\ heap c !! p = Some pl /\
               t ∈ translators pl.

(** A dependency edge: [v] reads the operator state that [u]
    builds.  The scan side of an aggregation or a sort reads what
    its build side materialized, the probe side of a hash join
    reads the hash table its build side filled. *)
Definition reads_state_of (v u : OperatorTranslator) : Prop :=
  match v with
  | TopTranslator op bottom => bottom = u
  | RightTranslator op l => node_type op = HASHJOIN /\ l = u
  | _ => False
  end.

Section Driver.
Context `{CodeGen} `{TranslatorCode}.

(** [Compiler::GenStateStruct] *)
Definition GenStateStruct (top_level : list Decl) (fields : list FieldDecl)
    : list Decl :=
  (* Make a dummy fields in case no operator has a state *)
  let dummy_name := Ident "DUMMY" in
  let dummy_type := BuiltinType Int32 in
  let fields := fields ++ [MakeField dummy_name dummy_type] in
  top_level ++ [MakeStruct GetStateType fields].

(** [Compiler::GenHelperStructsAndFunctions] *)
Definition GenHelperStructsAndFunctions (top_level : list Decl)
    (decls : list Decl) : list Decl :=
  top_level ++ decls.

(** [Compiler::GenFunction] *)
Definition GenFunction (top_level : list Decl) (fn_name : Identifier)
    (stmts : list Stmt) : list Decl :=
  (* Function parameter *)
  let params := ExecParams in
  (* Function return type (nil) *)
  let ret_type := BuiltinType Nil in
  (* Make the function *)
  let builder := NewFunctionBuilder fn_name params ret_type in
  let builder := foldl (fun b stmt => Append stmt b) builder stmts in
  top_level ++ [Finish builder].

(** [Compiler::GenMainFunction].  Reading through a pointer that
    designates no pipeline object gives [None]. *)
Definition GenMainFunction (c : Compiler) : option Decl :=
  (* Function name *)
  let fn_name := GetMainFn in
  (* Function parameter *)
  let params := MainParams in
  (* Function return type (int32) *)
  let ret_type := BuiltinType Int32 in
  (* Make the function *)
  let builder := NewFunctionBuilder fn_name params ret_type in
  (* Step 0: Define the state variable. *)
  let state := GetStateVar in
  let state_type := MakeExpr GetStateType in
  let builder := Append (DeclareVariable state state_type None) builder in
  (* Step 1: Call setupFn(state, execCtx) *)
  let builder := Append (ExecCall GetSetupFn) builder in
  (* Step 2: For each pipeline, call its function *)
  builder ← foldl (fun ob p =>
                     b ← ob; pipeline ← heap c !! p;
                     Some (Append (ExecCall (GetPipelineName pipeline)) b))
                  (Some builder) (pipelines_ c);
  (* Step 3: Call the teardown function *)
  let builder := Append (ExecCall GetTeardownFn) builder in
  (* Step 4: return a value of 0 *)
  let builder := Append (ReturnStmt (IntLiteral 37)) builder in
  Some (Finish builder).

(** Step 1.1 of [Compile]: let every pipeline initialize itself. *)
Definition initialize_all (c : Compiler) : option InitVectors :=
  foldl (fun ov p =>
           v ← ov; pipeline ← heap c !! p;
           Some (emit_initialize (translators pipeline) v))
        (Some empty_vectors) (pipelines_ c).

(** Step 2 of [Compile]: the loop over [pipelines_] that emits one
    function per pipeline, counting [pipeline_idx] up. *)
Fixpoint produce_all (ps : list nat) (pipeline_idx : nat)
    (top_level : list Decl) (h : list Pipeline)
    : option (list Decl * list Pipeline) :=
  match ps with
  | [] => Some (top_level, h)
  | p :: ps =>
      pipeline ← h !! p;
      let '(d, pipeline) := Pipeline_Produce pipeline_idx pipeline in
      produce_all ps (S pipeline_idx) (top_level ++ [d]) (<[p := pipeline]> h)
  end.

(** [Compiler::Compile]: the top-level declarations handed to
    [codegen_.Compile], with the compiler object afterwards. *)
Definition Compile (c : Compiler) : option (list Decl * Compiler) :=
  (* Step 1: Generate state, structs, helper functions *)
  v ← initialize_all c;
  (* 1.2 Make the top level declarations *)
  let top_level := [] in
  let top_level := GenStateStruct top_level (state_fields v) in
  let top_level := GenHelperStructsAndFunctions top_level (decls v) in
  let top_level := GenFunction top_level GetSetupFn (setup_stmts v) in
  let top_level := GenFunction top_level GetTeardownFn (teardown_stmts v) in
  (* Step 2: For each pipeline: Generate a pipeline function *)
  '(top_level, h) ← produce_all (pipelines_ c) 0 top_level (heap c);
  let c := {| heap := h; pipelines_ := pipelines_ c |} in
  (* Step 3: Make the main function *)
  main ← GenMainFunction c;
  Some (top_level ++ [main], c).

(** Constructing the compiler for a plan and compiling it. *)
Definition compile_plan (plan : AbstractPlanNode) : option (list Decl) :=
  c ← new_Compiler plan;
  r ← Compile c;
  Some r.1.

End Driver.

End Compiler.

(** * execution/compiler/compilation_context.cpp *)
Module CompilationContext.
Import Ast.

(** The names a [Query] hands out and the finalized type of its
    query state; both come from classes declared outside the
    sources. *)
Class Query := {
  GetQueryStateName : string;
  GetQueryInitName : string;
  GetQueryProduceName : string;
  GetQueryTeardownName : string;
  qs_type : Expr
}.

(** The statements [GeneratePlan] appends to [main_fn]: a variable
    declaration, a call [fn(&qs)], a return. *)
Inductive MainStmt :=
| NewDeclStmt (name : Identifier) (type : Expr) (init : option Expr)
| NewCallAddrOf (fn : Identifier) (arg : Identifier)
| NewReturnStmt (e : Expr).

(** Block 5 of [CompilationContext::GeneratePlan]: the body of
    [main], in the order of the [Append] calls. *)
Definition main_body `{Query} : list MainStmt :=
  let qs_id := Ident GetQueryStateName in
  let init_id := Ident GetQueryInitName in
  let produce_id := Ident GetQueryProduceName in
  let teardown_id := Ident GetQueryTeardownName in
  (* 5.1 Declare the qs variable *)
  [ NewDeclStmt qs_id qs_type None;
  (* 5.2 Call init_fn(&qs) *)
    NewCallAddrOf init_id qs_id;
  (* 5.3 Call produce_fn(&qs) *)
    NewCallAddrOf produce_id qs_id;
  (* 5.4 Call teardown_fn(&qs) *)
    NewCallAddrOf teardown_id qs_id;
  (* 5.5 return 0 *)
    NewReturnStmt (IntLiteral 0) ].

(** [CompilationContext::RegisterPipeline], on the vector
    [pipelines_]: the position of the new entry, as a [u32]. *)
Definition RegisterPipeline {Pipeline : Type} (pipeline : Pipeline)
    (pipelines_ : list Pipeline) : Z * list Pipeline :=
  let pos := Z.of_nat (length pipelines_) in
  (CInt.to_u32 pos, pipelines_ ++ [pipeline]).

End CompilationContext.

(** * execution/sql/table_vector_iterator.cpp *)
Module TableVectorIterator.

(** The storage layer as the iterator uses it.  [SqlTable], its slot
    iterator and the projected-columns buffer are declared outside
    the sources; their operations are parameters. *)
Class Storage := {
  SqlTable : Type;
  SlotIterator : Type;
  SlotIterator_eq_dec :: EqDecision SlotIterator;
  ProjectedColumns : Type;
  TransactionContext : Type;
  (** [table->begin()], [table->end()] *)
  table_begin : SqlTable -> SlotIterator;
  table_end : SqlTable -> SlotIterator;
  (** [table->Scan(txn, &iter, out)]: fills the buffer with one
      batch of visible rows and moves the iterator *)
  Scan : SqlTable -> TransactionContext -> SlotIterator -> ProjectedColumns
         -> SlotIterator * ProjectedColumns;
  (** [table->InitializerForProjectedColumns(col_oids, n)] followed
      by [Initialize(buffer)]: the empty buffer *)
  InitializeProjectedColumns : SqlTable -> list nat -> nat -> ProjectedColumns;
  kDefaultVectorSize : nat
}.

Section Iterator.
Context `{Storage}.

(** [exec::ExecutionContext]: the catalog accessor and the
    transaction. *)
Record ExecutionContext := {
  GetTable : nat -> option SqlTable;
  GetTxn : TransactionContext
}.

(** What a call did to the table object. *)
Inductive TableAccess :=
| CalledBegin
| CalledEnd
| CalledScan (from : SlotIterator).

(** The memory a pointer of the iterator designates. *)
Inductive BufferPtr := nullptr | to_buffer.

(** The fields of the iterator object, with the record of the
    accesses made to the table. *)
Record TableVectorIterator := {
  table_oid_ : nat;
  exec_ctx_ : ExecutionContext;
  col_oids_ : list nat;
  table_ : option SqlTable;
  buffer_ : option ProjectedColumns;      (* the allocated buffer and its contents *)
  projected_columns_ : BufferPtr;
  pci_ : BufferPtr;                       (* the buffer the PCI iterates over *)
  initialized : bool;
  iter_ : option SlotIterator;
  accesses : list TableAccess
}.

(** The constructor; [initialized] starts out false. *)
Definition new_TableVectorIterator (table_oid : nat) (exec_ctx : ExecutionContext)
    (col_oids : list nat) : TableVectorIterator :=
  {| table_oid_ := table_oid; exec_ctx_ := exec_ctx; col_oids_ := col_oids;
     table_ := None; buffer_ := None; projected_columns_ := nullptr;
     pci_ := nullptr; initialized := false; iter_ := None; accesses := [] |}.

(** [TableVectorIterator::Init].  A failed assertion gives [None]. *)
Definition Init (it : TableVectorIterator) : option (bool * TableVectorIterator) :=
  (* Find the table *)
  match GetTable (exec_ctx_ it) (table_oid_ it) with
  | None => None                          (* "Table must exist!!" *)
  | Some table =>
      (* Initialize the projected column *)
      match col_oids_ it with
      | [] => None                        (* "There must be at least one col oid!" *)
      | _ :: _ =>
          let pc := InitializeProjectedColumns table (col_oids_ it) kDefaultVectorSize in
          Some (true,
                {| table_oid_ := table_oid_ it; exec_ctx_ := exec_ctx_ it;
                   col_oids_ := col_oids_ it;
                   table_ := Some table;
                   buffer_ := Some pc;
                   projected_columns_ := to_buffer;
                   pci_ := pci_ it;
                   initialized := true;
                   (* Begin iterating *)
                   iter_ := Some (table_begin table);
                   accesses := accesses it ++ [CalledBegin] |})
      end
  end.

(** [TableVectorIterator::Advance].  Reading through a null
    pointer gives [None]. *)
Definition Advance (it : TableVectorIterator) : option (bool * TableVectorIterator) :=
  if negb (initialized it) then Some (false, it)
  else
    match table_ it, iter_ it with
    | Some table, Some iter =>
        (* First check if the iterator ended. *)
        if decide (iter = table_end table) then
          Some (false,
                {| table_oid_ := table_oid_ it; exec_ctx_ := exec_ctx_ it;
                   col_oids_ := col_oids_ it; table_ := table_ it;
                   buffer_ := buffer_ it;
                   projected_columns_ := projected_columns_ it;
                   pci_ := pci_ it; initialized := initialized it;
                   iter_ := iter_ it;
                   accesses := accesses it ++ [CalledEnd] |})
        else
          (* Scan the table to set the projected column. *)
          match projected_columns_ it, buffer_ it with
          | to_buffer, Some pc =>
              let '(iter', pc') := Scan table (GetTxn (exec_ctx_ it)) iter pc in
              Some (true,
                    {| table_oid_ := table_oid_ it; exec_ctx_ := exec_ctx_ it;
                       col_oids_ := col_oids_ it; table_ := table_ it;
                       buffer_ := Some pc';
                       projected_columns_ := projected_columns_ it;
                       pci_ := projected_columns_ it;
                       initialized := initialized it;
                       iter_ := Some iter';
                       accesses := accesses it ++ [CalledEnd; CalledScan iter] |})
          | _, _ => None
          end
    | _, _ => None
    end.

(** The states the iterator is in after a successful [Init] and
    any number of calls of [Advance]. *)
Inductive after_Init : TableVectorIterator -> Prop :=
| after_Init_call it0 it :
    Init it0 = Some (true, it) -> after_Init it
| after_Advance_call it b it' :
    after_Init it -> Advance it = Some (b, it') -> after_Init it'.

End Iterator.

End TableVectorIterator.

(** * catalog/catalog_sql_table.h *)
Module SqlTableRW.

(** Modelled from the spec: [type::TypeId] and [type::TransientValue],
    which are declared outside the sources.  A transient value is "a
    tagged sum over {bool, smallint, int, bigint, real, double, date,
    varchar, null}"; a null value keeps the type it is a null of. *)
Inductive TypeId :=
| BOOLEAN | SMALLINT | INTEGER | BIGINT | REAL | DOUBLE | DATE | VARCHAR.

#[global] Instance TypeId_eq_dec : EqDecision TypeId.
Proof. solve_decision. Defined.

Inductive TransientValue :=
| NullValue (t : TypeId)
| BooleanValue (b : bool)
| SmallIntValue (z : Z)
| IntegerValue (z : Z)
| BigIntValue (z : Z)
| RealValue (bits : Z)
| DoubleValue (bits : Z)
| DateValue (z : Z)
| VarCharValue (s : string).

#[global] Instance TransientValue_eq_dec : EqDecision TransientValue.
Proof. solve_decision. Defined.

(** [value.Type()] and [value.Null()] *)
Definition Type_ (v : TransientValue) : TypeId :=
  match v with
  | NullValue t => t
  | BooleanValue _ => BOOLEAN
  | SmallIntValue _ => SMALLINT
  | IntegerValue _ => INTEGER
  | BigIntValue _ => BIGINT
  | RealValue _ => REAL
  | DoubleValue _ => DOUBLE
  | DateValue _ => DATE
  | VarCharValue _ => VARCHAR
  end.

Definition Null (v : TransientValue) : bool :=
  match v with NullValue _ => true | _ => false end.

(** C strings: the characters up to the first NUL; the terminator
    that follows the last character of a stored string is implicit. *)
Definition NUL : ascii := Ascii.zero.

Fixpoint strlen (s : string) : nat :=
  match s with
  | EmptyString => 0%nat
  | String c s' => if decide (c = NUL) then 0%nat else S (strlen s')
  end.

(** [memcpy(dst, src, n)] out of a string: its first [n] characters. *)
Fixpoint memcpy (n : nat) (src : string) : string :=
  match n, src with
  | S n', String c s' => String c (memcpy n' s')
  | _, _ => EmptyString
  end.

(** [type::TransientValueFactory] *)
Definition GetNull (t : TypeId) : TransientValue := NullValue t.
Definition GetBoolean (b : bool) : TransientValue := BooleanValue b.
Definition GetSmallInt (z : Z) : TransientValue := SmallIntValue z.
Definition GetInteger (z : Z) : TransientValue := IntegerValue z.
Definition GetBigInt (z : Z) : TransientValue := BigIntValue z.
(** [GetVarChar] copies the C string it is given. *)
Definition GetVarChar (p : string) : TransientValue :=
  VarCharValue (memcpy (strlen p) p).

(** [type::TransientValuePeeker] *)
Definition PeekBoolean (v : TransientValue) : option bool :=
  match v with BooleanValue b => Some b | _ => None end.
Definition PeekInteger (v : TransientValue) : option Z :=
  match v with IntegerValue z => Some z | _ => None end.
Definition PeekBigInt (v : TransientValue) : option Z :=
  match v with BigIntValue z => Some z | _ => None end.
Definition PeekVarChar (v : TransientValue) : option string :=
  match v with VarCharValue s => Some s | _ => None end.

(** The values a [TransientValue] of each type can hold. *)
Definition value_ok (v : TransientValue) : Prop :=
  match v with
  | SmallIntValue z => CInt.in_signed 16 z
  | IntegerValue z => CInt.in_signed 32 z
  | BigIntValue z => CInt.in_signed 64 z
  | DateValue z => CInt.in_signed 32 z
  | VarCharValue s => strlen s = String.length s /\ Z.of_nat (String.length s) + 1 < 2 ^ 32
  | _ => True
  end.

(** Integers in a column: [n] bytes, little endian, two's
    complement. *)
Fixpoint le_bytes (n : nat) (z : Z) : list Z :=
  match n with
  | O => []
  | S n' => z mod 256 :: le_bytes n' (z / 256)
  end.

Fixpoint le_value (bs : list Z) : Z :=
  match bs with
  | [] => 0
  | b :: bs' => b + 256 * le_value bs'
  end.

(** Modelled from the spec: [storage::VarlenEntry], declared outside
    the sources: "either inline (<= threshold bytes, stored in
    place) or indirected (ptr, len) with an ownership flag". *)
Inductive VarlenEntry :=
| InlineEntry (content : string) (size : Z)
| PointerEntry (ptr : nat) (size : Z) (reclaim : bool).

(** [VarlenEntry::CreateInline(content, size)] copies [size] bytes. *)
Definition CreateInline (content : string) (size : Z) : VarlenEntry :=
  InlineEntry (memcpy (Z.to_nat size) content) size.
(** [VarlenEntry::Create(content, size, reclaim)] *)
Definition Create (ptr : nat) (size : Z) (reclaim : bool) : VarlenEntry :=
  PointerEntry ptr size reclaim.

Definition Size (e : VarlenEntry) : Z :=
  match e with InlineEntry _ n | PointerEntry _ n _ => n end.

(** The buffers handed out by [AllocationUtil::AllocateAligned],
    with their contents; a pointer is an index. *)
Abbreviation Memory := (list string).

Definition Content (mem : Memory) (e : VarlenEntry) : option string :=
  match e with
  | InlineEntry s _ => Some s
  | PointerEntry p _ _ => mem !! p
  end.

(** Modelled from the spec: [storage::ProjectedRow], "a single-row
    view over a subset of columns": per column of the projection a
    presence bit and the attribute's bytes. *)
Inductive Cell :=
| RawBytes (bs : list Z)
| VarlenCell (e : VarlenEntry).

Record ProjectedRow := {
  bitmap : list bool;          (* true: the column holds a value *)
  cells : list Cell
}.

Definition NumColumns (r : ProjectedRow) : nat := length (cells r).

(** [InitializeRow]: every column null. *)
Definition InitializeRow (init : list Cell) : ProjectedRow :=
  {| bitmap := replicate (length init) false; cells := init |}.

(** [row->SetNull(offset)] *)
Definition SetNull (offset : nat) (r : ProjectedRow) : option ProjectedRow :=
  if decide (offset < NumColumns r)%nat
  then Some {| bitmap := <[offset := false]> (bitmap r); cells := cells r |}
  else None.

(** [row->AccessForceNotNull(offset)] followed by a store through
    the returned pointer: [store] is applied to the attribute. *)
Definition AccessForceNotNull (offset : nat) (store : Cell -> Cell)
    (r : ProjectedRow) : option ProjectedRow :=
  if decide (offset < NumColumns r)%nat
  then Some {| bitmap := <[offset := true]> (bitmap r);
               cells := alter store offset (cells r) |}
  else None.

(** [row.AccessWithNullCheck(offset)]: [Some None] is the null
    pointer. *)
Definition AccessWithNullCheck (offset : nat) (r : ProjectedRow)
    : option (option Cell) :=
  match bitmap r !! offset, cells r !! offset with
  | Some true, Some c => Some (Some c)
  | Some false, Some _ => Some None
  | _, _ => None
  end.

(** A store through the column pointer cast to an [n]-byte integer:
    the first [n] bytes of the attribute are overwritten.  A row is
    modelled as separate attributes, so the store is described for
    an attribute of at least [n] bytes, which the layout of the table
    gives a column of the stored type; the bytes a wider store writes
    behind its attribute are kept in the attribute itself and reach
    no other one. *)
Definition store_int (n : nat) (z : Z) (c : Cell) : Cell :=
  match c with
  | RawBytes bs => RawBytes (le_bytes n z ++ drop n bs)
  | VarlenCell _ => RawBytes (le_bytes n z)
  end.

(** A load through the column pointer cast to an [n]-byte integer. *)
Definition load_int (n : nat) (c : Cell) : option Z :=
  match c with
  | RawBytes bs =>
      if decide (n <= length bs)%nat
      then Some (CInt.to_signed (8 * Z.of_nat n) (le_value (take n bs)))
      else None
  | VarlenCell _ => None
  end.

(** A store of a [VarlenEntry] through the column pointer.  As for
    [store_int], the store is described for the attribute of a varlen
    column and reaches no other attribute. *)
Definition store_varlen (e : VarlenEntry) (_ : Cell) : Cell := VarlenCell e.

Definition load_varlen (c : Cell) : option VarlenEntry :=
  match c with VarlenCell e => Some e | RawBytes _ => None end.

(** [catalog::Schema::Column] *)
Record Column := {
  GetName : string;
  GetType : TypeId;
  GetNullable : bool;
  GetOid : nat
}.

(** The fields of [SqlTableRW] the two functions read. *)
Record SqlTableRW := {
  cols_ : list Column;
  col_oids_ : list nat;
  pr_map_ : gmap nat nat
}.

(** [storage::VarlenEntry::InlineThreshold()], a constant of the
    storage layer. *)
Class StorageConstants := { InlineThreshold : Z }.

Section ReadWrite.
Context `{StorageConstants}.
Variable rw : SqlTableRW.

(** [SqlTableRW::ColNumToOffset] *)
Definition ColNumToOffset (col_num : nat) : option nat :=
  if decide (size (pr_map_ rw) <= col_num)%nat then None   (* "col_num > size" *)
  else oid ← col_oids_ rw !! col_num; pr_map_ rw !! oid.

(** [SqlTableRW::SetColInRow].  The row and the allocated buffers
    are updated in place. *)
Definition SetColInRow (proj_row : ProjectedRow) (mem : Memory)
    (col_num : nat) (value : TransientValue)
    : option (ProjectedRow * Memory) :=
  oid ← col_oids_ rw !! col_num;
  offset ← pr_map_ rw !! oid;
  if Null value then
    r ← SetNull offset proj_row; Some (r, mem)
  else
    (* value must be non-null onwards *)
    match Type_ value with
    | BOOLEAN =>
        b ← PeekBoolean value;
        r ← AccessForceNotNull offset (store_int 1 (Z.b2z b)) proj_row;
        Some (r, mem)
    | INTEGER =>
        z ← PeekInteger value;
        r ← AccessForceNotNull offset (store_int 4 z) proj_row;
        Some (r, mem)
    | BIGINT =>
        z ← PeekBigInt value;
        r ← AccessForceNotNull offset (store_int 8 z) proj_row;
        Some (r, mem)
    | VARCHAR =>
        val_p ← PeekVarChar value;
        let size := Z.of_nat (strlen val_p) in
        if InlineThreshold <? size then
          (* not inline, allocate storage *)
          let varlen := length mem in
          let mem := mem ++ [memcpy (Z.to_nat size) val_p] in
          r ← AccessForceNotNull offset
                (store_varlen (Create varlen (CInt.to_u32 size) true)) proj_row;
          Some (r, mem)
        else
          (* small enough to be stored inline *)
          r ← AccessForceNotNull offset
                (store_varlen (CreateInline val_p (CInt.to_u32 size))) proj_row;
          Some (r, mem)
    (* TODO(yangjuns): support other types *)
    | _ => Some (proj_row, mem)
    end.

(** The body of the loop of [SqlTableRW::ColToValueVec] for
    column [i]; [None] stands for a thrown exception. *)
Definition ColToValue (row_view : ProjectedRow) (mem : Memory) (i : nat)
    : option TransientValue :=
  col ← cols_ rw !! i;
  let schema_col_type := GetType col in
  offset ← ColNumToOffset i;
  col_p ← AccessWithNullCheck offset row_view;
  match col_p with
  | None => Some (GetNull schema_col_type)
  | Some cell =>
      match schema_col_type with
      | BOOLEAN =>
          row_bool_val ← load_int 1 cell;
          Some (GetBoolean (negb (row_bool_val =? 0)))
      | SMALLINT =>
          row_int_val ← load_int 2 cell; Some (GetSmallInt row_int_val)
      | INTEGER =>
          row_int_val ← load_int 4 cell; Some (GetInteger row_int_val)
      | BIGINT =>
          row_int_val ← load_int 8 cell; Some (GetBigInt row_int_val)
      | VARCHAR =>
          vc_entry ← load_varlen cell;
          (* add space for null terminator *)
          let size := CInt.to_u32 (Size vc_entry + 1) in
          content ← Content mem vc_entry;
          let ret_st := memcpy (Z.to_nat (size - 1)) content +:+ String NUL EmptyString in
          Some (GetVarChar ret_st)
      | _ => None     (* "unsupported type in ColToValueVec" *)
      end
  end.

(** [SqlTableRW::ColToValueVec] *)
Definition ColToValueVec (row_view : ProjectedRow) (mem : Memory)
    : option (list TransientValue) :=
  mapM (ColToValue row_view mem) (seq 0 (NumColumns row_view)).

(** The loop of [SqlTableRW::InsertRow] that fills the insert
    buffer: [SetColInRow] for every value of the row, in order. *)
Fixpoint SetColsInRow (proj_row : ProjectedRow) (mem : Memory) (i : nat)
    (row : list TransientValue) : option (ProjectedRow * Memory) :=
  match row with
  | [] => Some (proj_row, mem)
  | v :: rest =>
      '(r, m) ← SetColInRow proj_row mem i v;
      SetColsInRow r m (S i) rest
  end.

(** [SqlTableRW::DefineColumn]: the column definition is appended
    to the internal list. *)
Definition DefineColumn (name : string) (type : TypeId) (nullable : bool)
    (oid : nat) : SqlTableRW :=
  {| cols_ := cols_ rw ++ [ {| GetName := name; GetType := type;
                               GetNullable := nullable; GetOid := oid |} ];
     col_oids_ := col_oids_ rw;
     pr_map_ := pr_map_ rw |}.

(** [SqlTableRW::ColNumToOid] *)
Definition ColNumToOid (col_num : nat) : option nat := col_oids_ rw !! col_num.

(** The loop of [SqlTableRW::ColNameToIndex] from position [index]
    on; [index] is an [int32_t].  [None] stands for the exception
    thrown after the loop, and for the overflow of the counter. *)
Fixpoint ColNameToIndex_from (cols : list Column) (name : string) (index : Z)
    : option Z :=
  match cols with
  | [] => None      (* "ColNameToIndex: Column name doesn't exist" *)
  | c :: cols' =>
      if decide (GetName c = name) then Some index
      else if index + 1 <? 2 ^ 31
           then ColNameToIndex_from cols' name (index + 1)
           else None
  end.

(** [SqlTableRW::ColNameToIndex] *)
Definition ColNameToIndex (name : string) : option Z :=
  ColNameToIndex_from (cols_ rw) name 0.

(** [strncmp(s1, s2, n)] for a C string [s1] and a buffer [s2]:
    zero when the first [n] characters agree or the strings end
    together before that, otherwise the difference of the first two
    characters that differ.  Reading past the end of the buffer gives
    [None]. *)
Fixpoint strncmp (s1 s2 : string) (n : nat) : option Z :=
  match n with
  | O => Some 0
  | S n' =>
      let c1 := match s1 with String c _ => c | EmptyString => NUL end in
      match s2 with
      | EmptyString => None
      | String c2 s2' =>
          if decide (c1 = c2) then
            if decide (c1 = NUL) then Some 0
            else strncmp (match s1 with String _ r => r | EmptyString => EmptyString end)
                         s2' n'
          else Some (Z.of_N (N_of_ascii c1) - Z.of_N (N_of_ascii c2))
      end
  end.

(** [SqlTableRW::ColEqualsValue].  A failed assertion and a thrown
    exception give [None]. *)
Definition ColEqualsValue (index : nat) (row_view : ProjectedRow) (mem : Memory)
    (search_vec : list TransientValue) : option bool :=
  col ← cols_ rw !! index;
  let col_type := GetType col in
  v ← search_vec !! index;
  if decide (col_type <> Type_ v) then None   (* "schema <-> column type mismatch" *)
  else if Null v then None                    (* "search_vec[index] is null" *)
  else
    offset ← ColNumToOffset index;
    col_p ← AccessWithNullCheck offset row_view;
    match col_p with
    | None =>
        (* since search_vec[index] cannot be null *)
        Some false
    | Some cell =>
        match col_type with
        | BOOLEAN =>
            row_bool_val ← load_int 1 cell;
            b ← PeekBoolean v;
            Some (row_bool_val =? Z.b2z b)
        | INTEGER =>
            row_int_val ← load_int 4 cell;
            z ← PeekInteger v;
            Some (row_int_val =? z)
        | VARCHAR =>
            vc_entry ← load_varlen cell;
            st ← PeekVarChar v;
            let size := Size vc_entry in
            if decide (Z.of_nat (strlen st) <> size) then Some false
            else
              content ← Content mem vc_entry;
              r ← strncmp st content (Z.to_nat size);
              Some (r =? 0)
        | _ => None     (* "unsupported type in ColEqualsValue" *)
        end
    end.

(** The loop of [SqlTableRW::RowFound] from position [index] on,
    [rest] being the values of the search vector not yet checked. *)
Fixpoint RowFound_from (row_view : ProjectedRow) (mem : Memory)
    (search_vec : list TransientValue) (index : nat) (rest : list TransientValue)
    : option bool :=
  match rest with
  | [] => Some true
  | v :: rest' =>
      (* Ignore NULL values in search_vec *)
      if Null v then RowFound_from row_view mem search_vec (S index) rest'
      else
        match ColEqualsValue index row_view mem search_vec with
        | Some true => RowFound_from row_view mem search_vec (S index) rest'
        | Some false => Some false
        | None => None
        end
  end.

(** [SqlTableRW::RowFound] *)
Definition RowFound (row_view : ProjectedRow) (mem : Memory)
    (search_vec : list TransientValue) : option bool :=
  (* assert that row_view has enough columns *)
  if decide (NumColumns row_view < length search_vec)%nat then None
  (* assert that search vector is not empty *)
  else match search_vec with
       | [] => None
       | _ :: _ => RowFound_from row_view mem search_vec 0 search_vec
       end.

(** [SqlTableRW::InsertRow] up to its call of [table_->Insert]:
    the insert buffer that is handed to the table.  [pri_] is the row
    initializer, given by the attributes of a fresh row. *)
Definition InsertRow (pri_ : list Cell) (mem : Memory) (row : list TransientValue)
    : option (ProjectedRow * Memory) :=
  (* "InsertRow: inserted row size != number of columns" *)
  if decide (length pri_ <> length row) then None
  else
    (* get buffer for insertion and use as a row *)
    let proj_row := InitializeRow pri_ in
    SetColsInRow proj_row mem 0 row.

End ReadWrite.

End SqlTableRW.

(** * The storage contract exercised by test/storage/bwtree_index_test.cpp

    The test drives a transaction manager, a table and an ordered
    index; the three classes are declared outside the sources. *)
Module Index.
Local Open Scope nat_scope.

Abbreviation timestamp_t := nat.

(** A tuple slot, identified by its position in block-then-offset
    order. *)
Abbreviation TupleSlot := nat.

(** Modelled from the spec: the transaction context, "{start_ts,
    commit_ts, txn_id, ...}"; the commit timestamp is kept on the
    versions the transaction wrote. *)
Record TransactionContext := {
  txn_id : nat;
  start_ts : timestamp_t
}.

(** Modelled from the spec: a tuple version with its begin and end
    timestamps.  A version whose writer has not committed has no
    begin timestamp yet; a version that has not been replaced or
    deleted has no end timestamp. *)
Record Version := {
  writer : nat;
  begin_ts : option timestamp_t;
  end_ts : option timestamp_t;
  payload : Z
}.

(** [v.begin_ts <= T.start_ts < v.end_ts] *)
Definition in_snapshot (T : TransactionContext) (v : Version) : bool :=
  match begin_ts v with
  | Some b =>
      bool_decide (b <= start_ts T) &&
      match end_ts v with
      | Some e => bool_decide (start_ts T < e)
      | None => true
      end
  | None => false
  end.

(** Modelled from the spec: the visibility predicate, "a tuple
    version v is visible to txn T iff v.begin_ts <= T.start_ts <
    v.end_ts under snapshot isolation, with writes by T itself always
    visible". *)
Definition IsVisible (T : TransactionContext) (v : Version) : bool :=
  bool_decide (writer v = txn_id T) || in_snapshot T v.

(** Modelled from the spec: the transaction manager and the table.
    Every slot has a version chain, newest version first; the clock
    hands out start and commit timestamps. *)
Record Database := {
  time : timestamp_t;
  next_txn_id : nat;
  slots : list (list Version)
}.

Definition empty_database : Database :=
  {| time := 0; next_txn_id := 0; slots := [] |}.

(** [txn_manager.BeginTransaction()] *)
Definition BeginTransaction (db : Database) : TransactionContext * Database :=
  ({| txn_id := next_txn_id db; start_ts := time db |},
   {| time := S (time db); next_txn_id := S (next_txn_id db); slots := slots db |}).

(** [sql_table->Insert(txn, row)]: a new slot whose only version is
    the uncommitted write of [txn]. *)
Definition TableInsert (T : TransactionContext) (row : Z) (db : Database)
    : TupleSlot * Database :=
  (length (slots db),
   {| time := time db; next_txn_id := next_txn_id db;
      slots := slots db ++ [[ {| writer := txn_id T; begin_ts := None;
                                 end_ts := None; payload := row |} ]] |}).

Definition commit_version (T : TransactionContext) (commit_ts : timestamp_t)
    (v : Version) : Version :=
  if bool_decide (writer v = txn_id T) && bool_decide (begin_ts v = None)
  then {| writer := writer v; begin_ts := Some commit_ts;
          end_ts := end_ts v; payload := payload v |}
  else v.

(** [txn_manager.Commit(txn, ...)]: the writes of [txn] get the
    commit timestamp as their begin timestamp. *)
Definition Commit (T : TransactionContext) (db : Database) : Database :=
  let commit_ts := time db in
  {| time := S (time db); next_txn_id := next_txn_id db;
     slots := map (map (commit_version T commit_ts)) (slots db) |}.

(** [sql_table->Select(txn, slot)]: "walks from the physical image
    backward through undo records until a version visible to the
    scanning txn is reached, or the slot is deemed invisible". *)
Definition Select (db : Database) (T : TransactionContext) (slot : TupleSlot)
    : option Version :=
  chain ← slots db !! slot;
  snd <$> list_find (fun v => IsVisible T v = true) chain.

Definition slot_visible (db : Database) (T : TransactionContext)
    (slot : TupleSlot) : bool :=
  bool_decide (is_Some (Select db T slot)).

(** Modelled from the spec: the BwTree index, "an ordered map from a
    packed key projection to a tuple slot".  The entries are kept in
    key order. *)
Abbreviation Entry := (Z * TupleSlot)%type.

Record BwTreeIndex := { entries : list Entry }.

Definition empty_index : BwTreeIndex := {| entries := [] |}.

Fixpoint insert_entry (e : Entry) (es : list Entry) : list Entry :=
  match es with
  | [] => [e]
  | e' :: es' =>
      if (e.1 <? e'.1)%Z then e :: e' :: es' else e' :: insert_entry e es'
  end.

(** [index->Insert(key, slot)] of the default index. *)
Definition Insert (key : Z) (slot : TupleSlot) (idx : BwTreeIndex)
    : bool * BwTreeIndex :=
  (true, {| entries := insert_entry (key, slot) (entries idx) |}).

(** Populating an index: one [Insert] per key and slot, in order. *)
Definition populate (ins : list Entry) (idx : BwTreeIndex) : BwTreeIndex :=
  foldl (fun i e => (Insert e.1 e.2 i).2) idx ins.

(** The traversal shared by the scans: walk the entries in the
    given order, skip those before the near bound and the invisible
    ones, stop past the far bound or when the limit is reached. *)
Fixpoint scan_loop (visible : TupleSlot -> bool) (started past : Z -> bool)
    (limit : option nat) (es : list Entry) : list Entry :=
  match es with
  | [] => []
  | e :: es' =>
      match limit with
      | Some O => []
      | _ =>
          if past e.1 then []
          else if started e.1 && visible e.2
               then e :: scan_loop visible started past (pred <$> limit) es'
               else scan_loop visible started past limit es'
      end
  end.

Section Scans.
Variable db : Database.
Variable txn : TransactionContext.
Variable idx : BwTreeIndex.

Definition ascending (lo hi : Z) (limit : option nat) : list Entry :=
  scan_loop (slot_visible db txn) (fun k => (lo <=? k)%Z) (fun k => (hi <? k)%Z)
            limit (entries idx).

Definition descending (lo hi : Z) (limit : option nat) : list Entry :=
  scan_loop (slot_visible db txn) (fun k => (k <=? hi)%Z) (fun k => (k <? lo)%Z)
            limit (reverse (entries idx)).


(** [index->ScanAscending(txn, lo, hi, &results)] *)
Definition ScanAscending (lo hi : Z) : list TupleSlot :=
  (ascending lo hi None).*2.

(** [index->ScanDescending(txn, lo, hi, &results)] *)
Definition ScanDescending (lo hi : Z) : list TupleSlot :=
  (descending lo hi None).*2.

(** [index->ScanLimitAscending(txn, lo, hi, &results, n)] *)
Definition ScanLimitAscending (lo hi : Z) (n : nat) : list TupleSlot :=
  (ascending lo hi (Some n)).*2.

(** [index->ScanLimitDescending(txn, lo, hi, &results, n)] *)
Definition ScanLimitDescending (lo hi : Z) (n : nat) : list TupleSlot :=
  (descending lo hi (Some n)).*2.

End Scans.

(** The entries of [ins] whose key lies in [[lo, hi]]. *)
Definition in_range (lo hi : Z) (e : Entry) : bool :=
  ((lo <=? e.1) && (e.1 <=? hi))%Z.

End Index.

(** * Plans and instances the statements below are tried on *)
Module Examples.
Import PlanNode Ast Compiler.

Definition example_codegen : CodeGen :=
  {| GetMainFn := Ident "main";
     GetSetupFn := Ident "setup";
     GetTeardownFn := Ident "teardown";
     GetStateVar := Ident "state";
     GetStateType := Ident "State";
     MainParams := [MakeField (Ident "execCtx") (MakeExpr (Ident "ExecutionContext"))];
     ExecParams := [MakeField (Ident "state") (MakeExpr (Ident "State"));
                    MakeField (Ident "execCtx") (MakeExpr (Ident "ExecutionContext"))] |}.

(** Translators that register one state field and emit one statement
    each. *)
Definition example_translators : TranslatorCode :=
  {| emit_initialize := fun ts v =>
       {| decls := decls v;
          state_fields := state_fields v
            ++ imap (fun i _ => MakeField (Ident "field") (OpaqueExpr i)) ts;
          setup_stmts := setup_stmts v ++ imap (fun i _ => OpaqueStmt i) ts;
          teardown_stmts := imap (fun i _ => OpaqueStmt i) ts ++ teardown_stmts v |};
     emit_produce := fun ts => imap (fun i _ => OpaqueStmt i) ts |}.

(** Translators without any state. *)
Definition stateless_translators : TranslatorCode :=
  {| emit_initialize := fun _ v => v;
     emit_produce := fun ts => imap (fun i _ => OpaqueStmt i) ts |}.

Definition leaf (ty : PlanNodeType) : AbstractPlanNode := PlanNodeOf ty None [].

(** A sequential scan with an output schema. *)
Definition seq_scan_plan : AbstractPlanNode :=
  PlanNodeOf SEQSCAN (Some ["col1"; "col2"]) [].

(** A hash join of a scan with an aggregation over a scan. *)
Definition join_agg_plan : AbstractPlanNode :=
  PlanNodeOf HASHJOIN (Some ["col1"; "sum"])
    [leaf SEQSCAN; PlanNodeOf AGGREGATE None [leaf SEQSCAN]].

(** A sort over a nested-loop join of two scans. *)
Definition sort_nestloop_plan : AbstractPlanNode :=
  PlanNodeOf ORDERBY (Some ["col1"; "col2"])
    [PlanNodeOf NESTLOOP None [leaf SEQSCAN; leaf INDEXSCAN]].


(** A storage layer for trying the table iterator: a table is the
    list of its rows, a slot iterator a position in it, and a scan
    copies the next batch of rows into the buffer. *)
Definition list_storage : TableVectorIterator.Storage :=
  {| TableVectorIterator.SqlTable := list Z;
     TableVectorIterator.SlotIterator := nat;
     TableVectorIterator.ProjectedColumns := list Z;
     TableVectorIterator.TransactionContext := unit;
     TableVectorIterator.table_begin := fun _ => 0%nat;
     TableVectorIterator.table_end := fun t => length t;
     TableVectorIterator.Scan := fun t _ i _ =>
       (Nat.min (i + 2) (length t), take 2 (drop i t));
     TableVectorIterator.InitializeProjectedColumns := fun _ _ _ => [];
     TableVectorIterator.kDefaultVectorSize := 2%nat |}.

(** A catalog with one table of three rows, under oid 1. *)
Definition example_exec_ctx
    : TableVectorIterator.ExecutionContext (H := list_storage) :=
  @TableVectorIterator.Build_ExecutionContext list_storage
    (fun oid => if decide (oid = 1%nat) then Some [10; 20; 30] else None)
    tt.

Definition example_iterator
    : TableVectorIterator.TableVectorIterator (H := list_storage) :=
  TableVectorIterator.new_TableVectorIterator 1 example_exec_ctx [0%nat].


(** Varlen entries of at most twelve bytes are stored inline. *)
Definition inline12 : SqlTableRW.StorageConstants :=
  {| SqlTableRW.InlineThreshold := 12 |}.

(** A table with one [SMALLINT] column, and its insert buffer as
    [InitializeRow] leaves it. *)
Definition smallint_table : SqlTableRW.SqlTableRW :=
  {| SqlTableRW.cols_ :=
       [ {| SqlTableRW.GetName := "id"; SqlTableRW.GetType := SqlTableRW.SMALLINT;
            SqlTableRW.GetNullable := true; SqlTableRW.GetOid := 1%nat |} ];
     SqlTableRW.col_oids_ := [1%nat];
     SqlTableRW.pr_map_ := {[ 1%nat := 0%nat ]} |}.

Definition smallint_row : SqlTableRW.ProjectedRow :=
  SqlTableRW.InitializeRow [SqlTableRW.RawBytes [0; 0]].

(** A table with an integer and two varchar columns; the projection
    stores the varchars first. *)
Definition mixed_table : SqlTableRW.SqlTableRW :=
  {| SqlTableRW.cols_ :=
       [ {| SqlTableRW.GetName := "id"; SqlTableRW.GetType := SqlTableRW.INTEGER;
            SqlTableRW.GetNullable := false; SqlTableRW.GetOid := 1%nat |};
         {| SqlTableRW.GetName := "name"; SqlTableRW.GetType := SqlTableRW.VARCHAR;
            SqlTableRW.GetNullable := true; SqlTableRW.GetOid := 2%nat |};
         {| SqlTableRW.GetName := "note"; SqlTableRW.GetType := SqlTableRW.VARCHAR;
            SqlTableRW.GetNullable := true; SqlTableRW.GetOid := 3%nat |} ];
     SqlTableRW.col_oids_ := [1%nat; 2%nat; 3%nat];
     SqlTableRW.pr_map_ := {[ 1%nat := 2%nat; 2%nat := 0%nat; 3%nat := 1%nat ]} |}.

Definition mixed_row : SqlTableRW.ProjectedRow :=
  SqlTableRW.InitializeRow
    [SqlTableRW.VarlenCell (SqlTableRW.InlineEntry "" 0);
     SqlTableRW.VarlenCell (SqlTableRW.InlineEntry "" 0);
     SqlTableRW.RawBytes [0; 0; 0; 0]].


(** The index of the scan tests: one transaction inserts the even
    keys 0, 2, ..., 20 and commits; a second transaction scans. *)
Definition even_keys : list Z := [0; 2; 4; 6; 8; 10; 12; 14; 16; 18; 20].

Definition insert_txn : Index.TransactionContext * Index.Database :=
  Index.BeginTransaction Index.empty_database.

(** The inserted entries, with the database after the inserts. *)
Definition even_inserts : list Index.Entry * Index.Database :=
  foldl (fun '(ins, db) key =>
           let '(slot, db) := Index.TableInsert insert_txn.1 key db in
           (ins ++ [(key, slot)], db))
        ([], insert_txn.2) even_keys.

Definition even_index : Index.BwTreeIndex :=
  Index.populate even_inserts.1 Index.empty_index.

Definition scan_txn : Index.TransactionContext * Index.Database :=
  Index.BeginTransaction (Index.Commit insert_txn.1 even_inserts.2).










(** A row of [mixed_table] with a varchar longer than the inline
    threshold and a NULL, the insert buffer after the row has been
    written into it, and a search vector that leaves the first
    column open. *)
Definition mixed_values : list SqlTableRW.TransientValue :=
  [ SqlTableRW.IntegerValue 7;
    SqlTableRW.VarCharValue "a name of more than twelve bytes";
    SqlTableRW.NullValue SqlTableRW.VARCHAR ].

Definition mixed_written : SqlTableRW.ProjectedRow * list string :=
  default (mixed_row, [])
    (SqlTableRW.SetColsInRow (H := inline12) mixed_table mixed_row [] 0 mixed_values).

Definition mixed_search : list SqlTableRW.TransientValue :=
  [ SqlTableRW.NullValue SqlTableRW.INTEGER;
    SqlTableRW.VarCharValue "a name of more than twelve bytes" ].


(** The iterator after [Init], after one call of [Advance], and
    after the two calls that take it to the end of the table. *)
Definition initialized_iterator
    : TableVectorIterator.TableVectorIterator (H := list_storage) :=
  default example_iterator (snd <$> TableVectorIterator.Init example_iterator).

Definition advanced_iterator
    : TableVectorIterator.TableVectorIterator (H := list_storage) :=
  default initialized_iterator
    (snd <$> TableVectorIterator.Advance initialized_iterator).

Definition exhausted_iterator
    : TableVectorIterator.TableVectorIterator (H := list_storage) :=
  default advanced_iterator (snd <$> TableVectorIterator.Advance advanced_iterator).

End Examples.

(** * Properties of the bytecode enumeration *)
Module BytecodesSpec.
Import Bytecodes.

Lemma enumerate_lookup names i e :
  enumerate names !! i = Some e -> e.2 = Z.of_nat i /\ (i < length names)%nat.
Proof.
  unfold enumerate. rewrite list_lookup_imap.
  destruct (names !! i) as [inst|] eqn:Hi; simpl; [|discriminate].
  intros [= <-]. split; [reflexivity|]. by eapply lookup_lt_Some.
Qed.

Lemma enumerate_bound names e :
  e ∈ enumerate names -> 0 <= e.2 < Z.of_nat (length names).
Proof.
  intros [i Hi]%list_elem_of_lookup.
  apply enumerate_lookup in Hi as [-> Hlt]. lia.
Qed.

Lemma enumerate_last names inst :
  last names = Some inst ->
  last (enumerate names) = Some (inst, Z.of_nat (length names) - 1).
Proof.
  rewrite !last_lookup. unfold enumerate.
  rewrite length_imap, list_lookup_imap. intros Hl. rewrite Hl. simpl.
  destruct names as [|n names]; [discriminate|].
  simpl. do 2 f_equal. lia.
Qed.

(** Every entry of the list expands [COUNT_OP] to [+1]. *)
Lemma count_ops (l : list Z) a :
  Forall (fun x => x = 1) l -> foldl Z.add a l = a + Z.of_nat (length l).
Proof.
  intros Hl. revert a. induction Hl as [|x l -> _ IH]; intros a; simpl; [lia|].
  rewrite IH. lia.
Qed.

Lemma COUNT_OP_expansion {A} (F : Macro A) :
  BYTECODE_LIST COUNT_OP = (fun _ => 1) <$> BYTECODE_LIST F.
Proof. reflexivity. Qed.

Lemma BYTECODE_LIST_length : length (BYTECODE_LIST DECLARE_OP) = 399%nat.
Proof. vm_compute. reflexivity. Qed.

Lemma BYTECODE_LIST_last : last (BYTECODE_LIST DECLARE_OP) = Some "Upper".
Proof. vm_compute. reflexivity. Qed.

Lemma Last_value : Last = 398.
Proof.
  unfold Last.
  rewrite (COUNT_OP_expansion DECLARE_OP), count_ops.
  - rewrite length_fmap, BYTECODE_LIST_length. reflexivity.
  - apply Forall_fmap, Forall_true. done.
Qed.

Lemma kBytecodeCount_value : kBytecodeCount = 399.
Proof. unfold kBytecodeCount. rewrite Last_value. reflexivity. Qed.

(** C8, as stated, fails at the final opcode: [Upper] is declared
    with the value 398, which is the value of [Last], so it is not
    below [Last]. *)
Lemma last_opcode_not_below_Last :
  ("Upper", 398) ∈ opcodes /\ Last = 398 /\
  ~ (forall inst b, (inst, b) ∈ opcodes -> b < Last).
Proof.
  assert (Hin : ("Upper", 398) ∈ opcodes).
  { apply list_elem_of_lookup. exists 398%nat.
    rewrite <- (last_lookup opcodes) at 1.
    - unfold opcodes. rewrite (enumerate_last _ "Upper" BYTECODE_LIST_last).
      rewrite BYTECODE_LIST_length. reflexivity. }
  split; [exact Hin|]. split; [exact Last_value|].
  intros Hall. specialize (Hall _ _ Hin). rewrite Last_value in Hall. lia.
Qed.

(** C8 (amended): [Last] is the value of the final opcode of the
    list, not one past it; every declared opcode has a value between
    0 and [Last], both included, which is what [ToByte] and
    [FromByte] assert; and [kBytecodeCount], one more than [Last],
    is the number of entries of the opcode list. *)
Theorem Last_is_the_final_opcode :
  snd <$> last opcodes = Some Last /\
  Forall (fun e => 0 <= e.2 <= Last) opcodes /\
  Forall (fun e => valid_bytecode e.2 = true) opcodes /\
  kBytecodeCount = Last + 1 /\
  kBytecodeCount = Z.of_nat (length (BYTECODE_LIST DECLARE_OP)) /\
  kBytecodeCount = Z.of_nat (length opcodes).
Proof.
  assert (Hb : Forall (fun e => 0 <= e.2 <= Last) opcodes).
  { apply Forall_forall. intros e He.
    apply enumerate_bound in He. rewrite BYTECODE_LIST_length in He.
    rewrite Last_value. lia. }
  split; [|split; [exact Hb|split; [|split; [|split]]]].
  - unfold opcodes. rewrite (enumerate_last _ "Upper" BYTECODE_LIST_last).
    rewrite BYTECODE_LIST_length, Last_value. reflexivity.
  - eapply Forall_impl; [exact Hb|]. intros e [H0 H1]. unfold valid_bytecode.
    apply andb_true_intro. split; apply Z.leb_le; assumption.
  - rewrite kBytecodeCount_value, Last_value. reflexivity.
  - rewrite kBytecodeCount_value, BYTECODE_LIST_length. reflexivity.
  - unfold opcodes, enumerate.
    rewrite length_imap, kBytecodeCount_value, BYTECODE_LIST_length. reflexivity.
Qed.

End BytecodesSpec.

(** * Properties of the pipeline builder *)
Module CompilerSpec.
Import PlanNode Ast Compiler.
Local Open Scope nat_scope.

(** Induction over plan trees, with the hypothesis for every child. *)
Lemma plan_induction (P : AbstractPlanNode -> Prop) :
  (forall ty s cs, Forall P cs -> P (PlanNodeOf ty s cs)) -> forall op, P op.
Proof.
  intros Hnode. fix IH 1. intros [ty s cs]. apply Hnode.
  induction cs as [|c cs IHcs]; constructor; [apply IH | exact IHcs].
Qed.

Lemma add_all_nil p : add_all [] p = p.
Proof. destruct p. unfold add_all. simpl. by rewrite app_nil_r. Qed.

Lemma add_all_app a1 a2 p : add_all a2 (add_all a1 p) = add_all (a1 ++ a2) p.
Proof. unfold add_all. simpl. by rewrite app_assoc. Qed.

Lemma Pipeline_Add_add_all t p : Pipeline_Add t p = add_all [t] p.
Proof. reflexivity. Qed.

(** What a walk from compiler state [c] to [c'] with current pipeline
    [curr] did: it appended [added] to the current pipeline, left the
    other existing pipelines alone, and pushed pointers [ids] to new
    pipelines whose contents are [finished]. *)
Definition walk_post (curr : nat) (c c' : Compiler)
    (added : list OperatorTranslator) (finished : list (list OperatorTranslator))
    : Prop :=
  exists ids,
    pipelines_ c' = pipelines_ c ++ ids /\
    length (heap c') = length (heap c) + length finished /\
    (forall p, p <> curr -> p < length (heap c) -> heap c' !! p = heap c !! p) /\
    heap c' !! curr = add_all added <$> heap c !! curr /\
    Forall2 (fun id ts => length (heap c) <= id /\
                          heap c' !! id = Some {| translators := ts; pipeline_idx := None |})
            ids finished /\
    NoDup ids.

Lemma walk_post_refl curr c : walk_post curr c c [] [].
Proof.
  exists []. repeat split; simpl.
  - by rewrite app_nil_r.
  - lia.
  - destruct (heap c !! curr) as [p|]; simpl; [|done]. by rewrite add_all_nil.
  - constructor.
  - constructor.
Qed.

Lemma Forall2_impl_lookup {A B} (P Q : A -> B -> Prop) (l : list A) (k : list B) :
  Forall2 P l k -> (forall x y, P x y -> Q x y) -> Forall2 Q l k.
Proof. induction 1; constructor; auto. Qed.

Lemma walk_post_ids_lt c c' f ids :
  Forall2 (fun id ts => length (heap c) <= id /\
                        heap c' !! id = Some {| translators := ts; pipeline_idx := None |})
          ids f ->
  Forall (fun id => length (heap c) <= id < length (heap c')) ids.
Proof.
  induction 1 as [|id ts ids f [Hle Hl] _ IH]; constructor; [|done].
  split; [done|]. by eapply lookup_lt_Some.
Qed.

Lemma walk_post_trans curr c c1 c2 a1 f1 a2 f2 :
  curr < length (heap c) ->
  walk_post curr c c1 a1 f1 -> walk_post curr c1 c2 a2 f2 ->
  walk_post curr c c2 (a1 ++ a2) (f1 ++ f2).
Proof.
  intros Hcurr (ids1 & Hp1 & Hl1 & Hfr1 & Hc1 & Hf1 & Hn1)
               (ids2 & Hp2 & Hl2 & Hfr2 & Hc2 & Hf2 & Hn2).
  pose proof (walk_post_ids_lt _ _ _ _ Hf1) as Hb1.
  pose proof (walk_post_ids_lt _ _ _ _ Hf2) as Hb2.
  exists (ids1 ++ ids2). split; [|split; [|split; [|split; [|split]]]].
  - by rewrite Hp2, Hp1, app_assoc.
  - rewrite Hl2, Hl1, length_app. lia.
  - intros p Hne Hlt. rewrite Hfr2 by lia. by apply Hfr1.
  - rewrite Hc2, Hc1. destruct (heap c !! curr); simpl; [|done].
    by rewrite add_all_app.
  - apply Forall2_app.
    + eapply Forall2_impl_lookup; [exact Hf1|].
      simpl. intros id ts [Hge Hl]. split; [done|].
      apply lookup_lt_Some in Hl as Hlt.
      rewrite Hfr2; [done|lia|done].
    + eapply Forall2_impl_lookup; [exact Hf2|]. simpl. intros id ts [Hge Hl].
      split; [lia|done].
  - apply NoDup_app. split; [done|]. split; [|done].
    intros id Hi1 Hi2.
    rewrite Forall_forall in Hb1, Hb2.
    specialize (Hb1 _ Hi1). specialize (Hb2 _ Hi2). lia.
Qed.

Lemma walk_post_Add curr t c : walk_post curr c (Add curr t c) [t] [].
Proof.
  exists []. unfold Add. simpl. repeat split.
  - by rewrite app_nil_r.
  - rewrite length_alter. lia.
  - intros p Hne _. by rewrite list_lookup_alter_ne.
  - by rewrite list_lookup_alter_eq.
  - constructor.
  - constructor.
Qed.

(** The walk of a child into a pipeline of its own: the new pipeline
    is allocated, filled by the child's walk, closed by [t] and
    pushed. *)
Lemma walk_post_sub curr c c2 t a0 f0 :
  curr < length (heap c) ->
  walk_post (alloc_pipeline c).1 (alloc_pipeline c).2 c2 a0 f0 ->
  walk_post curr c
    (push_back (alloc_pipeline c).1 (Add (alloc_pipeline c).1 t c2))
    [] (f0 ++ [a0 ++ [t]]).
Proof.
  intros Hcurr (ids0 & Hp & Hl & Hfr & Hc & Hf & Hn).
  pose proof (walk_post_ids_lt _ _ _ _ Hf) as Hb.
  unfold alloc_pipeline in *. simpl in *.
  rewrite length_app in *. simpl in *.
  set (next := length (heap c)) in *.
  exists (ids0 ++ [next]). unfold push_back, Add. simpl.
  split; [|split; [|split; [|split; [|split]]]].
  - by rewrite Hp, app_assoc.
  - rewrite length_alter, Hl, length_app. simpl. lia.
  - intros p Hne Hlt. rewrite list_lookup_alter_ne by lia.
    rewrite Hfr by lia. by rewrite lookup_app_l.
  - rewrite list_lookup_alter_ne by lia.
    rewrite Hfr by lia. rewrite lookup_app_l by done.
    destruct (heap c !! curr); simpl; [|done]. by rewrite add_all_nil.
  - apply Forall2_app.
    + eapply Forall2_impl_lookup; [exact Hf|]. simpl. intros id ts [Hge Hlk].
      split; [lia|]. by rewrite list_lookup_alter_ne by lia.
    + constructor; [|constructor]. split; [done|].
      rewrite list_lookup_alter_eq, Hc.
      rewrite lookup_app_r by done. subst next. by rewrite Nat.sub_diag.
  - apply NoDup_app. split; [done|]. split; [|apply NoDup_singleton].
    intros id Hi ->%list_elem_of_singleton.
    rewrite Forall_forall in Hb. specialize (Hb _ Hi). lia.
Qed.

Lemma walk_post_eq curr c c' a f a' f' :
  walk_post curr c c' a f -> a = a' -> f = f' -> walk_post curr c c' a' f'.
Proof. by intros ? <- <-. Qed.

Lemma walk_post_lt curr c c' a f :
  walk_post curr c c' a f -> length (heap c) <= length (heap c').
Proof. intros (ids & _ & Hl & _). lia. Qed.

(** The walk computes its closed form: it fails exactly when the
    closed form does, and otherwise ends in a state related to the
    start by [walk_post]. *)
Lemma MakePipelines_split op :
  forall path curr c, curr < length (heap c) ->
    match split_pipelines op path with
    | Some (added, finished) =>
        exists c', MakePipelines op path curr c = Some c' /\
                   walk_post curr c c' added finished
    | None => MakePipelines op path curr c = None
    end.
Proof.
  induction op as [ty s cs IH] using plan_induction.
  intros path curr c Hcurr.
  set (this := {| addr := path; node_type := ty |}).
  assert (Hdefault :
    match (match cs with
           | child0 :: _ =>
               match split_pipelines child0 (path ++ [0]) with
               | Some (a0, f0) => Some (a0 ++ [RegularTranslator this], f0)
               | None => None
               end
           | [] => Some ([RegularTranslator this], [])
           end) with
    | Some (added, finished) =>
        exists c', match cs with
                   | child0 :: _ =>
                       match MakePipelines child0 (path ++ [0]) curr c with
                       | Some c => Some (Add curr (RegularTranslator this) c)
                       | None => None
                       end
                   | [] => Some (Add curr (RegularTranslator this) c)
                   end = Some c' /\ walk_post curr c c' added finished
    | None => match cs with
              | child0 :: _ =>
                  match MakePipelines child0 (path ++ [0]) curr c with
                  | Some c => Some (Add curr (RegularTranslator this) c)
                  | None => None
                  end
              | [] => Some (Add curr (RegularTranslator this) c)
              end = None
    end).
  { destruct cs as [|child0 cs'].
    - eexists. split; [reflexivity|]. apply walk_post_Add.
    - apply Forall_cons_1 in IH as [IH0 _].
      specialize (IH0 (path ++ [0]) curr c Hcurr).
      destruct (split_pipelines child0 (path ++ [0])) as [[a0 f0]|].
      + destruct IH0 as (c1 & -> & Hw). eexists. split; [reflexivity|].
        rewrite <- (app_nil_r f0).
        eapply walk_post_trans; [done|exact Hw|apply walk_post_Add].
      + by rewrite IH0. }
  assert (Hbuild : forall t_top t_bottom,
    match (match cs with
           | child0 :: _ =>
               match split_pipelines child0 (path ++ [0]) with
               | Some (a0, f0) => Some ([t_top], f0 ++ [a0 ++ [t_bottom]])
               | None => None
               end
           | [] => None
           end) with
    | Some (added, finished) =>
        exists c', match cs with
                   | child0 :: _ =>
                       match MakePipelines child0 (path ++ [0])
                               (alloc_pipeline (Add curr t_top c)).1
                               (alloc_pipeline (Add curr t_top c)).2 with
                       | Some c0 =>
                           Some (push_back (alloc_pipeline (Add curr t_top c)).1
                                   (Add (alloc_pipeline (Add curr t_top c)).1 t_bottom c0))
                       | None => None
                       end
                   | [] => None
                   end = Some c' /\ walk_post curr c c' added finished
    | None => match cs with
              | child0 :: _ =>
                  match MakePipelines child0 (path ++ [0])
                          (alloc_pipeline (Add curr t_top c)).1
                          (alloc_pipeline (Add curr t_top c)).2 with
                  | Some c0 =>
                      Some (push_back (alloc_pipeline (Add curr t_top c)).1
                              (Add (alloc_pipeline (Add curr t_top c)).1 t_bottom c0))
                  | None => None
                  end
              | [] => None
              end = None
    end).
  { intros t_top t_bottom. destruct cs as [|child0 cs']; [done|].
    apply Forall_cons_1 in IH as [IH0 _].
    pose proof (walk_post_Add curr t_top c) as Hadd.
    assert (Hcurr1 : curr < length (heap (Add curr t_top c))).
    { apply walk_post_lt in Hadd. lia. }
    specialize (IH0 (path ++ [0]) (alloc_pipeline (Add curr t_top c)).1
                    (alloc_pipeline (Add curr t_top c)).2).
    destruct (split_pipelines child0 (path ++ [0])) as [[a0 f0]|].
    - destruct IH0 as (c0 & -> & Hw).
      { simpl. rewrite length_app. simpl. lia. }
      eexists. split; [reflexivity|].
      change [t_top] with ([t_top] ++ []).
      change (f0 ++ [a0 ++ [t_bottom]]) with ([] ++ (f0 ++ [a0 ++ [t_bottom]])).
      eapply walk_post_trans; [done|exact Hadd|].
      by apply walk_post_sub.
    - rewrite IH0; [done|]. simpl. rewrite length_app. simpl. lia. }
  subst this.
  destruct ty; try exact Hdefault; try apply Hbuild; clear Hdefault Hbuild.
  - (* NESTLOOP *)
    simpl. set (this := {| addr := path; node_type := NESTLOOP |}).
    destruct cs as [|child0 [|child1 cs']]; [done| |].
    + apply Forall_cons_1 in IH as [IH0 _].
      specialize (IH0 (path ++ [0]) curr c Hcurr).
      destruct (split_pipelines child0 (path ++ [0])) as [[a0 f0]|].
      * by destruct IH0 as (c1 & -> & Hw).
      * by rewrite IH0.
    + apply Forall_cons_1 in IH as [IH0 [IH1 _]%Forall_cons_1].
      specialize (IH0 (path ++ [0]) curr c Hcurr).
      destruct (split_pipelines child0 (path ++ [0])) as [[a0 f0]|];
        [|by rewrite IH0].
      destruct IH0 as (c1 & -> & Hw0).
      pose proof (walk_post_Add curr (LeftTranslator this) c1) as Hl.
      assert (Hw1 : walk_post curr c (Add curr (LeftTranslator this) c1)
                      (a0 ++ [LeftTranslator this]) f0).
      { rewrite <- (app_nil_r f0). by eapply walk_post_trans. }
      assert (Hcurr1 : curr < length (heap (Add curr (LeftTranslator this) c1))).
      { apply walk_post_lt in Hw1. lia. }
      specialize (IH1 (path ++ [1]) curr _ Hcurr1).
      destruct (split_pipelines child1 (path ++ [1])) as [[a1 f1]|];
        [|by rewrite IH1].
      destruct IH1 as (c2 & -> & Hw2).
      eexists. split; [reflexivity|].
      assert (Hw3 : walk_post curr c c2 ((a0 ++ [LeftTranslator this]) ++ a1) (f0 ++ f1)).
      { by eapply walk_post_trans. }
      eapply walk_post_eq.
      { eapply (walk_post_trans curr c c2 _ _ (f0 ++ f1)
                 [RightTranslator this (LeftTranslator this)] []);
          [done|exact Hw3|apply walk_post_Add]. }
      { by rewrite <- !app_assoc. }
      { by rewrite app_nil_r. }
  - (* HASHJOIN *)
    simpl. set (this := {| addr := path; node_type := HASHJOIN |}).
    destruct cs as [|child0 [|child1 cs']]; [done| |].
    + apply Forall_cons_1 in IH as [IH0 _].
      specialize (IH0 (path ++ [0]) (length (heap c))
                      {| heap := heap c ++ [new_Pipeline]; pipelines_ := pipelines_ c |}).
      destruct (MakePipelines child0 (path ++ [0]) (length (heap c)) _); done.
    + apply Forall_cons_1 in IH as [IH0 [IH1 _]%Forall_cons_1].
      specialize (IH0 (path ++ [0]) (alloc_pipeline c).1 (alloc_pipeline c).2).
      simpl in IH0. rewrite length_app in IH0. simpl in IH0.
      destruct (split_pipelines child0 (path ++ [0])) as [[a0 f0]|];
        [|rewrite IH0 by lia; by destruct (split_pipelines child1 (path ++ [1])) as [[??]|]].
      destruct IH0 as (c1 & -> & Hw0); [lia|].
      pose proof (walk_post_sub curr c c1 (LeftTranslator this) a0 f0 Hcurr Hw0) as Hw1.
      simpl in Hw1.
      match type of Hw1 with walk_post _ _ ?c3 _ _ =>
        assert (Hcurr1 : curr < length (heap c3))
          by (apply walk_post_lt in Hw1; lia);
        specialize (IH1 (path ++ [1]) curr c3 Hcurr1)
      end.
      destruct (split_pipelines child1 (path ++ [1])) as [[a1 f1]|];
        [|by rewrite IH1].
      destruct IH1 as (c2 & -> & Hw2).
      eexists. split; [reflexivity|].
      assert (Hw3 : walk_post curr c c2 ([] ++ a1) ((f0 ++ [a0 ++ [LeftTranslator this]]) ++ f1)).
      { by eapply walk_post_trans. }
      simpl in Hw3.
      eapply walk_post_eq.
      { eapply (walk_post_trans curr c c2 _ a1 _
                 [RightTranslator this (LeftTranslator this)] []);
          [done|exact Hw3|apply walk_post_Add]. }
      { done. }
      { by rewrite app_nil_r, <- !app_assoc. }
Qed.

(** The pipelines of the compiler made for a plan, read through the
    pointers of [pipelines_], are those of the closed form. *)
Lemma new_Compiler_pipelines plan :
  match pipelines_of plan with
  | Some P =>
      exists c, new_Compiler plan = Some c /\ NoDup (pipelines_ c) /\
        Forall2 (fun p ts => heap c !! p = Some {| translators := ts; pipeline_idx := None |})
                (pipelines_ c) P
  | None => new_Compiler plan = None
  end.
Proof.
  unfold pipelines_of, new_Compiler. simpl.
  pose proof (MakePipelines_split plan [] 0
                {| heap := [new_Pipeline]; pipelines_ := [] |}) as Hw.
  simpl in Hw. specialize (Hw ltac:(lia)).
  destruct (split_pipelines plan []) as [[a f]|]; [|by rewrite Hw].
  destruct Hw as (c1 & -> & ids & Hp & Hl & Hfr & Hc & Hf & Hn).
  pose proof (walk_post_ids_lt {| heap := [new_Pipeline]; pipelines_ := [] |}
                _ _ _ Hf) as Hb.
  simpl in *. subst.
  eexists. split; [reflexivity|]. simpl.
  destruct (GetOutputSchema plan) as [schema|]; simpl.
  - split.
    + apply NoDup_app. split; [done|]. split; [|apply NoDup_singleton].
      intros id Hi ->%list_elem_of_singleton.
      rewrite Forall_forall in Hb. specialize (Hb _ Hi). lia.
    + apply Forall2_app.
      * eapply Forall2_impl_lookup; [exact Hf|]. simpl. intros id ts [Hge Hlk].
        rewrite list_lookup_alter_ne by lia. done.
      * constructor; [|constructor].
        by rewrite list_lookup_alter_eq, Hc.
  - split.
    + apply NoDup_app. split; [done|]. split; [|apply NoDup_singleton].
      intros id Hi ->%list_elem_of_singleton.
      rewrite Forall_forall in Hb. specialize (Hb _ Hi). lia.
    + apply Forall2_app.
      * eapply Forall2_impl_lookup; [exact Hf|]. simpl. by intros id ts [Hge Hlk].
      * constructor; [|constructor]. rewrite Hc. simpl. by rewrite app_nil_r.
Qed.

(** The shape of the closed form at each kind of node. *)
Lemma split_pipelines_shape ty s cs path a f :
  split_pipelines (PlanNodeOf ty s cs) path = Some (a, f) ->
  let this := {| addr := path; node_type := ty |} in
  match ty with
  | AGGREGATE | ORDERBY =>
      exists child0 cs' a0 f0, cs = child0 :: cs' /\
        split_pipelines child0 (path ++ [0]) = Some (a0, f0) /\
        a = [TopTranslator this (BottomTranslator this)] /\
        f = f0 ++ [a0 ++ [BottomTranslator this]]
  | HASHJOIN =>
      exists child0 child1 cs' a0 f0 a1 f1, cs = child0 :: child1 :: cs' /\
        split_pipelines child0 (path ++ [0]) = Some (a0, f0) /\
        split_pipelines child1 (path ++ [1]) = Some (a1, f1) /\
        a = a1 ++ [RightTranslator this (LeftTranslator this)] /\
        f = f0 ++ [a0 ++ [LeftTranslator this]] ++ f1
  | NESTLOOP =>
      exists child0 child1 cs' a0 f0 a1 f1, cs = child0 :: child1 :: cs' /\
        split_pipelines child0 (path ++ [0]) = Some (a0, f0) /\
        split_pipelines child1 (path ++ [1]) = Some (a1, f1) /\
        a = a0 ++ [LeftTranslator this] ++ a1
               ++ [RightTranslator this (LeftTranslator this)] /\
        f = f0 ++ f1
  | _ =>
      (cs = [] /\ a = [RegularTranslator this] /\ f = []) \/
      (exists child0 cs' a0, cs = child0 :: cs' /\
         split_pipelines child0 (path ++ [0]) = Some (a0, f) /\
         a = a0 ++ [RegularTranslator this])
  end.
Proof.
  intros Hs this. subst this.
  destruct ty; simpl in Hs;
    repeat case_match; simplify_eq; eauto 15.
Qed.

(** The translator at the end of what the walk adds to the current
    pipeline is the one made for the node the walk started from. *)
Lemma split_pipelines_root op path a f :
  split_pipelines op path = Some (a, f) ->
  exists ts t, a = ts ++ [t] /\ translated_op t = Some (ref_of path op).
Proof.
  destruct op as [ty s cs]. intros Hs. apply split_pipelines_shape in Hs.
  simpl in Hs. unfold ref_of. simpl.
  destruct ty;
    try (destruct Hs as [(_ & -> & _)|(child0 & cs' & a0 & _ & _ & ->)];
         [by eexists [], _|by eexists a0, _]).
  - destruct Hs as (c0 & c1 & cs' & a0 & f0 & a1 & f1 & _ & _ & _ & -> & _).
    eexists (a0 ++ [_] ++ a1), _. split; [by rewrite <- !app_assoc|done].
  - destruct Hs as (c0 & c1 & cs' & a0 & f0 & a1 & f1 & _ & _ & _ & -> & _).
    by eexists a1, _.
  - destruct Hs as (c0 & cs' & a0 & f0 & _ & _ & -> & _).
    by eexists [], _.
  - destruct Hs as (c0 & cs' & a0 & f0 & _ & _ & -> & _).
    by eexists [], _.
Qed.

(** ** Every translator sits in one pipeline only *)

(** [t] translates the node at [path]. *)
Definition own (path : list nat) (t : OperatorTranslator) : Prop :=
  exists r, translated_op t = Some r /\ addr r = path.

(** [t] translates a node at or below [path]. *)
Definition under (path : list nat) (t : OperatorTranslator) : Prop :=
  exists r, translated_op t = Some r /\ path `prefix_of` addr r.

Lemma own_under path t : own path t -> under path t.
Proof. intros (r & Hr & <-). by exists r. Qed.

Lemma under_child path k t : under (path ++ [k]) t -> under path t.
Proof. intros (r & Hr & Hp). exists r. split; [done|]. by eapply prefix_app_l. Qed.

Lemma own_not_under_child path k t : own path t -> under (path ++ [k]) t -> False.
Proof.
  intros (r & Hr & <-) (r' & Hr' & Hp). simplify_eq.
  by apply prefix_snoc_not in Hp.
Qed.

Lemma under_siblings path t :
  under (path ++ [0]) t -> under (path ++ [1]) t -> False.
Proof.
  intros (r & Hr & [k0 Hp0]) (r' & Hr' & [k1 Hp1]). simplify_eq.
  rewrite Hp0, <- !app_assoc in Hp1. by apply app_inv_head in Hp1.
Qed.

Lemma NoDup_pair {A} (x y : A) : x <> y -> NoDup [x; y].
Proof.
  intros Hne. apply NoDup_cons. split; [|apply NoDup_singleton].
  by intros ->%list_elem_of_singleton.
Qed.

Lemma fresh_combine path owns L0 L1 X :
  Forall (under (path ++ [0])) L0 -> NoDup L0 ->
  Forall (under (path ++ [1])) L1 -> NoDup L1 ->
  Forall (own path) owns -> NoDup owns ->
  X ≡ₚ owns ++ L0 ++ L1 ->
  Forall (under path) X /\ NoDup X.
Proof.
  intros Hu0 Hn0 Hu1 Hn1 Ho Hno HX. rewrite HX.
  rewrite Forall_forall in Hu0, Hu1, Ho. split.
  - rewrite !Forall_app, !Forall_forall.
    split; [|split]; intros t Ht.
    + by apply own_under, Ho.
    + by eapply under_child, Hu0.
    + by eapply under_child, Hu1.
  - apply NoDup_app. split; [done|]. split.
    + intros t Ht [Ht'|Ht']%elem_of_app.
      * eapply own_not_under_child; [by apply Ho|by apply Hu0].
      * eapply own_not_under_child; [by apply Ho|by apply Hu1].
    + apply NoDup_app. split; [done|]. split; [|done].
      intros t Ht Ht'. eapply under_siblings; [by apply Hu0|by apply Hu1].
Qed.

Lemma split_pipelines_fresh op :
  forall path a f, split_pipelines op path = Some (a, f) ->
    Forall (under path) (a ++ concat f) /\ NoDup (a ++ concat f).
Proof.
  induction op as [ty s cs IH] using plan_induction.
  intros path a f Hs. apply split_pipelines_shape in Hs. simpl in Hs.
  set (this := {| addr := path; node_type := ty |}) in *.
  assert (Hown : forall t, translated_op t = Some this -> own path t).
  { intros t Ht. by exists this. }
  assert (Hdefault :
    (cs = [] /\ a = [RegularTranslator this] /\ f = []) \/
    (exists child0 cs' a0, cs = child0 :: cs' /\
       split_pipelines child0 (path ++ [0]) = Some (a0, f) /\
       a = a0 ++ [RegularTranslator this]) ->
    Forall (under path) (a ++ concat f) /\ NoDup (a ++ concat f)).
  { intros [(-> & -> & ->)|(child0 & cs' & a0 & -> & Hs0 & ->)].
    - apply (fresh_combine path [RegularTranslator this] [] []);
        [constructor|constructor|constructor|constructor
        |repeat constructor; auto|apply NoDup_singleton|done].
    - apply Forall_cons_1 in IH as [IH0 _].
      destruct (IH0 _ _ _ Hs0) as [Hu0 Hn0].
      apply (fresh_combine path [RegularTranslator this] (a0 ++ concat f) []);
        [done|done|constructor|constructor
        |repeat constructor; auto|apply NoDup_singleton|solve_Permutation]. }
  assert (Hbuild :
    (exists child0 cs' a0 f0, cs = child0 :: cs' /\
       split_pipelines child0 (path ++ [0]) = Some (a0, f0) /\
       a = [TopTranslator this (BottomTranslator this)] /\
       f = f0 ++ [a0 ++ [BottomTranslator this]]) ->
    Forall (under path) (a ++ concat f) /\ NoDup (a ++ concat f)).
  { intros (child0 & cs' & a0 & f0 & -> & Hs0 & -> & ->).
    apply Forall_cons_1 in IH as [IH0 _].
    destruct (IH0 _ _ _ Hs0) as [Hu0 Hn0].
    apply (fresh_combine path
             [TopTranslator this (BottomTranslator this); BottomTranslator this]
             (a0 ++ concat f0) []); [done|done|constructor|constructor| | |].
    - repeat constructor; auto.
    - by apply NoDup_pair.
    - rewrite concat_app. simpl. rewrite !app_nil_r. solve_Permutation. }
  destruct ty; try (by apply Hdefault); try (by apply Hbuild);
    clear Hdefault Hbuild.
  - (* NESTLOOP *)
    destruct Hs as (child0 & child1 & cs' & a0 & f0 & a1 & f1 & -> & Hs0 & Hs1 & -> & ->).
    apply Forall_cons_1 in IH as [IH0 [IH1 _]%Forall_cons_1].
    destruct (IH0 _ _ _ Hs0) as [Hu0 Hn0].
    destruct (IH1 _ _ _ Hs1) as [Hu1 Hn1].
    apply (fresh_combine path
             [LeftTranslator this; RightTranslator this (LeftTranslator this)]
             (a0 ++ concat f0) (a1 ++ concat f1)); try done.
    + repeat constructor; auto.
    + by apply NoDup_pair.
    + rewrite concat_app. solve_Permutation.
  - (* HASHJOIN *)
    destruct Hs as (child0 & child1 & cs' & a0 & f0 & a1 & f1 & -> & Hs0 & Hs1 & -> & ->).
    apply Forall_cons_1 in IH as [IH0 [IH1 _]%Forall_cons_1].
    destruct (IH0 _ _ _ Hs0) as [Hu0 Hn0].
    destruct (IH1 _ _ _ Hs1) as [Hu1 Hn1].
    apply (fresh_combine path
             [LeftTranslator this; RightTranslator this (LeftTranslator this)]
             (a0 ++ concat f0) (a1 ++ concat f1)); try done.
    + repeat constructor; auto.
    + by apply NoDup_pair.
    + rewrite !concat_app. simpl. rewrite ?app_nil_r. solve_Permutation.
Qed.

(** ** Builders come before their readers *)

(** In the result of a walk every reader has its builder in a
    pipeline finished earlier: for a reader in the current pipeline
    any finished pipeline is earlier. *)
Definition deps_ok (a : list OperatorTranslator)
    (f : list (list OperatorTranslator)) : Prop :=
  forall v u, reads_state_of v u ->
    (v ∈ a -> exists i ts, f !! i = Some ts /\ u ∈ ts) /\
    (forall j ts, f !! j = Some ts -> v ∈ ts ->
       exists i ts', i < j /\ f !! i = Some ts' /\ u ∈ ts').

Definition reads_nothing (t : OperatorTranslator) : Prop :=
  forall u, ~ reads_state_of t u.

Lemma deps_ok_eq a f a' f' : deps_ok a f -> a = a' -> f = f' -> deps_ok a' f'.
Proof. by intros ? <- <-. Qed.

Lemma deps_ok_nil : deps_ok [] [].
Proof.
  intros v u _. split.
  - by intros ?%elem_of_nil.
  - intros j ts Hj. by rewrite lookup_nil in Hj.
Qed.

Lemma deps_ok_snoc a f t :
  deps_ok a f -> reads_nothing t -> deps_ok (a ++ [t]) f.
Proof.
  intros Hd Ht v u Hr. destruct (Hd v u Hr) as [H1 H2]. split; [|done].
  intros [Hv| ->%list_elem_of_singleton]%elem_of_app; [by apply H1|].
  by destruct (Ht u).
Qed.

Lemma deps_ok_reader a f t u i ts :
  deps_ok a f -> (forall u', reads_state_of t u' -> u' = u) ->
  f !! i = Some ts -> u ∈ ts -> deps_ok (a ++ [t]) f.
Proof.
  intros Hd Ht Hi Hu v u' Hr. destruct (Hd v u' Hr) as [H1 H2]. split; [|done].
  intros [Hv| ->%list_elem_of_singleton]%elem_of_app; [by apply H1|].
  apply Ht in Hr as ->. eauto.
Qed.

Lemma deps_ok_close a0 f0 tl :
  deps_ok a0 f0 -> Forall reads_nothing tl -> deps_ok [] (f0 ++ [a0 ++ tl]).
Proof.
  intros Hd Ht v u Hr. destruct (Hd v u Hr) as [H1 H2]. split.
  { by intros ?%elem_of_nil. }
  intros j ts [Hj|[Hge Hj]]%lookup_app_Some Hv.
  - destruct (H2 _ _ Hj Hv) as (i & ts' & Hlt & Hi & Hu).
    exists i, ts'. split; [done|]. split; [|done]. by apply lookup_app_l_Some.
  - apply list_lookup_singleton_Some in Hj as [Hj <-].
    assert (j = length f0) as -> by lia.
    apply elem_of_app in Hv as [Hv|Hv].
    + destruct (H1 Hv) as (i & ts' & Hi & Hu).
      exists i, ts'. split; [by eapply lookup_lt_Some|].
      split; [|done]. by apply lookup_app_l_Some.
    + rewrite Forall_forall in Ht. by destruct (Ht _ Hv u).
Qed.

Lemma deps_ok_app a0 f0 a1 f1 :
  deps_ok a0 f0 -> deps_ok a1 f1 -> deps_ok (a0 ++ a1) (f0 ++ f1).
Proof.
  intros Hd0 Hd1 v u Hr.
  destruct (Hd0 v u Hr) as [H01 H02]. destruct (Hd1 v u Hr) as [H11 H12].
  split.
  - intros [Hv|Hv]%elem_of_app.
    + destruct (H01 Hv) as (i & ts & Hi & Hu).
      exists i, ts. split; [|done]. by apply lookup_app_l_Some.
    + destruct (H11 Hv) as (i & ts & Hi & Hu).
      exists (length f0 + i), ts. split; [|done].
      rewrite lookup_app_r by lia. by replace (length f0 + i - length f0) with i by lia.
  - intros j ts [Hj|[Hge Hj]]%lookup_app_Some Hv.
    + destruct (H02 _ _ Hj Hv) as (i & ts' & Hlt & Hi & Hu).
      exists i, ts'. split; [done|]. split; [|done]. by apply lookup_app_l_Some.
    + destruct (H12 _ _ Hj Hv) as (i & ts' & Hlt & Hi & Hu).
      exists (length f0 + i), ts'. split; [lia|]. split; [|done].
      rewrite lookup_app_r by lia. by replace (length f0 + i - length f0) with i by lia.
Qed.

Lemma split_pipelines_deps op :
  forall path a f, split_pipelines op path = Some (a, f) -> deps_ok a f.
Proof.
  induction op as [ty s cs IH] using plan_induction.
  intros path a f Hs. apply split_pipelines_shape in Hs. simpl in Hs.
  set (this := {| addr := path; node_type := ty |}) in *.
  assert (Hdefault :
    (cs = [] /\ a = [RegularTranslator this] /\ f = []) \/
    (exists child0 cs' a0, cs = child0 :: cs' /\
       split_pipelines child0 (path ++ [0]) = Some (a0, f) /\
       a = a0 ++ [RegularTranslator this]) -> deps_ok a f).
  { intros [(-> & -> & ->)|(child0 & cs' & a0 & -> & Hs0 & ->)].
    - apply (deps_ok_snoc [] []); [apply deps_ok_nil|]. intros u [].
    - apply Forall_cons_1 in IH as [IH0 _].
      apply deps_ok_snoc; [by eapply IH0|]. intros u []. }
  assert (Hbuild :
    (exists child0 cs' a0 f0, cs = child0 :: cs' /\
       split_pipelines child0 (path ++ [0]) = Some (a0, f0) /\
       a = [TopTranslator this (BottomTranslator this)] /\
       f = f0 ++ [a0 ++ [BottomTranslator this]]) -> deps_ok a f).
  { intros (child0 & cs' & a0 & f0 & -> & Hs0 & -> & ->).
    apply Forall_cons_1 in IH as [IH0 _].
    eapply (deps_ok_reader [] _ _ (BottomTranslator this) (length f0)).
    - apply deps_ok_close; [by eapply IH0|]. constructor; [intros u []|constructor].
    - by intros u' <-.
    - by apply list_lookup_middle.
    - apply elem_of_app. right. by apply list_elem_of_singleton. }
  destruct ty; try (by apply Hdefault); try (by apply Hbuild);
    clear Hdefault Hbuild.
  - (* NESTLOOP *)
    destruct Hs as (child0 & child1 & cs' & a0 & f0 & a1 & f1 & -> & Hs0 & Hs1 & -> & ->).
    apply Forall_cons_1 in IH as [IH0 [IH1 _]%Forall_cons_1].
    replace (a0 ++ LeftTranslator this :: a1 ++ [RightTranslator this (LeftTranslator this)])
      with (((a0 ++ [LeftTranslator this]) ++ a1) ++ [RightTranslator this (LeftTranslator this)])
      by (by rewrite <- !app_assoc).
    apply deps_ok_snoc.
    + apply deps_ok_app; [|by eapply IH1].
      apply deps_ok_snoc; [by eapply IH0|]. intros u [].
    + intros u [Hty _]. done.
  - (* HASHJOIN *)
    destruct Hs as (child0 & child1 & cs' & a0 & f0 & a1 & f1 & -> & Hs0 & Hs1 & -> & ->).
    apply Forall_cons_1 in IH as [IH0 [IH1 _]%Forall_cons_1].
    eapply (deps_ok_reader _ _ _ (LeftTranslator this) (length f0)).
    + eapply deps_ok_eq.
      * apply (deps_ok_app [] (f0 ++ [a0 ++ [LeftTranslator this]]) a1 f1);
          [|by eapply IH1].
        apply deps_ok_close; [by eapply IH0|]. constructor; [intros u []|constructor].
      * done.
      * by rewrite <- app_assoc.
    + by intros u' [_ <-].
    + by apply list_lookup_middle.
    + apply elem_of_app. right. by apply list_elem_of_singleton.
Qed.

(** The walk finishes one pipeline per breaker it visits. *)
Lemma split_pipelines_breakers op :
  forall path a f, split_pipelines op path = Some (a, f) -> length f = breakers op.
Proof.
  induction op as [ty s cs IH] using plan_induction.
  intros path a f Hs. apply split_pipelines_shape in Hs. simpl in Hs.
  assert (Hdefault : is_breaker ty = false ->
    (cs = [] /\ f = []) \/
    (exists child0 cs' a0, cs = child0 :: cs' /\
       split_pipelines child0 (path ++ [0]) = Some (a0, f)) ->
    length f = match cs with c0 :: _ => breakers c0 | [] => 0 end).
  { intros _ [(-> & ->)|(child0 & cs' & a0 & -> & Hs0)]; [done|].
    apply Forall_cons_1 in IH as [IH0 _]. by eapply IH0. }
  destruct ty; simpl;
    try (rewrite <- Hdefault;
         [by destruct cs|done
         |destruct Hs as [(?&?&?)|(c0&cs'&a0&?&?&?)]; [left|right]; eauto 10]);
    clear Hdefault.
  - destruct Hs as (child0 & child1 & cs' & a0 & f0 & a1 & f1 & -> & Hs0 & Hs1 & -> & ->).
    apply Forall_cons_1 in IH as [IH0 [IH1 _]%Forall_cons_1].
    rewrite length_app. erewrite IH0, IH1 by done. done.
  - destruct Hs as (child0 & child1 & cs' & a0 & f0 & a1 & f1 & -> & Hs0 & Hs1 & -> & ->).
    apply Forall_cons_1 in IH as [IH0 [IH1 _]%Forall_cons_1].
    rewrite !length_app. simpl. erewrite IH0, IH1 by done. lia.
  - destruct Hs as (child0 & cs' & a0 & f0 & -> & Hs0 & -> & ->).
    apply Forall_cons_1 in IH as [IH0 _].
    rewrite !length_app. simpl. erewrite IH0 by done. lia.
  - destruct Hs as (child0 & cs' & a0 & f0 & -> & Hs0 & -> & ->).
    apply Forall_cons_1 in IH as [IH0 _].
    rewrite !length_app. simpl. erewrite IH0 by done. lia.
Qed.

Lemma elem_of_concat_lookup {A} (P : list (list A)) i ts x :
  P !! i = Some ts -> x ∈ ts -> x ∈ concat P.
Proof.
  revert i. induction P as [|l P IHP]; intros i Hi Hx; [by rewrite lookup_nil in Hi|].
  simpl. apply elem_of_app. destruct i as [|i]; simpl in Hi.
  - left. by simplify_eq.
  - right. by eapply IHP.
Qed.

(** In a list of lists without repetition an element sits at one
    position only. *)
Lemma NoDup_concat_unique {A} (P : list (list A)) i i' ts ts' x :
  NoDup (concat P) -> P !! i = Some ts -> P !! i' = Some ts' ->
  x ∈ ts -> x ∈ ts' -> i = i'.
Proof.
  revert i i'. induction P as [|l P IHP]; intros i i' Hn Hi Hi' Hx Hx';
    [by rewrite lookup_nil in Hi|].
  simpl in Hn. apply NoDup_app in Hn as (_ & Hdis & Hn).
  destruct i as [|i], i' as [|i']; simpl in *; simplify_eq.
  - done.
  - destruct (Hdis x Hx). by eapply elem_of_concat_lookup.
  - destruct (Hdis x Hx'). by eapply elem_of_concat_lookup.
  - f_equal. by eapply IHP.
Qed.

(** The pipelines of a plan: no translator twice, and every reader
    after its builder. *)
Lemma pipelines_of_ordered plan P :
  pipelines_of plan = Some P ->
  NoDup (concat P) /\
  (forall v u j ts, reads_state_of v u -> P !! j = Some ts -> v ∈ ts ->
     exists i ts', i < j /\ P !! i = Some ts' /\ u ∈ ts') /\
  length P = S (breakers plan).
Proof.
  unfold pipelines_of.
  destruct (split_pipelines plan []) as [[a f]|] eqn:Hs; [|done].
  intros [= <-].
  pose proof (split_pipelines_fresh _ _ _ _ Hs) as [Hu Hn].
  pose proof (split_pipelines_deps _ _ _ _ Hs) as Hd.
  pose proof (split_pipelines_breakers _ _ _ _ Hs) as Hb.
  split; [|split].
  - rewrite concat_app. simpl. rewrite app_nil_r.
    assert (Hperm : concat f ++ a ++
                      match GetOutputSchema plan with
                      | Some _ => [OutputTranslator]
                      | None => []
                      end ≡ₚ
                    match GetOutputSchema plan with
                    | Some _ => [OutputTranslator]
                    | None => []
                    end ++ (a ++ concat f)) by solve_Permutation.
    rewrite Hperm. destruct (GetOutputSchema plan); [|done].
    simpl. apply NoDup_cons. split; [|done].
    intros Hin. rewrite Forall_forall in Hu.
    by destruct (Hu _ Hin) as (r & Hr & _).
  - intros v u j ts Hr Hj Hv.
    eapply (deps_ok_close a f) in Hd as Hd'; [by eapply (proj2 (Hd' v u Hr))|].
    destruct (GetOutputSchema plan); constructor; [intros u' []|constructor].
  - rewrite length_app. simpl. lia.
Qed.

(** ** The driver *)
Section DriverSpec.
Context `{CodeGen} `{TranslatorCode}.

(** The statements of the emitted [main] for pipeline objects
    [objs], as [GenMainFunction] appends them. *)
Definition main_stmts (objs : list Pipeline) : list Stmt :=
  [DeclareVariable GetStateVar (MakeExpr GetStateType) None; ExecCall GetSetupFn]
  ++ map (fun o => ExecCall (GetPipelineName o)) objs
  ++ [ExecCall GetTeardownFn; ReturnStmt (IntLiteral 37)].

Lemma call_loop_None (h : list Pipeline) (ps : list nat) :
  foldl (fun ob p =>
           b ← ob; pipeline ← h !! p;
           Some (Append (ExecCall (GetPipelineName pipeline)) b))
        None ps = None.
Proof. induction ps as [|p ps IH]; [done|]. simpl. exact IH. Qed.

Lemma call_loop (h : list Pipeline) (ps : list nat) b :
  foldl (fun ob p =>
           b ← ob; pipeline ← h !! p;
           Some (Append (ExecCall (GetPipelineName pipeline)) b))
        (Some b) ps
  = objs ← mapM (fun p => h !! p) ps;
    Some {| fb_name := fb_name b; fb_params := fb_params b; fb_ret := fb_ret b;
            fb_stmts := fb_stmts b ++ map (fun o => ExecCall (GetPipelineName o)) objs |}.
Proof.
  revert b. induction ps as [|p ps IH]; intros b; simpl.
  - rewrite app_nil_r. by destruct b.
  - destruct (h !! p) as [o|]; simpl; [|apply call_loop_None].
    rewrite IH. destruct (mapM (fun p => h !! p) ps) as [objs|]; simpl; [|done].
    by rewrite <- app_assoc.
Qed.

Lemma GenMainFunction_body c :
  GenMainFunction c
  = objs ← mapM (fun p => heap c !! p) (pipelines_ c);
    Some (FunctionDecl GetMainFn MainParams (BuiltinType Int32) (main_stmts objs)).
Proof.
  unfold GenMainFunction. rewrite call_loop.
  destruct (mapM _ _) as [objs|]; simpl; [|done].
  unfold Finish, main_stmts. simpl. by rewrite <- !app_assoc.
Qed.

Lemma GenFunction_body top_level fn_name stmts :
  GenFunction top_level fn_name stmts
  = top_level ++ [FunctionDecl fn_name ExecParams (BuiltinType Nil) stmts].
Proof.
  unfold GenFunction. f_equal. f_equal.
  assert (Hfold : forall b,
    foldl (fun b stmt => Append stmt b) b stmts
    = {| fb_name := fb_name b; fb_params := fb_params b; fb_ret := fb_ret b;
         fb_stmts := fb_stmts b ++ stmts |}).
  { induction stmts as [|st stmts IH]; intros b; simpl.
    - rewrite app_nil_r. by destruct b.
    - rewrite IH. simpl. by rewrite <- app_assoc. }
  by rewrite Hfold.
Qed.

(** The pipeline functions of pipelines with contents [P], numbered
    from [k]. *)
Definition pipeline_fns (k : nat) (P : list (list OperatorTranslator)) : list Decl :=
  imap (fun i ts => FunctionDecl (PipelineFn (k + i)) ExecParams (BuiltinType Nil)
                                 (emit_produce ts)) P.

Definition produced (k : nat) (P : list (list OperatorTranslator)) : list Pipeline :=
  imap (fun i ts => {| translators := ts; pipeline_idx := Some (k + i) |}) P.

Lemma produce_all_spec (ps : list nat) (P : list (list OperatorTranslator)) :
  Forall2 (fun p ts => True) ps P ->
  forall k top h,
    NoDup ps ->
    Forall2 (fun p ts => h !! p = Some {| translators := ts; pipeline_idx := None |}) ps P ->
    exists h',
      produce_all ps k top h = Some (top ++ pipeline_fns k P, h') /\
      (forall q, q ∉ ps -> h' !! q = h !! q) /\
      Forall2 (fun p o => h' !! p = Some o) ps (produced k P).
Proof.
  induction 1 as [|p ts ps P _ _ IH]; intros k top h Hn Hf.
  - exists h. simpl. rewrite app_nil_r. repeat split; constructor.
  - apply Forall2_cons_1 in Hf as [Hp Hf].
    apply NoDup_cons in Hn as [Hnp Hn].
    simpl. rewrite Hp. simpl.
    change (GetPipelineName {| translators := ts; pipeline_idx := Some k |})
      with (PipelineFn k).
    assert (Hf' : Forall2 (fun p0 ts0 =>
                    <[p:={| translators := ts; pipeline_idx := Some k |}]> h !! p0
                    = Some {| translators := ts0; pipeline_idx := None |}) ps P).
    { clear IH. induction Hf as [|q ts' ps P Hq Hf IHf]; constructor.
      - rewrite list_lookup_insert_ne; [done|]. intros ->. apply Hnp. by left.
      - apply IHf.
        + intros Hin. apply Hnp. by right.
        + by apply NoDup_cons in Hn as [_ Hn]. }
    destruct (IH (S k) (top ++ [FunctionDecl (PipelineFn k) ExecParams (BuiltinType Nil)
                                            (emit_produce ts)])
                 _ Hn Hf') as (h' & -> & Hfr & Hobjs).
    exists h'. split; [|split].
    + f_equal. f_equal. rewrite <- app_assoc. f_equal.
      unfold pipeline_fns. simpl. rewrite Nat.add_0_r. f_equal.
      apply imap_ext. intros i x _. simpl. do 2 f_equal. lia.
    + intros q Hq. rewrite Hfr.
      * apply list_lookup_insert_ne. intros ->. apply Hq. by left.
      * intros Hin. apply Hq. by right.
    + unfold produced. simpl. constructor.
      * rewrite Hfr by done. rewrite Nat.add_0_r.
        apply list_lookup_insert_eq. by eapply lookup_lt_Some.
      * erewrite imap_ext; [exact Hobjs|]. intros i x _. simpl. do 2 f_equal. lia.
Qed.

Lemma produced_calls k P :
  map (fun o => ExecCall (GetPipelineName o)) (produced k P)
  = map (fun i => ExecCall (PipelineFn i)) (seq k (length P)).
Proof.
  revert k. induction P as [|ts P IH]; intros k; [done|].
  unfold produced. simpl. rewrite Nat.add_0_r. f_equal.
  rewrite <- IH. f_equal. apply imap_ext. intros i x _. simpl. do 2 f_equal. lia.
Qed.

(** The vectors after every pipeline initialized itself. *)
Definition initialized_vectors (P : list (list OperatorTranslator)) : InitVectors :=
  foldl (fun v ts => emit_initialize ts v) empty_vectors P.

Lemma initialize_all_spec c P :
  Forall2 (fun p ts => heap c !! p = Some {| translators := ts; pipeline_idx := None |})
          (pipelines_ c) P ->
  initialize_all c = Some (initialized_vectors P).
Proof.
  intros Hf. unfold initialize_all, initialized_vectors.
  generalize empty_vectors. induction Hf as [|p ts ps P Hp Hf IH]; intros v; [done|].
  simpl. rewrite Hp. simpl. apply IH.
Qed.

(** The file [Compile] emits for pipelines with contents [P]. *)
Definition compiled_file (P : list (list OperatorTranslator)) : list Decl :=
  let v := initialized_vectors P in
  [MakeStruct GetStateType (state_fields v ++ [MakeField (Ident "DUMMY") (BuiltinType Int32)])]
  ++ decls v
  ++ [FunctionDecl GetSetupFn ExecParams (BuiltinType Nil) (setup_stmts v);
      FunctionDecl GetTeardownFn ExecParams (BuiltinType Nil) (teardown_stmts v)]
  ++ pipeline_fns 0 P
  ++ [FunctionDecl GetMainFn MainParams (BuiltinType Int32)
        ([DeclareVariable GetStateVar (MakeExpr GetStateType) None; ExecCall GetSetupFn]
         ++ map (fun i => ExecCall (PipelineFn i)) (seq 0 (length P))
         ++ [ExecCall GetTeardownFn; ReturnStmt (IntLiteral 37)])].

Lemma Compile_spec c P :
  NoDup (pipelines_ c) ->
  Forall2 (fun p ts => heap c !! p = Some {| translators := ts; pipeline_idx := None |})
          (pipelines_ c) P ->
  exists c', Compile c = Some (compiled_file P, c') /\ pipelines_ c' = pipelines_ c.
Proof.
  intros Hn Hf. unfold Compile.
  rewrite (initialize_all_spec c P Hf). simpl.
  unfold GenStateStruct, GenHelperStructsAndFunctions. rewrite !GenFunction_body.
  edestruct (produce_all_spec (pipelines_ c) P) as (h' & -> & Hfr & Hobjs);
    [by eapply Forall2_impl_lookup|exact Hn|exact Hf|].
  simpl. rewrite GenMainFunction_body. simpl.
  apply mapM_Some in Hobjs. rewrite Hobjs. simpl.
  exists {| heap := h'; pipelines_ := pipelines_ c |}. split; [|reflexivity].
  do 2 f_equal.
  unfold compiled_file, main_stmts. rewrite produced_calls.
  rewrite <- !app_assoc. reflexivity.
Qed.

Lemma compile_plan_spec plan :
  compile_plan plan = compiled_file <$> pipelines_of plan.
Proof.
  unfold compile_plan.
  pose proof (new_Compiler_pipelines plan) as Hc.
  destruct (pipelines_of plan) as [P|]; simpl; [|by rewrite Hc].
  destruct Hc as (c & -> & Hn & Hf). simpl.
  destruct (Compile_spec c P Hn Hf) as (c' & -> & _). done.
Qed.

End DriverSpec.

Lemma in_pipeline_contents c P i t :
  Forall2 (fun p ts => heap c !! p = Some {| translators := ts; pipeline_idx := None |})
          (pipelines_ c) P ->
  in_pipeline c i t <-> exists ts, P !! i = Some ts /\ t ∈ ts.
Proof.
  intros Hf. split.
  - intros (p & pl & Hp & Hpl & Ht).
    destruct (Forall2_lookup_l _ _ _ _ _ Hf Hp) as (ts & Hts & Hlk).
    exists ts. split; [done|]. rewrite Hpl in Hlk. by simplify_eq.
  - intros (ts & Hts & Ht).
    destruct (Forall2_lookup_r _ _ _ _ _ Hf Hts) as (p & Hp & Hlk).
    by exists p, {| translators := ts; pipeline_idx := None |}.
Qed.

(** ** The claims about the compiler driver *)

(** C1: the body of the emitted [main] is the declaration of the
    state variable, the call of the setup function, one call per
    pipeline in the order of [pipelines_], the call of the teardown
    function and a return statement; the value returned is the
    literal 37, where the comment of the source and the specification
    say 0. *)
Theorem GenMainFunction_returns_37 `{CodeGen} `{TranslatorCode} plan top_level :
  compile_plan plan = Some top_level ->
  exists main n,
    last top_level = Some main /\
    body_of main =
      [DeclareVariable GetStateVar (MakeExpr GetStateType) None; ExecCall GetSetupFn]
      ++ map (fun i => ExecCall (PipelineFn i)) (seq 0 n)
      ++ [ExecCall GetTeardownFn; ReturnStmt (IntLiteral 37)] /\
    last (body_of main) <> Some (ReturnStmt (IntLiteral 0)).
Proof.
  rewrite compile_plan_spec. destruct (pipelines_of plan) as [P|]; [|done].
  intros [= <-]. unfold compiled_file.
  eexists _, (length P). split; [|split].
  - rewrite !app_assoc. apply last_snoc.
  - reflexivity.
  - cbn [body_of]. rewrite !last_app. simpl. by intros [=].
Qed.

(** C1 at the failing input, a sequential scan with an output
    schema: the body of [main] ends in [return 37]. *)
Lemma GenMainFunction_returns_37_witness :
  exists top_level main,
    compile_plan (H := Examples.example_codegen) (H0 := Examples.example_translators)
      Examples.seq_scan_plan = Some top_level /\
    last top_level = Some main /\
    body_of main =
      [DeclareVariable (Ident "state") (MakeExpr (Ident "State")) None;
       ExecCall (Ident "setup"); ExecCall (PipelineFn 0);
       ExecCall (Ident "teardown"); ReturnStmt (IntLiteral 37)] /\
    last (body_of main) <> Some (ReturnStmt (IntLiteral 0)).
Proof.
  destruct (GenMainFunction_returns_37 (H := Examples.example_codegen)
              (H0 := Examples.example_translators) Examples.seq_scan_plan
              (default [] (compile_plan (H := Examples.example_codegen)
                             (H0 := Examples.example_translators)
                             Examples.seq_scan_plan)))
    as (main & n & Hlast & Hbody & Hne).
  { vm_compute. reflexivity. }
  eexists _, main. split; [vm_compute; reflexivity|].
  split; [exact Hlast|]. split; [|exact Hne].
  vm_compute in Hlast. injection Hlast as <-. vm_compute. reflexivity.
Defined.

(** C9: the state struct of every compiled query is the first
    declaration of the file; its fields are the fields the operators
    registered followed by one field [DUMMY] of builtin type [Int32],
    so that the struct is never empty. *)
Theorem state_struct_ends_with_DUMMY `{CodeGen} `{TranslatorCode} plan top_level :
  compile_plan plan = Some top_level ->
  exists c registered rest,
    new_Compiler plan = Some c /\
    state_fields <$> initialize_all c = Some registered /\
    top_level =
      MakeStruct GetStateType
        (registered ++ [MakeField (Ident "DUMMY") (BuiltinType Int32)]) :: rest /\
    last (registered ++ [MakeField (Ident "DUMMY") (BuiltinType Int32)])
      = Some (MakeField (Ident "DUMMY") (BuiltinType Int32)) /\
    registered ++ [MakeField (Ident "DUMMY") (BuiltinType Int32)] <> [].
Proof.
  rewrite compile_plan_spec.
  pose proof (new_Compiler_pipelines plan) as Hc.
  destruct (pipelines_of plan) as [P|]; [|done].
  destruct Hc as (c & Hc & Hn & Hf). intros [= <-].
  exists c, (state_fields (initialized_vectors P)). eexists.
  split; [done|]. split; [by rewrite (initialize_all_spec c P Hf)|].
  split; [reflexivity|]. split; [apply last_snoc|].
  by intros [_ ?]%app_nil.
Qed.

Lemma state_struct_ends_with_DUMMY_witness :
  exists c registered rest,
    new_Compiler Examples.seq_scan_plan = Some c /\
    state_fields <$> initialize_all (H0 := Examples.stateless_translators) c
      = Some registered /\
    registered = [] /\
    compile_plan (H := Examples.example_codegen) (H0 := Examples.stateless_translators)
      Examples.seq_scan_plan
    = Some (MakeStruct (Ident "State")
              (registered ++ [MakeField (Ident "DUMMY") (BuiltinType Int32)]) :: rest).
Proof.
  destruct (state_struct_ends_with_DUMMY (H := Examples.example_codegen)
              (H0 := Examples.stateless_translators) Examples.seq_scan_plan
              (default [] (compile_plan (H := Examples.example_codegen)
                             (H0 := Examples.stateless_translators)
                             Examples.seq_scan_plan)))
    as (c & registered & rest & Hc & Hi & Htop & _).
  { vm_compute. reflexivity. }
  exists c, registered, rest. split; [exact Hc|]. split; [exact Hi|].
  split.
  - vm_compute in Hc. injection Hc as <-. vm_compute in Hi. by injection Hi as <-.
  - transitivity (Some (default [] (compile_plan (H := Examples.example_codegen)
                                      (H0 := Examples.stateless_translators)
                                      Examples.seq_scan_plan))).
    + vm_compute. reflexivity.
    + f_equal. exact Htop.
Defined.

(** C5: for every dependency edge the pipeline of the builder has a
    smaller index than the pipeline of the reader; pipeline [i], the
    [i]-th entry of [pipelines_], is emitted as the function
    [pipeline_i]; and [main] calls these functions in the order of
    their indices, so a builder has run when its reader starts. *)
Theorem pipelines_respect_dependencies `{CodeGen} `{TranslatorCode}
    plan c top_level c' :
  new_Compiler plan = Some c -> Compile c = Some (top_level, c') ->
  (forall v u j, reads_state_of v u -> in_pipeline c j v ->
     exists i, i < j /\ in_pipeline c i u) /\
  (forall v u i j, reads_state_of v u -> in_pipeline c i u -> in_pipeline c j v ->
     i < j) /\
  (forall i p pl, pipelines_ c !! i = Some p -> heap c !! p = Some pl ->
     FunctionDecl (PipelineFn i) ExecParams (BuiltinType Nil)
                  (emit_produce (translators pl)) ∈ top_level) /\
  exists main ret,
    last top_level = Some main /\
    body_of main =
      [DeclareVariable GetStateVar (MakeExpr GetStateType) None; ExecCall GetSetupFn]
      ++ map (fun i => ExecCall (PipelineFn i)) (seq 0 (length (pipelines_ c)))
      ++ [ExecCall GetTeardownFn; ReturnStmt ret].
Proof.
  intros Hnew Hcompile.
  pose proof (new_Compiler_pipelines plan) as Hc.
  destruct (pipelines_of plan) as [P|] eqn:HP; [|by rewrite Hc in Hnew].
  destruct Hc as (c0 & Hc0 & Hn & Hf). rewrite Hnew in Hc0. injection Hc0 as <-.
  destruct (Compile_spec c P Hn Hf) as (c1 & Hc1 & _).
  rewrite Hcompile in Hc1. injection Hc1 as -> <-.
  destruct (pipelines_of_ordered plan P HP) as (Hnodup & Hdeps & _).
  assert (Hexists : forall v u j, reads_state_of v u -> in_pipeline c j v ->
            exists i, i < j /\ in_pipeline c i u).
  { intros v u j Hr (ts & Hj & Hv)%(in_pipeline_contents c P); [|done].
    destruct (Hdeps v u j ts Hr Hj Hv) as (i & ts' & Hlt & Hi & Hu).
    exists i. split; [done|]. apply (in_pipeline_contents c P); [done|]. eauto. }
  split; [exact Hexists|]. split; [|split].
  - intros v u i j Hr Hu Hv.
    destruct (Hexists v u j Hr Hv) as (i0 & Hlt & Hu0).
    apply (in_pipeline_contents c P) in Hu as (ts & Hi & Hu); [|done].
    apply (in_pipeline_contents c P) in Hu0 as (ts0 & Hi0 & Hu0); [|done].
    by rewrite (NoDup_concat_unique P i i0 ts ts0 u).
  - intros i p pl Hp Hpl.
    destruct (Forall2_lookup_l _ _ _ _ _ Hf Hp) as (ts & Hts & Hlk).
    rewrite Hpl in Hlk. injection Hlk as ->. simpl.
    unfold compiled_file. rewrite !elem_of_app. right. right. right. left.
    apply list_elem_of_lookup. exists i. unfold pipeline_fns.
    by rewrite list_lookup_imap, Hts.
  - eexists _, _. split.
    + unfold compiled_file. cbv zeta. rewrite !last_app. simpl. reflexivity.
    + simpl. by rewrite (Forall2_length _ _ _ Hf).
Qed.

Lemma pipelines_respect_dependencies_witness :
  exists c top_level c',
    new_Compiler Examples.join_agg_plan = Some c /\
    Compile (H := Examples.example_codegen) (H0 := Examples.example_translators) c
      = Some (top_level, c') /\
    pipelines_ c = [1; 2; 0] /\
    (forall v u i j, reads_state_of v u -> in_pipeline c i u -> in_pipeline c j v ->
       i < j) /\
    (body_of <$> last top_level) =
      Some [DeclareVariable (Ident "state") (MakeExpr (Ident "State")) None;
            ExecCall (Ident "setup");
            ExecCall (PipelineFn 0); ExecCall (PipelineFn 1); ExecCall (PipelineFn 2);
            ExecCall (Ident "teardown"); ReturnStmt (IntLiteral 37)].
Proof.
  pose (c := default empty_compiler (new_Compiler Examples.join_agg_plan)).
  pose (r := default ([], empty_compiler)
               (Compile (H := Examples.example_codegen)
                        (H0 := Examples.example_translators) c)).
  assert (Hc : new_Compiler Examples.join_agg_plan = Some c) by (vm_compute; reflexivity).
  assert (Hr : Compile (H := Examples.example_codegen)
                 (H0 := Examples.example_translators) c = Some (r.1, r.2))
    by (vm_compute; reflexivity).
  exists c, r.1, r.2. split; [exact Hc|]. split; [exact Hr|].
  split; [vm_compute; reflexivity|].
  destruct (pipelines_respect_dependencies (H := Examples.example_codegen)
              (H0 := Examples.example_translators)
              Examples.join_agg_plan c r.1 r.2 Hc Hr) as (_ & Hord & _ & _).
  split; [exact Hord|]. vm_compute. reflexivity.
Defined.

(** What the walk of a subtree adds to the pipeline it is given:
    from every compiler state the walk of [node], at position
    [path], succeeds and appends [ts] to its current pipeline,
    whichever that is, and the last of [ts] is the translator of
    [node] itself. *)
Definition walk_adds (node : AbstractPlanNode) (path : list nat)
    (ts : list OperatorTranslator) : Prop :=
  (forall q d, q < length (heap d) ->
     exists d', MakePipelines node path q d = Some d' /\
                heap d' !! q = add_all ts <$> heap d !! q) /\
  (exists ts' t, ts = ts' ++ [t] /\ translated_op t = Some (ref_of path node)).

Lemma split_pipelines_walk_adds node path a f :
  split_pipelines node path = Some (a, f) -> walk_adds node path a.
Proof.
  intros Hs. split; [|by eapply split_pipelines_root].
  intros q d Hq.
  pose proof (MakePipelines_split node path q d Hq) as Hw.
  rewrite Hs in Hw. destruct Hw as (d' & Hd' & ids & _ & _ & _ & Hc & _).
  by exists d'.
Qed.

(** C6: the walk breaks the pipeline exactly at the breakers.  At an
    aggregation or a sort the walk of the child runs in a new
    pipeline, which the bottom translator closes and which is pushed
    last during the walk, and the top translator is all that is
    added to the current pipeline.  At a hash join the walk of the
    first child runs in a new pipeline, which the left translator
    closes and which is pushed after the pipelines of the first
    child; the walk of the second child runs in the current
    pipeline, followed by the right translator.  At a nested-loop
    join the walks of both children run in the current pipeline,
    the left translator between them and the right translator after
    them; both translators are in no other pipeline and the join
    pushes no pipeline of its own.  At any other node the walk of
    the child, if there is one, runs in the current pipeline,
    followed by the translator of the node.  The new pipelines are
    as many as the breakers visited. *)
Theorem MakePipelines_splits_at_breakers op path curr c c' :
  curr < length (heap c) ->
  MakePipelines op path curr c = Some c' ->
  let this := ref_of path op in
  exists old ids,
    heap c !! curr = Some old /\
    pipelines_ c' = pipelines_ c ++ ids /\
    length ids = breakers op /\
    NoDup ids /\
    Forall (fun id => length (heap c) <= id < length (heap c')) ids /\
    match GetPlanNodeType op with
    | AGGREGATE | ORDERBY =>
        exists child0 child_ts next,
          GetChildren op !! 0 = Some child0 /\
          walk_adds child0 (path ++ [0]) child_ts /\
          last ids = Some next /\
          heap c' !! next =
            Some {| translators := child_ts ++ [BottomTranslator this];
                    pipeline_idx := None |} /\
          heap c' !! curr =
            Some (add_all [TopTranslator this (BottomTranslator this)] old)
    | HASHJOIN =>
        exists child0 child1 build_ts probe_ts next,
          GetChildren op !! 0 = Some child0 /\
          GetChildren op !! 1 = Some child1 /\
          walk_adds child0 (path ++ [0]) build_ts /\
          walk_adds child1 (path ++ [1]) probe_ts /\
          ids !! breakers child0 = Some next /\
          heap c' !! next =
            Some {| translators := build_ts ++ [LeftTranslator this];
                    pipeline_idx := None |} /\
          heap c' !! curr =
            Some (add_all (probe_ts ++ [RightTranslator this (LeftTranslator this)]) old)
    | NESTLOOP =>
        exists child0 child1 outer_ts inner_ts,
          GetChildren op !! 0 = Some child0 /\
          GetChildren op !! 1 = Some child1 /\
          walk_adds child0 (path ++ [0]) outer_ts /\
          walk_adds child1 (path ++ [1]) inner_ts /\
          heap c' !! curr =
            Some (add_all (outer_ts ++ [LeftTranslator this] ++ inner_ts
                             ++ [RightTranslator this (LeftTranslator this)]) old) /\
          length ids = breakers child0 + breakers child1 /\
          forall id pl, id ∈ ids -> heap c' !! id = Some pl ->
            (LeftTranslator this ∉ translators pl) /\
            (RightTranslator this (LeftTranslator this) ∉ translators pl)
    | _ =>
        match GetChildren op with
        | [] => heap c' !! curr = Some (add_all [RegularTranslator this] old)
        | child0 :: _ =>
            exists child_ts,
              walk_adds child0 (path ++ [0]) child_ts /\
              heap c' !! curr =
                Some (add_all (child_ts ++ [RegularTranslator this]) old)
        end
    end.
Proof.
  intros Hcurr Hmk this.
  pose proof (MakePipelines_split op path curr c Hcurr) as Hw.
  destruct (split_pipelines op path) as [[a f]|] eqn:Hs; [|by rewrite Hw in Hmk].
  destruct Hw as (c0 & Hc0 & ids & Hp & Hl & Hfr & Hc & Hf & Hn).
  rewrite Hmk in Hc0. injection Hc0 as <-.
  destruct (lookup_lt_is_Some_2 (heap c) curr Hcurr) as [old Hold].
  rewrite Hold in Hc. simpl in Hc.
  exists old, ids. split; [done|]. split; [done|].
  split; [by rewrite (Forall2_length _ _ _ Hf), (split_pipelines_breakers _ _ _ _ Hs)|].
  split; [done|]. split; [by eapply walk_post_ids_lt|].
  pose proof (split_pipelines_fresh _ _ _ _ Hs) as [_ Hnodup].
  destruct op as [ty s cs]. apply split_pipelines_shape in Hs. simpl in Hs.
  subst this. unfold ref_of. simpl.
  destruct ty;
    try (destruct Hs as [(-> & -> & _)|(child0 & cs' & a0 & -> & Hs0 & ->)];
         [done|exists a0; split; [by eapply split_pipelines_walk_adds|done]]).
  - (* NESTLOOP *)
    destruct Hs as (child0 & child1 & cs' & a0 & f0 & a1 & f1 & -> & Hs0 & Hs1 & -> & ->).
    exists child0, child1, a0, a1.
    split; [done|]. split; [done|].
    split; [by eapply split_pipelines_walk_adds|].
    split; [by eapply split_pipelines_walk_adds|].
    split; [done|].
    split.
    { rewrite (Forall2_length _ _ _ Hf), length_app.
      by rewrite (split_pipelines_breakers _ _ _ _ Hs0),
                 (split_pipelines_breakers _ _ _ _ Hs1). }
    intros id pl Hid Hpl.
    apply list_elem_of_lookup in Hid as [k Hk].
    destruct (Forall2_lookup_l _ _ _ _ _ Hf Hk) as (ts & Hts & _ & Hlk).
    rewrite Hpl in Hlk. injection Hlk as ->. simpl.
    apply NoDup_app in Hnodup as (_ & Hdis & _).
    split; intros Hin;
      (eapply Hdis; [|by eapply elem_of_concat_lookup]);
      repeat first [rewrite elem_of_app | rewrite elem_of_cons]; auto 10.
  - (* HASHJOIN *)
    destruct Hs as (child0 & child1 & cs' & a0 & f0 & a1 & f1 & -> & Hs0 & Hs1 & -> & ->).
    apply Forall2_app_inv_r in Hf as (ids0 & ids' & Hf0 & Hf' & ->).
    apply Forall2_cons_inv_r in Hf' as (next & ids1 & [_ Hnext] & _ & ->).
    exists child0, child1, a0, a1, next.
    split; [done|]. split; [done|].
    split; [by eapply split_pipelines_walk_adds|].
    split; [by eapply split_pipelines_walk_adds|].
    split; [|done].
    rewrite <- (split_pipelines_breakers _ _ _ _ Hs0), <- (Forall2_length _ _ _ Hf0).
    by rewrite lookup_app_r, Nat.sub_diag by lia.
  - (* AGGREGATE *)
    destruct Hs as (child0 & cs' & a0 & f0 & -> & Hs0 & -> & ->).
    apply Forall2_app_inv_r in Hf as (ids0 & ids' & _ & Hf' & ->).
    apply Forall2_cons_inv_r in Hf' as (next & ids1 & [_ Hnext] & Hnil & ->).
    apply Forall2_nil_inv_r in Hnil as ->.
    exists child0, a0, next. split; [done|].
    split; [by eapply split_pipelines_walk_adds|].
    split; [apply last_snoc|done].
  - (* ORDERBY *)
    destruct Hs as (child0 & cs' & a0 & f0 & -> & Hs0 & -> & ->).
    apply Forall2_app_inv_r in Hf as (ids0 & ids' & _ & Hf' & ->).
    apply Forall2_cons_inv_r in Hf' as (next & ids1 & [_ Hnext] & Hnil & ->).
    apply Forall2_nil_inv_r in Hnil as ->.
    exists child0, a0, next. split; [done|].
    split; [by eapply split_pipelines_walk_adds|].
    split; [apply last_snoc|done].
Qed.

Lemma MakePipelines_splits_at_breakers_witness :
  exists c',
    MakePipelines Examples.join_agg_plan [] 0 (alloc_pipeline empty_compiler).2
      = Some c' /\
    pipelines_ c' = [1; 2] /\
    breakers Examples.join_agg_plan = 2 /\
    exists build_ts probe_ts next,
      walk_adds (Examples.leaf SEQSCAN) [0] build_ts /\
      walk_adds (PlanNodeOf AGGREGATE None [Examples.leaf SEQSCAN]) [1] probe_ts /\
      [1; 2] !! 0 = Some next /\
      heap c' !! next =
        Some {| translators :=
                  build_ts ++ [LeftTranslator {| addr := []; node_type := HASHJOIN |}];
                pipeline_idx := None |} /\
      heap c' !! 0 =
        Some (add_all
                (probe_ts ++
                 [RightTranslator {| addr := []; node_type := HASHJOIN |}
                    (LeftTranslator {| addr := []; node_type := HASHJOIN |})])
                new_Pipeline).
Proof.
  pose (c := (alloc_pipeline empty_compiler).2).
  pose (c' := default empty_compiler (MakePipelines Examples.join_agg_plan [] 0 c)).
  assert (Hlt : 0 < length (heap c)) by (vm_compute; lia).
  assert (Hmk : MakePipelines Examples.join_agg_plan [] 0 c = Some c')
    by (vm_compute; reflexivity).
  destruct (MakePipelines_splits_at_breakers Examples.join_agg_plan [] 0 c c' Hlt Hmk)
    as (old & ids & Hold & Hp & Hlen & _ & _ & child0 & child1 & build_ts & probe_ts
        & next & Hc0 & Hc1 & Hb & Hpr & Hin & Hnext & Hcurr).
  assert (Hold' : old = new_Pipeline)
    by (vm_compute in Hold; unfold new_Pipeline; congruence).
  assert (Hids : ids = [1; 2]) by (vm_compute in Hp; congruence).
  injection Hc0 as <-. injection Hc1 as <-.
  subst old ids.
  exists c'. split; [exact Hmk|]. split; [vm_compute; reflexivity|].
  split; [vm_compute; reflexivity|].
  exists build_ts, probe_ts, next.
  split; [exact Hb|]. split; [exact Hpr|]. split; [exact Hin|].
  split; [exact Hnext|exact Hcurr].
Defined.
End CompilerSpec.

(** * Properties of the table vector iterator *)
Module TableVectorIteratorSpec.
Import TableVectorIterator.
Local Open Scope nat_scope.

Section IteratorSpec.
Context `{Storage}.

(** After a successful [Init] the iterator is initialized and holds
    its table, its slot iterator and its buffer. *)
Lemma after_Init_ready it :
  after_Init it ->
  initialized it = true /\ projected_columns_ it = to_buffer /\
  exists table iter pc,
    table_ it = Some table /\ iter_ it = Some iter /\ buffer_ it = Some pc.
Proof.
  induction 1 as [it0 it Hinit|it b it' _ IH Hadv].
  - unfold Init in Hinit.
    destruct (GetTable (exec_ctx_ it0) (table_oid_ it0)) as [table|]; [|done].
    destruct (col_oids_ it0) as [|oid oids]; [done|].
    injection Hinit as <-. simpl. eauto 10.
  - destruct IH as (Hi & Hpc & table & iter & pc & Ht & Hit & Hb).
    unfold Advance in Hadv. rewrite Hi, Ht, Hit, Hpc, Hb in Hadv. simpl in Hadv.
    destruct (decide (iter = table_end table)).
    + injection Hadv as _ <-. simpl. eauto 10.
    + destruct (Scan table (GetTxn (exec_ctx_ it)) iter pc) as [iter' pc'].
      injection Hadv as _ <-. simpl. eauto 10.
Qed.

End IteratorSpec.

(** C10: before [Init] has succeeded [Advance] returns false and
    leaves the iterator, and with it the record of table accesses, as
    it was.  After a successful [Init] it returns false exactly when
    the slot iterator is the end iterator of the table, changing
    nothing but the record of that comparison; otherwise it scans one
    batch into the buffer of the projected columns, moves the slot
    iterator, points the PCI at the buffer and returns true. *)
Theorem Advance_before_and_after_Init `{Storage} (it : TableVectorIterator) :
  (initialized it = false -> Advance it = Some (false, it)) /\
  (after_Init it ->
   exists table iter pc b it',
     table_ it = Some table /\ iter_ it = Some iter /\ buffer_ it = Some pc /\
     Advance it = Some (b, it') /\
     (b = false <-> iter = table_end table) /\
     (iter = table_end table ->
      it' = {| table_oid_ := table_oid_ it; exec_ctx_ := exec_ctx_ it;
               col_oids_ := col_oids_ it; table_ := table_ it;
               buffer_ := buffer_ it; projected_columns_ := projected_columns_ it;
               pci_ := pci_ it; initialized := initialized it; iter_ := iter_ it;
               accesses := accesses it ++ [CalledEnd] |}) /\
     (iter <> table_end table ->
      it' = {| table_oid_ := table_oid_ it; exec_ctx_ := exec_ctx_ it;
               col_oids_ := col_oids_ it; table_ := table_ it;
               buffer_ := Some (Scan table (GetTxn (exec_ctx_ it)) iter pc).2;
               projected_columns_ := to_buffer;
               pci_ := to_buffer; initialized := true;
               iter_ := Some (Scan table (GetTxn (exec_ctx_ it)) iter pc).1;
               accesses := accesses it ++ [CalledEnd; CalledScan iter] |})).
Proof.
  split.
  - intros Hi. unfold Advance. by rewrite Hi.
  - intros (Hi & Hpc & table & iter & pc & Ht & Hit & Hb)%after_Init_ready.
    exists table, iter, pc. unfold Advance. rewrite Hi, Ht, Hit, Hpc, Hb. simpl.
    destruct (decide (iter = table_end table)) as [Heq|Hne].
    + eexists false, _. repeat split; try done.
    + destruct (Scan table (GetTxn (exec_ctx_ it)) iter pc) as [iter' pc'] eqn:Hscan.
      eexists true, _. repeat split; try done.
Qed.

(** The theorem on a table of three rows: a fresh iterator refuses to
    advance and touches nothing; after [Init] the first call scans the
    rows from slot 0 and returns true. *)
Lemma Advance_before_and_after_Init_witness :
  Advance Examples.example_iterator = Some (false, Examples.example_iterator) /\
  exists it it' : @TableVectorIterator Examples.list_storage,
    Init Examples.example_iterator = Some (true, it) /\
    Advance it = Some (true, it') /\
    buffer_ it' = Some [10; 20]%Z /\ iter_ it' = Some 2 /\ pci_ it' = to_buffer /\
    accesses it' = [CalledBegin; CalledEnd; @CalledScan Examples.list_storage 0].
Proof.
  split.
  - apply (Advance_before_and_after_Init (H := Examples.list_storage)
             Examples.example_iterator).
    vm_compute. reflexivity.
  - pose (it := default Examples.example_iterator
                  (snd <$> Init Examples.example_iterator)).
    assert (Hinit : Init Examples.example_iterator = Some (true, it))
      by (vm_compute; reflexivity).
    destruct (Advance_before_and_after_Init (H := Examples.list_storage) it)
      as [_ Hafter].
    destruct (Hafter (after_Init_call _ _ Hinit))
      as (table & iter & pc & b & it' & Ht & Hit & Hb & Hadv & Hiff & _ & Hscan).
    assert (iter = 0) as -> by (vm_compute in Hit; congruence).
    assert (table = [10; 20; 30]%Z) as -> by (vm_compute in Ht; congruence).
    assert (pc = []) as -> by (vm_compute in Hb; congruence).
    assert (Hne : 0 <> @table_end Examples.list_storage [10; 20; 30]%Z)
      by (vm_compute; lia).
    specialize (Hscan Hne).
    assert (b = true) as ->.
    { destruct b; [done|]. by destruct Hne, (proj1 Hiff). }
    exists it, it'. split; [exact Hinit|]. split; [exact Hadv|].
    rewrite Hscan. vm_compute. done.
Defined.

End TableVectorIteratorSpec.

(** * Properties of the catalog row encoding *)
Module SqlTableRWSpec.
Import SqlTableRW.

Lemma length_le_bytes n z : length (le_bytes n z) = n.
Proof. revert z. induction n as [|n IH]; intros z; simpl; [done|]. by rewrite IH. Qed.

(** The bytes of an integer, read back, give it modulo [256 ^ n]. *)
Lemma le_value_le_bytes n z : le_value (le_bytes n z) = z mod 256 ^ Z.of_nat n.
Proof.
  revert z. induction n as [|n IH]; intros z.
  - simpl. by rewrite Z.mod_1_r.
  - cbn [le_bytes le_value]. rewrite IH.
    rewrite Nat2Z.inj_succ, Z.pow_succ_r by lia.
    rewrite Z.rem_mul_r by lia. reflexivity.
Qed.

Lemma to_signed_in_range bits z :
  0 < bits -> CInt.in_signed bits z -> CInt.to_signed bits (z mod 2 ^ bits) = z.
Proof.
  intros Hbits [Hlo Hhi]. unfold CInt.to_signed.
  assert (Hpow : 2 ^ bits = 2 * 2 ^ (bits - 1)).
  { rewrite <- Z.pow_succ_r by lia. f_equal. lia. }
  assert (Hpos : 0 < 2 ^ (bits - 1)) by (apply Z.pow_pos_nonneg; lia).
  rewrite Z.mod_mod by lia.
  destruct (Z.ltb_spec (z mod 2 ^ bits) (2 ^ (bits - 1))) as [Hlt|Hge].
  - destruct (Z.neg_nonneg_cases z) as [Hneg|Hnn].
    + rewrite <- (Z.mod_add z 1) in Hlt by lia.
      rewrite Z.mod_small in Hlt by lia. lia.
    + apply Z.mod_small. lia.
  - destruct (Z.neg_nonneg_cases z) as [Hneg|Hnn].
    + rewrite <- (Z.mod_add z 1) by lia.
      rewrite Z.mod_small by lia. lia.
    + rewrite Z.mod_small in Hge by lia. lia.
Qed.

Lemma load_store_int n z c :
  (0 < n)%nat -> CInt.in_signed (8 * Z.of_nat n) z ->
  load_int n (store_int n z c) = Some z.
Proof.
  intros Hn Hz. unfold load_int, store_int.
  assert (Hload : forall rest,
    (if decide (n <= length (le_bytes n z ++ rest))%nat
     then Some (CInt.to_signed (8 * Z.of_nat n)
                  (le_value (take n (le_bytes n z ++ rest))))
     else None) = Some z).
  { intros rest. rewrite decide_True by (rewrite length_app, length_le_bytes; lia).
    rewrite take_app_length' by (by rewrite length_le_bytes).
    rewrite le_value_le_bytes.
    replace (256 ^ Z.of_nat n) with (2 ^ (8 * Z.of_nat n))
      by (rewrite Z.pow_mul_r by lia; reflexivity).
    rewrite to_signed_in_range; [done|lia|done]. }
  destruct c as [bs|e].
  - apply Hload.
  - rewrite <- (app_nil_r (le_bytes n z)). apply Hload.
Qed.

Lemma memcpy_length s : memcpy (String.length s) s = s.
Proof. induction s as [|ch s IH]; simpl; [done|]. by rewrite IH. Qed.

Lemma strlen_le s : (strlen s <= String.length s)%nat.
Proof.
  induction s as [|ch s IH]; simpl; [lia|]. destruct (decide (ch = NUL)); lia.
Qed.

(** A string without NUL, followed by its terminator, is a C string
    of the same length and contents. *)
Lemma c_string_terminated s :
  strlen s = String.length s ->
  memcpy (strlen (s +:+ String NUL EmptyString)) (s +:+ String NUL EmptyString) = s.
Proof.
  induction s as [|ch s IH]; simpl.
  - intros _. first [done | by rewrite decide_True].
  - destruct (decide (ch = NUL)); [done|]. intros [= Hs]. simpl. by rewrite IH.
Qed.


Section RoundTrip.
Context `{StorageConstants}.

(** C7, the defect: [SetColInRow] has no case for [SMALLINT]; a
    non-null smallint value leaves the row and the memory as they
    were, so the value is not stored. *)
Theorem SetColInRow_drops_smallint rw proj_row mem col_num oid offset z :
  col_oids_ rw !! col_num = Some oid ->
  pr_map_ rw !! oid = Some offset ->
  SetColInRow rw proj_row mem col_num (GetSmallInt z) = Some (proj_row, mem).
Proof. intros Hoid Hoff. unfold SetColInRow. rewrite Hoid. simpl. by rewrite Hoff. Qed.

(** Writing a value of a type [SetColInRow] handles, or a null, and
    reading the column back gives the value written. *)
Lemma SetColInRow_round_trip rw proj_row mem col_num col oid offset v :
  cols_ rw !! col_num = Some col ->
  GetType col = Type_ v ->
  col_oids_ rw !! col_num = Some oid ->
  pr_map_ rw !! oid = Some offset ->
  (col_num < size (pr_map_ rw))%nat ->
  (offset < NumColumns proj_row)%nat ->
  length (bitmap proj_row) = NumColumns proj_row ->
  value_ok v ->
  Null v = true \/ Type_ v ∈ [BOOLEAN; INTEGER; BIGINT; VARCHAR] ->
  exists r m,
    SetColInRow rw proj_row mem col_num v = Some (r, m) /\
    ColToValue rw r m col_num = Some v.
Proof.
  intros Hcol Hty Hoid Hoff Hsize Hlt Hbm Hok Hsupp.
  unfold SetColInRow, ColToValue, ColNumToOffset.
  rewrite Hcol, Hoid. simpl. rewrite Hoff. simpl.
  rewrite decide_False by lia. simpl.
  destruct (lookup_lt_is_Some_2 (cells proj_row) offset Hlt) as [cell Hcell].
  assert (Hread : forall store (b : bool),
    AccessWithNullCheck offset
      {| bitmap := <[offset := b]> (bitmap proj_row);
         cells := alter store offset (cells proj_row) |}
    = Some (if b then Some (store cell) else None)).
  { intros store b. unfold AccessWithNullCheck. simpl.
    rewrite list_lookup_insert_eq by lia.
    rewrite list_lookup_alter_eq, Hcell. simpl. by destruct b. }
  assert (Hnull : forall b : bool,
    AccessWithNullCheck offset
      {| bitmap := <[offset := b]> (bitmap proj_row); cells := cells proj_row |}
    = Some (if b then Some cell else None)).
  { intros b. unfold AccessWithNullCheck. simpl.
    rewrite list_lookup_insert_eq by lia. rewrite Hcell. by destruct b. }
  unfold SetNull, AccessForceNotNull.
  destruct (decide (offset < NumColumns proj_row)%nat) as [_|?]; [|lia].
  destruct v as [t|b|z|z|z|bits|bits|z|s]; simpl in *;
    try (destruct Hsupp as [?|Hin]; [done|];
         repeat (apply elem_of_cons in Hin as [?|Hin]; [done|]);
         by apply elem_of_nil in Hin).
  - (* null *)
    eexists _, _. split; [reflexivity|]. rewrite Hnull. simpl. by rewrite Hty.
  - (* BOOLEAN *)
    eexists _, _. split; [reflexivity|]. rewrite Hread, Hty. simpl.
    rewrite load_store_int; [|lia|by destruct b]. simpl. by destruct b.
  - (* INTEGER *)
    eexists _, _. split; [reflexivity|]. rewrite Hread, Hty. simpl.
    rewrite load_store_int; [done|lia|exact Hok].
  - (* BIGINT *)
    eexists _, _. split; [reflexivity|]. rewrite Hread, Hty. simpl.
    rewrite load_store_int; [done|lia|exact Hok].
  - (* VARCHAR *)
    destruct Hok as [Hnul Hlen]. rewrite Hnul.
    assert (Hu32 : CInt.to_u32 (Z.of_nat (String.length s)) = Z.of_nat (String.length s)).
    { unfold CInt.to_u32, CInt.to_unsigned. apply Z.mod_small. lia. }
    assert (Hu32' : CInt.to_u32 (Z.of_nat (String.length s) + 1)
                    = Z.of_nat (String.length s) + 1).
    { unfold CInt.to_u32, CInt.to_unsigned. apply Z.mod_small. lia. }
    destruct (InlineThreshold <? Z.of_nat (String.length s)).
    + eexists _, _. split; [reflexivity|]. rewrite Hread, Hty. simpl.
      rewrite Hu32, Hu32'. rewrite lookup_app_r by lia.
      rewrite Nat.sub_diag. simpl. rewrite Nat2Z.id, memcpy_length.
      replace (Z.to_nat (Z.of_nat (String.length s) + 1 - 1)) with (String.length s) by lia.
      rewrite memcpy_length. unfold GetVarChar. by rewrite c_string_terminated.
    + eexists _, _. split; [reflexivity|]. rewrite Hread, Hty. simpl.
      rewrite Hu32, Hu32'. rewrite Nat2Z.id, memcpy_length.
      replace (Z.to_nat (Z.of_nat (String.length s) + 1 - 1)) with (String.length s) by lia.
      rewrite memcpy_length. unfold GetVarChar. by rewrite c_string_terminated.
Qed.

End RoundTrip.

(** C7 at the failing input: the row [(5)] of a table with one
    smallint column.  The insert buffer is unchanged by the write, and
    the row read back is [(NULL)]. *)
Lemma SetColInRow_drops_smallint_witness :
  SetColsInRow (H := Examples.inline12) Examples.smallint_table
    Examples.smallint_row [] 0 [GetSmallInt 5]
  = Some (Examples.smallint_row, []) /\
  ColToValueVec Examples.smallint_table Examples.smallint_row []
  = Some [GetNull SMALLINT] /\
  [GetNull SMALLINT] <> [GetSmallInt 5].
Proof.
  split; [|split].
  - cbn [SetColsInRow].
    rewrite (SetColInRow_drops_smallint (H := Examples.inline12)
               Examples.smallint_table Examples.smallint_row [] 0 1 0 5);
      [reflexivity|vm_compute; reflexivity|vm_compute; reflexivity].
  - vm_compute. reflexivity.
  - discriminate.
Defined.

End SqlTableRWSpec.

(** * Properties of the index scans and of snapshot visibility *)
Module IndexSpec.
Import Index.
Local Open Scope nat_scope.

(** Entries compared by key. *)
Definition key_le (e1 e2 : Entry) : Prop := (e1.1 <= e2.1)%Z.

#[local] Instance key_le_trans : Transitive key_le.
Proof. intros x y z. unfold key_le. lia. Qed.

(** ** The entries of an index are kept in key order *)

Lemma insert_entry_Permutation e es : insert_entry e es ≡ₚ e :: es.
Proof.
  induction es as [|e' es IH]; simpl; [done|].
  destruct (e.1 <? e'.1)%Z; [done|]. rewrite IH. apply Permutation_swap.
Qed.

Lemma insert_entry_sorted e es :
  StronglySorted key_le es -> StronglySorted key_le (insert_entry e es).
Proof.
  induction 1 as [|e' es Hs IH Hall]; simpl.
  - repeat constructor.
  - destruct (Z.ltb_spec e.1 e'.1) as [Hlt|Hge].
    + constructor; [by constructor|]. constructor; [unfold key_le; lia|].
      eapply Forall_impl; [exact Hall|]. unfold key_le. intros x. lia.
    + constructor; [done|]. rewrite insert_entry_Permutation.
      constructor; [done|done].
Qed.

Lemma populate_spec ins idx :
  StronglySorted key_le (entries idx) ->
  StronglySorted key_le (entries (populate ins idx)) /\
  entries (populate ins idx) ≡ₚ entries idx ++ ins.
Proof.
  revert idx. induction ins as [|e ins IH]; intros idx Hs; simpl.
  - by rewrite app_nil_r.
  - destruct (IH (Insert e.1 e.2 idx).2) as [Hs' Hp].
    { simpl. by apply insert_entry_sorted. }
    split; [done|]. rewrite Hp. simpl.
    rewrite insert_entry_Permutation. destruct e. simpl. solve_Permutation.
Qed.

Lemma populate_empty ins :
  StronglySorted key_le (entries (populate ins empty_index)) /\
  entries (populate ins empty_index) ≡ₚ ins.
Proof. apply (populate_spec ins empty_index). constructor. Qed.

(** ** The traversal *)

Lemma filter_none {A} (P : A -> Prop) `{!forall x, Decision (P x)} l :
  Forall (fun x => ~ P x) l -> filter P l = [].
Proof.
  induction 1 as [|x l Hx _ IH]; [done|].
  by rewrite filter_cons, decide_False.
Qed.

(** Without a limit, on entries ordered so that once the far bound is
    passed it stays passed, the traversal keeps exactly the visible
    entries between the bounds. *)
Lemma scan_loop_filter visible started past es :
  StronglySorted (fun e1 e2 : Entry => past e1.1 = true -> past e2.1 = true) es ->
  scan_loop visible started past None es
  = filter (fun e => started e.1 && negb (past e.1) && visible e.2) es.
Proof.
  induction 1 as [|e es Hs IH Hall]; [done|].
  cbn [scan_loop fmap option_fmap option_map]. rewrite IH, filter_cons. clear IH.
  destruct (past e.1) eqn:Hpast.
  - rewrite andb_false_r. simpl.
    symmetry. apply filter_none.
    eapply Forall_impl; [exact Hall|]. simpl. intros x Hx.
    rewrite (Hx eq_refl), andb_false_r. simpl. by intros [].
  - rewrite andb_true_r.
    by destruct (started e.1 && visible e.2).
Qed.

(** The traversal with a limit is a prefix of the traversal without. *)
Lemma scan_loop_limit visible started past n es :
  scan_loop visible started past (Some n) es
  = take n (scan_loop visible started past None es).
Proof.
  revert n. induction es as [|e es IH]; intros n.
  - by destruct n.
  - cbn [scan_loop fmap option_fmap option_map]. destruct n as [|n]; [done|].
    destruct (past e.1); [done|].
    destruct (started e.1 && visible e.2); simpl.
    + by rewrite IH.
    + apply IH.
Qed.

Lemma StronglySorted_filter {A} (R : relation A) (P : A -> Prop)
    `{!forall x, Decision (P x)} l :
  StronglySorted R l -> StronglySorted R (filter P l).
Proof.
  induction 1 as [|x l Hs IH Hall]; [constructor|].
  rewrite filter_cons. destruct (decide (P x)); [|done].
  constructor; [done|]. apply Forall_forall. intros y Hy.
  apply list_elem_of_filter in Hy as [_ Hy].
  by eapply Forall_forall in Hall.
Qed.

Lemma filter_ext_Forall {A} (P Q : A -> Prop)
    `{!forall x, Decision (P x)} `{!forall x, Decision (Q x)} l :
  Forall (fun x => P x <-> Q x) l -> filter P l = filter Q l.
Proof.
  induction 1 as [|x l Hx _ IH]; [done|].
  rewrite !filter_cons, IH.
  destruct (decide (P x)), (decide (Q x)); tauto.
Qed.

Lemma StronglySorted_mono {A} (R1 R2 : relation A) l :
  (forall x y, R1 x y -> R2 x y) -> StronglySorted R1 l -> StronglySorted R2 l.
Proof.
  intros HR. induction 1 as [|x l Hs IH Hall]; constructor; [done|].
  eapply Forall_impl; [exact Hall|]. apply HR.
Qed.

Lemma StronglySorted_reverse {A} (R : relation A) `{!Transitive R} l :
  StronglySorted R l -> StronglySorted (flip R) (reverse l).
Proof.
  intros Hs. apply (Sorted_StronglySorted _ _).
  by apply Sorted_reverse, StronglySorted_Sorted.
Qed.

(** ** The scans as filters of the ordered entries *)

Section ScanSpec.
Variable db : Database.
Variable txn : TransactionContext.
Variable idx : BwTreeIndex.
Hypothesis idx_sorted : StronglySorted key_le (entries idx).

(** The entries a scan of [[lo, hi]] selects. *)
Definition selected (lo hi : Z) (e : Entry) : Prop :=
  in_range lo hi e = true /\ slot_visible db txn e.2 = true.

Lemma ascending_filter lo hi :
  ascending db txn idx lo hi None = filter (selected lo hi) (entries idx).
Proof.
  unfold ascending. rewrite scan_loop_filter.
  - apply list_filter_iff. intros e. unfold selected, in_range.
    destruct (slot_visible db txn e.2);
      [|rewrite andb_false_r; simpl; split; [intros []|intros [_ ?]; done]].
    rewrite andb_true_r.
    destruct (Z.leb_spec lo e.1), (Z.ltb_spec hi e.1), (Z.leb_spec e.1 hi);
      simpl; try lia; intuition (done || lia).
  - eapply StronglySorted_mono; [|exact idx_sorted].
    unfold key_le. intros x y Hxy Hx. apply Z.ltb_lt. apply Z.ltb_lt in Hx. lia.
Qed.

Lemma descending_filter lo hi :
  descending db txn idx lo hi None
  = reverse (filter (selected lo hi) (entries idx)).
Proof.
  unfold descending. rewrite scan_loop_filter.
  - rewrite filter_reverse. f_equal.
    apply list_filter_iff. intros e. unfold selected, in_range.
    destruct (slot_visible db txn e.2);
      [|rewrite andb_false_r; simpl; split; [intros []|intros [_ ?]; done]].
    rewrite andb_true_r.
    destruct (Z.leb_spec lo e.1), (Z.ltb_spec e.1 lo), (Z.leb_spec e.1 hi);
      simpl; try lia; intuition (done || lia).
  - eapply StronglySorted_mono; [|apply (StronglySorted_reverse key_le), idx_sorted].
    unfold flip, key_le. intros x y Hxy Hx.
    apply Z.ltb_lt. apply Z.ltb_lt in Hx. lia.
Qed.

Lemma descending_reverse lo hi :
  descending db txn idx lo hi None = reverse (ascending db txn idx lo hi None).
Proof. by rewrite descending_filter, ascending_filter. Qed.

Lemma ascending_limit lo hi n :
  ascending db txn idx lo hi (Some n) = take n (ascending db txn idx lo hi None).
Proof. apply scan_loop_limit. Qed.

Lemma descending_limit lo hi n :
  descending db txn idx lo hi (Some n) = take n (descending db txn idx lo hi None).
Proof. apply scan_loop_limit. Qed.

Lemma ascending_sorted lo hi :
  StronglySorted Z.le (ascending db txn idx lo hi None).*1.
Proof.
  rewrite ascending_filter.
  apply (StronglySorted_fmap _ key_le); [done|].
  by apply StronglySorted_filter.
Qed.

End ScanSpec.

(** C2.  An index is populated with the entries [ins], all of them
    committed so that the scanning transaction sees their slots.  For
    every pair of bounds there is a list [es] of entries such that:
    [es] holds exactly the inserted entries whose key lies in
    [[lo, hi]], in non-decreasing key order; ScanAscending returns the
    slots of [es] and ScanDescending the slots of [es] reversed (keys
    non-increasing); ScanLimitAscending and ScanLimitDescending return
    the first [n] results of the full scans, so at most [n] results
    and a prefix of the full scan; an entry whose key is [lo] or [hi]
    itself is returned. *)
Theorem scans_are_ordered_range_filters
    (db : Database) (txn : TransactionContext) (ins : list Entry)
    (lo hi : Z) (n : nat) :
  Forall (fun e => slot_visible db txn e.2 = true) ins ->
  let idx := populate ins empty_index in
  exists es : list Entry,
    es ≡ₚ filter (fun e => in_range lo hi e = true) ins /\
    StronglySorted Z.le es.*1 /\
    StronglySorted (flip Z.le) (reverse es).*1 /\
    ScanAscending db txn idx lo hi = es.*2 /\
    ScanDescending db txn idx lo hi = (reverse es).*2 /\
    ScanLimitAscending db txn idx lo hi n
      = take n (ScanAscending db txn idx lo hi) /\
    ScanLimitDescending db txn idx lo hi n
      = take n (ScanDescending db txn idx lo hi) /\
    length (ScanLimitAscending db txn idx lo hi n) <= n /\
    length (ScanLimitDescending db txn idx lo hi n) <= n /\
    ScanLimitAscending db txn idx lo hi n
      `prefix_of` ScanAscending db txn idx lo hi /\
    ScanLimitDescending db txn idx lo hi n
      `prefix_of` ScanDescending db txn idx lo hi /\
    (forall k slot, (k, slot) ∈ ins -> (k = lo \/ k = hi) -> (lo <= hi)%Z ->
       slot ∈ ScanAscending db txn idx lo hi /\
       slot ∈ ScanDescending db txn idx lo hi).
Proof.
  intros Hvis idx.
  destruct (populate_empty ins) as [Hs Hp]. fold idx in Hs, Hp.
  assert (Hsel : ascending db txn idx lo hi None
                 ≡ₚ filter (fun e => in_range lo hi e = true) ins).
  { rewrite (ascending_filter db txn idx Hs), Hp.
    apply reflexive_eq, filter_ext_Forall.
    eapply Forall_impl; [exact Hvis|]. unfold selected. tauto. }
  exists (ascending db txn idx lo hi None).
  assert (Hasc : ScanLimitAscending db txn idx lo hi n
                 = take n (ScanAscending db txn idx lo hi)).
  { unfold ScanLimitAscending, ScanAscending.
    by rewrite ascending_limit, fmap_take. }
  assert (Hdesc : ScanLimitDescending db txn idx lo hi n
                  = take n (ScanDescending db txn idx lo hi)).
  { unfold ScanLimitDescending, ScanDescending.
    by rewrite descending_limit, fmap_take. }
  split; [exact Hsel|].
  split; [by apply ascending_sorted|].
  split.
  { rewrite fmap_reverse.
    apply (StronglySorted_reverse Z.le). by apply ascending_sorted. }
  split; [done|].
  split; [unfold ScanDescending; by rewrite (descending_reverse db txn idx Hs)|].
  split; [done|]. split; [done|].
  split; [rewrite Hasc, length_take; lia|].
  split; [rewrite Hdesc, length_take; lia|].
  split; [rewrite Hasc; apply prefix_take|].
  split; [rewrite Hdesc; apply prefix_take|].
  intros k slot Hin Hk Hle.
  assert (Hmem : (k, slot) ∈ ascending db txn idx lo hi None).
  { rewrite Hsel. apply list_elem_of_filter. split; [|done].
    unfold in_range. simpl.
    apply andb_true_iff. split; apply Z.leb_le; lia. }
  split.
  - unfold ScanAscending.
    by apply (list_elem_of_fmap_2 snd _ (k, slot)).
  - unfold ScanDescending. rewrite (descending_reverse db txn idx Hs).
    apply (list_elem_of_fmap_2 snd _ (k, slot)). by apply elem_of_reverse.
Qed.

(** C2 on the index of the scan tests, the even keys 0, 2, ..., 20
    with the bounds [[8, 12]] and the limit 2: the slot of key [2 * i]
    is [i]. *)
Lemma scans_are_ordered_range_filters_witness :
  Forall (fun e => slot_visible Examples.scan_txn.2 Examples.scan_txn.1 e.2 = true)
         Examples.even_inserts.1 /\
  ScanAscending Examples.scan_txn.2 Examples.scan_txn.1
    Examples.even_index 8 12 = [4; 5; 6] /\
  ScanDescending Examples.scan_txn.2 Examples.scan_txn.1
    Examples.even_index 8 12 = [6; 5; 4] /\
  ScanLimitAscending Examples.scan_txn.2 Examples.scan_txn.1
    Examples.even_index 8 12 2 = [4; 5] /\
  ScanLimitAscending Examples.scan_txn.2 Examples.scan_txn.1
    Examples.even_index 8 12 2
  `prefix_of` ScanAscending Examples.scan_txn.2 Examples.scan_txn.1
    Examples.even_index 8 12.
Proof.
  assert (Hvis : Forall (fun e => slot_visible Examples.scan_txn.2
                                    Examples.scan_txn.1 e.2 = true)
                        Examples.even_inserts.1).
  { vm_compute. repeat constructor. }
  split; [exact Hvis|].
  destruct (scans_are_ordered_range_filters Examples.scan_txn.2
              Examples.scan_txn.1 Examples.even_inserts.1 8 12 2 Hvis)
    as (es & _ & _ & _ & _ & _ & _ & _ & _ & _ & Hpre & _).
  split; [vm_compute; reflexivity|].
  split; [vm_compute; reflexivity|].
  split; [vm_compute; reflexivity|].
  exact Hpre.
Defined.

(** ** Snapshot visibility *)








(** ** The version chain of a slot across the operations *)








End IndexSpec.

(** * Further properties of execution/vm/bytecodes.h *)
Module BytecodesProps.
Import Bytecodes BytecodesSpec.

(** ** The values of the enumeration *)

Lemma opcodes_lookup i e :
  opcodes !! i = Some e <->
  BYTECODE_LIST DECLARE_OP !! i = Some e.1 /\ e.2 = Z.of_nat i.
Proof.
  unfold opcodes, enumerate. rewrite list_lookup_imap.
  destruct (BYTECODE_LIST DECLARE_OP !! i) as [inst|]; simpl.
  - destruct e as [inst' v]. simpl. split.
    + by intros [= -> ->].
    + by intros [[= ->] ->].
  - split; [done|]. by intros [? _].
Qed.

Lemma names_NoDup : NoDup (BYTECODE_LIST DECLARE_OP).
Proof. apply (bool_decide_unpack _). vm_compute. exact I. Qed.

(** X17.  The values [FromByte] accepts are the values of the declared
    opcodes: every value from 0 to [Last] belongs to an opcode, to
    one only, and no opcode name has two values. *)
Theorem FromByte_accepts_the_opcodes :
  (forall val b, FromByte val = Some b <->
                 b = val /\ exists inst, (inst, val) ∈ opcodes) /\
  (forall inst inst' val, (inst, val) ∈ opcodes -> (inst', val) ∈ opcodes ->
                          inst = inst') /\
  (forall inst val val', (inst, val) ∈ opcodes -> (inst, val') ∈ opcodes ->
                         val = val').
Proof.
  split; [|split].
  - intros val b. unfold FromByte, valid_bytecode. rewrite Last_value. split.
    + destruct (Z.leb_spec 0 val), (Z.leb_spec val 398); simpl; try done.
      intros [= <-]. split; [done|].
      destruct (lookup_lt_is_Some_2 (BYTECODE_LIST DECLARE_OP) (Z.to_nat val))
        as [inst Hinst].
      { rewrite BYTECODE_LIST_length. lia. }
      exists inst. apply list_elem_of_lookup. exists (Z.to_nat val).
      apply opcodes_lookup. simpl. split; [done|lia].
    + intros [-> [inst Hin]]. apply enumerate_bound in Hin.
      rewrite BYTECODE_LIST_length in Hin. simpl in Hin.
      destruct (Z.leb_spec 0 val), (Z.leb_spec val 398); simpl; try done; lia.
  - intros inst inst' val [i Hi]%list_elem_of_lookup [j Hj]%list_elem_of_lookup.
    apply opcodes_lookup in Hi as [Hi Hvi], Hj as [Hj Hvj]. simpl in *.
    assert (i = j) as -> by lia. congruence.
  - intros inst val val' [i Hi]%list_elem_of_lookup [j Hj]%list_elem_of_lookup.
    apply opcodes_lookup in Hi as [Hi Hvi], Hj as [Hj Hvj]. simpl in *.
    assert (i = j) as -> by (by eapply NoDup_lookup; [apply names_NoDup|..]).
    congruence.
Qed.

(** ** Jumps, calls and terminal instructions *)

Lemma bytecode_is_true b inst v :
  enumerator inst = Some v -> bytecode_is b inst = bool_decide (b = v).
Proof.
  intros Hv. unfold bytecode_is. rewrite Hv. apply bool_decide_ext.
  split; [by intros [= ->]|by intros ->].
Qed.

(** X18.  A call is neither a jump nor terminal; the conditional jumps are
    jumps and not terminal; a return is terminal and no jump; the
    unconditional jump is the only instruction that is both. *)
Theorem jump_call_terminal b :
  (IsCall b = true -> IsJump b = false /\ IsTerminal b = false) /\
  (enumerator "JumpIfTrue" = Some b \/ enumerator "JumpIfFalse" = Some b ->
   IsJump b = true /\ IsTerminal b = false) /\
  (enumerator "Return" = Some b -> IsTerminal b = true /\ IsJump b = false) /\
  (IsJump b = true /\ IsTerminal b = true <-> enumerator "Jump" = Some b).
Proof.
  assert (HJ : enumerator "Jump" = Some 129) by (vm_compute; reflexivity).
  assert (HT : enumerator "JumpIfTrue" = Some 130) by (vm_compute; reflexivity).
  assert (HF : enumerator "JumpIfFalse" = Some 131) by (vm_compute; reflexivity).
  assert (HC : enumerator "Call" = Some 151) by (vm_compute; reflexivity).
  assert (HR : enumerator "Return" = Some 152) by (vm_compute; reflexivity).
  unfold IsCall, IsJump, IsTerminal.
  rewrite (bytecode_is_true b _ _ HJ), (bytecode_is_true b _ _ HT),
    (bytecode_is_true b _ _ HF), (bytecode_is_true b _ _ HC),
    (bytecode_is_true b _ _ HR), HJ, HT, HF, HR.
  split; [|split; [|split; [|split]]].
  - intros ->%bool_decide_eq_true. by split.
  - intros [[= <-]|[= <-]]; by split.
  - intros [= <-]. by split.
  - intros [Hj Ht]. f_equal.
    destruct (decide (b = 129)) as [->|Hne]; [done|].
    rewrite (bool_decide_eq_false_2 (b = 129)) in Ht by done. simpl in Ht.
    apply bool_decide_eq_true in Ht as ->. done.
  - intros [= <-]. by split.
Qed.

(** ** The opcodes of one operation for the integer types *)

(** The type suffixes in the order of [CREATE_FOR_INT_TYPES]. *)
Definition int_types : list string :=
  ["i8"; "i16"; "i32"; "i64"; "u8"; "u16"; "u32"; "u64"].

(** [s] without the suffix it ends in. *)
Fixpoint strip_suffix (suffix s : string) : option string :=
  if decide (s = suffix) then Some EmptyString
  else match s with
       | EmptyString => None
       | String c s' => String c <$> strip_suffix suffix s'
       end.

Lemma length_append s1 s2 :
  String.length (s1 +:+ s2) = (String.length s1 + String.length s2)%nat.
Proof. induction s1 as [|c s1 IH]; simpl; [done|]. by rewrite IH. Qed.

Lemma strip_suffix_app suffix op : strip_suffix suffix (op +:+ suffix) = Some op.
Proof.
  induction op as [|c op IH].
  - simpl. destruct suffix; simpl; first [done | by rewrite decide_True].
  - change (String c op +:+ suffix) with (String c (op +:+ suffix)).
    cbn [strip_suffix]. rewrite decide_False.
    + by rewrite IH.
    + intros Heq. apply (f_equal String.length) in Heq.
      simpl in Heq. rewrite length_append in Heq. lia.
Qed.

(** The enumerators after [base], one per type of [types], follow
    it one by one. *)
Definition family_follows (types : list string) (op : string) (base : Z) : bool :=
  forallb (fun kt : nat * string =>
             bool_decide (enumerator (op +:+ "_" +:+ kt.2) = Some (base + Z.of_nat kt.1)))
          (imap pair types).

Definition family_ok (first : string) (types : list string) (e : string * Z) : bool :=
  match strip_suffix first e.1 with
  | Some op => family_follows types op e.2
  | None => true
  end.

Lemma families_ok : forallb (family_ok "_i8" int_types) Bytecode = true.
Proof. vm_compute; reflexivity. Qed.

Lemma family_from_base first types op b :
  forallb (family_ok first types) Bytecode = true ->
  enumerator (op +:+ first) = Some b ->
  forall k ty, types !! k = Some ty ->
    enumerator (op +:+ "_" +:+ ty) = Some (b + Z.of_nat k).
Proof.
  intros Hall Hbase k ty Hty. unfold enumerator in Hbase.
  destruct (list_find _ Bytecode) as [[i e]|] eqn:Hfind; [|done].
  simpl in Hbase. injection Hbase as <-.
  apply list_find_Some in Hfind as (Hi & Hname & _).
  assert (Hall' : Forall (Is_true ∘ family_ok first types) Bytecode).
  { apply forallb_True. by rewrite Hall. }
  rewrite Forall_forall in Hall'.
  specialize (Hall' e ltac:(by eapply list_elem_of_lookup_2)).
  unfold compose, family_ok in Hall'. rewrite Hname, strip_suffix_app in Hall'.
  unfold family_follows in Hall'. apply forallb_True in Hall'.
  rewrite Forall_forall in Hall'.
  specialize (Hall' (k, ty)). simpl in Hall'.
  apply (bool_decide_unpack _), Hall'.
  apply list_elem_of_lookup. exists k. by rewrite list_lookup_imap, Hty.
Qed.

(** X19.  The opcodes [CREATE_FOR_INT_TYPES] declares for an operation
    have consecutive values in the order i8, i16, i32, i64, u8, u16,
    u32, u64, starting at [GET_BASE_FOR_INT_TYPES(op)]: the opcode of
    the [k]-th integer type is the base plus [k]. *)
Theorem typed_opcodes_follow_their_base op b :
  enumerator (GET_BASE_FOR_INT_TYPES op) = Some b ->
  forall k ty, int_types !! k = Some ty ->
    enumerator (op +:+ "_" +:+ ty) = Some (b + Z.of_nat k).
Proof. apply family_from_base, families_ok. Qed.

Lemma typed_opcodes_follow_their_base_witness :
  enumerator (GET_BASE_FOR_INT_TYPES "Sub") = Some 16 /\
  forall k ty, int_types !! k = Some ty ->
    enumerator ("Sub" +:+ "_" +:+ ty) = Some (16 + Z.of_nat k).
Proof.
  split; [vm_compute; reflexivity|].
  apply (typed_opcodes_follow_their_base "Sub" 16).
  vm_compute. reflexivity.
Defined.

End BytecodesProps.

(** * Further properties of execution/compiler/compiler.cpp *)
Module CompilerProps.
Import PlanNode Ast Compiler CompilerSpec.
Local Open Scope nat_scope.

(** ** When the compiler can be constructed *)

(** The children [MakePipelines] asks a node of each type for. *)
Definition required_children (ty : PlanNodeType) : nat :=
  match ty with
  | AGGREGATE | ORDERBY => 1
  | HASHJOIN | NESTLOOP => 2
  | _ => 0
  end.

(** [node] has fewer children than the walk asks it for. *)
Definition short (node : AbstractPlanNode) : Prop :=
  GetChildrenSize node < required_children (GetPlanNodeType node).

(** The nodes the walk from [op] reaches. *)
Inductive visits : AbstractPlanNode -> AbstractPlanNode -> Prop :=
| visits_here op : visits op op
| visits_below op c node :
    c ∈ visited_children op -> visits c node -> visits op node.

Lemma split_pipelines_short op node :
  visits op node -> short node -> forall path, split_pipelines op path = None.
Proof.
  induction 1 as [[ty s cs]|[ty s cs] c node Hc Hv IH]; intros Hshort path.
  - unfold short, GetChildrenSize in Hshort. simpl in Hshort.
    destruct ty; simpl in Hshort; try lia;
      destruct cs as [|c0 [|c1 cs']]; simpl in Hshort; try lia; reflexivity.
  - specialize (IH Hshort). unfold visited_children in Hc. simpl in Hc.
    destruct ty; destruct cs as [|c0 [|c1 cs']]; simpl in Hc;
      repeat (apply elem_of_cons in Hc as [->|Hc]);
      try (by apply elem_of_nil in Hc);
      simpl; rewrite ?IH; try reflexivity;
      by destruct (split_pipelines c0 (path ++ [0])) as [[? ?]|].
Qed.

Lemma split_pipelines_None op :
  forall path, split_pipelines op path = None -> exists node, visits op node /\ short node.
Proof.
  induction op as [ty s cs IH] using plan_induction. intros path Hnone.
  assert (Hhere : short (PlanNodeOf ty s cs) ->
                  exists node, visits (PlanNodeOf ty s cs) node /\ short node).
  { intros Hs. exists (PlanNodeOf ty s cs). split; [constructor|done]. }
  assert (Hbelow : forall c p, c ∈ cs ->
            c ∈ visited_children (PlanNodeOf ty s cs) ->
            split_pipelines c p = None ->
            exists node, visits (PlanNodeOf ty s cs) node /\ short node).
  { intros c p Hin Hvis Hc. rewrite Forall_forall in IH.
    destruct (IH c Hin p Hc) as (node & Hv & Hs).
    exists node. split; [|done]. by eapply visits_below. }
  unfold short, GetChildrenSize, visited_children in *. simpl in *.
  destruct ty; destruct cs as [|c0 [|c1 cs']]; simpl in *;
    try discriminate; try (apply Hhere; lia);
    try (destruct (split_pipelines c0 (path ++ [0])) as [[a0 f0]|] eqn:H0;
         [|apply (Hbelow c0 (path ++ [0])); [by left|by left|done]]);
    try discriminate;
    try (destruct (split_pipelines c1 (path ++ [1])) as [[a1 f1]|] eqn:H1;
         [|apply (Hbelow c1 (path ++ [1])); [by right; left|by right; left|done]]);
    try discriminate.
Qed.

(** X10.  The constructor fails exactly for the plans in which the walk
    reaches an aggregation or a sort without a child, or a join with
    fewer than two children. *)
Theorem new_Compiler_fails_iff plan :
  new_Compiler plan = None <->
  exists node, visits plan node /\ short node.
Proof.
  pose proof (new_Compiler_pipelines plan) as Hc. unfold pipelines_of in Hc.
  split.
  - intros Hnone. apply (split_pipelines_None plan []).
    destruct (split_pipelines plan []) as [[a f]|]; [|done].
    destruct Hc as (c & Hsome & _). congruence.
  - intros (node & Hv & Hs).
    by rewrite (split_pipelines_short _ _ Hv Hs []) in Hc.
Qed.

(** ** Children the walk does not look at *)

(** The plan without the children the walk never asks for. *)
Fixpoint prune (op : AbstractPlanNode) : AbstractPlanNode :=
  match op with
  | PlanNodeOf ty s cs =>
      PlanNodeOf ty s
        (match ty with
         | HASHJOIN | NESTLOOP => take 2 (map prune cs)
         | _ => take 1 (map prune cs)
         end)
  end.

Lemma MakePipelines_prune op :
  forall path curr c,
    MakePipelines (prune op) path curr c = MakePipelines op path curr c.
Proof.
  induction op as [ty s cs IH] using plan_induction. intros path curr c.
  destruct cs as [|c0 [|c1 cs']].
  - by destruct ty.
  - apply Forall_cons_1 in IH as [IH0 _].
    destruct ty; simpl; rewrite ?IH0; reflexivity.
  - apply Forall_cons_1 in IH as [IH0 IH]. apply Forall_cons_1 in IH as [IH1 _].
    destruct ty; simpl; rewrite ?IH0; try reflexivity.
    + destruct (MakePipelines c0 (path ++ [0]) curr c); [|done].
      by rewrite IH1.
    + destruct (MakePipelines c0 (path ++ [0]) _ _); [|done].
      by rewrite IH1.
Qed.

(** X11.  The compiler for a plan is the compiler for the plan with every
    child beyond the first of a node, and beyond the second of a
    join, removed: those children are never translated. *)
Theorem new_Compiler_prune plan : new_Compiler (prune plan) = new_Compiler plan.
Proof.
  unfold new_Compiler. simpl. rewrite MakePipelines_prune.
  by destruct plan.
Qed.

(** ** The pipelines of the compiler *)

(** The nodes the walk reaches, with their positions: the walk of
    [op], at position [path], reaches [node] at position [p]. *)
Inductive visits_at :
    AbstractPlanNode -> list nat -> AbstractPlanNode -> list nat -> Prop :=
| visits_at_here op path : visits_at op path op path
| visits_at_below op path k c node p :
    visited_children op !! k = Some c ->
    visits_at c (path ++ [k]) node p ->
    visits_at op path node p.

(** The translators [MakePipelines] asks the factory for at a node. *)
Definition made_at (node : AbstractPlanNode) (p : list nat)
    : list OperatorTranslator :=
  let this := ref_of p node in
  match GetPlanNodeType node with
  | AGGREGATE | ORDERBY =>
      [BottomTranslator this; TopTranslator this (BottomTranslator this)]
  | HASHJOIN | NESTLOOP =>
      [LeftTranslator this; RightTranslator this (LeftTranslator this)]
  | _ => [RegularTranslator this]
  end.

(** The translators made while the compiler for [plan] is
    constructed: those of the nodes the walk reaches, and the output
    translator when the plan has an output schema. *)
Definition made (plan : AbstractPlanNode) (t : OperatorTranslator) : Prop :=
  (exists node p, visits_at plan [] node p /\ t ∈ made_at node p) \/
  (t = OutputTranslator /\ is_Some (GetOutputSchema plan)).

Ltac elems :=
  repeat first [rewrite concat_app | rewrite concat_cons | rewrite concat_nil
               | rewrite elem_of_app | rewrite elem_of_cons
               | rewrite elem_of_nil ].

Ltac split_ors :=
  repeat match goal with H : _ \/ _ |- _ => destruct H as [H|H] end.

Lemma split_pipelines_here op path a f :
  split_pipelines op path = Some (a, f) ->
  forall t, t ∈ made_at op path -> t ∈ a ++ concat f.
Proof.
  destruct op as [ty s cs]. intros Hs t. apply split_pipelines_shape in Hs.
  simpl in Hs. unfold made_at, ref_of. simpl.
  destruct ty;
    try (destruct Hs as [(_ & -> & ->)|(child0 & cs' & a0 & _ & _ & ->)];
         elems; tauto).
  - destruct Hs as (c0 & c1 & cs' & a0 & f0 & a1 & f1 & _ & _ & _ & -> & ->).
    elems. tauto.
  - destruct Hs as (c0 & c1 & cs' & a0 & f0 & a1 & f1 & _ & _ & _ & -> & ->).
    elems. tauto.
  - destruct Hs as (c0 & cs' & a0 & f0 & _ & _ & -> & ->). elems. tauto.
  - destruct Hs as (c0 & cs' & a0 & f0 & _ & _ & -> & ->). elems. tauto.
Qed.

Lemma split_pipelines_child op path a f k c :
  split_pipelines op path = Some (a, f) ->
  visited_children op !! k = Some c ->
  exists a' f', split_pipelines c (path ++ [k]) = Some (a', f') /\
    forall t, t ∈ a' ++ concat f' -> t ∈ a ++ concat f.
Proof.
  destruct op as [ty s cs]. intros Hs Hk. apply split_pipelines_shape in Hs.
  unfold visited_children in Hk. simpl in Hs, Hk.
  destruct ty;
    try (destruct Hs as [(-> & _ & _)|(child0 & cs' & a0 & -> & Hs0 & ->)];
         [done|destruct k; [|done]; simpl in Hk; injection Hk as <-;
               exists a0, f; split; [done|intros t; elems; tauto]]).
  - destruct Hs as (c0 & c1 & cs' & a0 & f0 & a1 & f1 & -> & Hs0 & Hs1 & -> & ->).
    destruct k as [|[|k]]; simpl in Hk; [| |done]; injection Hk as <-.
    + exists a0, f0. split; [done|]. intros t. elems. tauto.
    + exists a1, f1. split; [done|]. intros t. elems. tauto.
  - destruct Hs as (c0 & c1 & cs' & a0 & f0 & a1 & f1 & -> & Hs0 & Hs1 & -> & ->).
    destruct k as [|[|k]]; simpl in Hk; [| |done]; injection Hk as <-.
    + exists a0, f0. split; [done|]. intros t. elems. tauto.
    + exists a1, f1. split; [done|]. intros t. elems. tauto.
  - destruct Hs as (c0 & cs' & a0 & f0 & -> & Hs0 & -> & ->).
    destruct k; [|done]. simpl in Hk. injection Hk as <-.
    exists a0, f0. split; [done|]. intros t. elems. tauto.
  - destruct Hs as (c0 & cs' & a0 & f0 & -> & Hs0 & -> & ->).
    destruct k; [|done]. simpl in Hk. injection Hk as <-.
    exists a0, f0. split; [done|]. intros t. elems. tauto.
Qed.

Lemma split_pipelines_holds_made op path node p :
  visits_at op path node p ->
  forall a f, split_pipelines op path = Some (a, f) ->
  forall t, t ∈ made_at node p -> t ∈ a ++ concat f.
Proof.
  induction 1 as [op path|op path k c node p Hk Hv IH]; intros a f Hs t Ht.
  - by eapply split_pipelines_here.
  - destruct (split_pipelines_child _ _ _ _ _ _ Hs Hk) as (a' & f' & Hs' & Hsub).
    apply Hsub. by eapply IH.
Qed.

Lemma split_pipelines_only_made op :
  forall path a f, split_pipelines op path = Some (a, f) ->
  forall t, t ∈ a ++ concat f ->
    exists node p, visits_at op path node p /\ t ∈ made_at node p.
Proof.
  induction op as [ty s cs IH] using plan_induction.
  intros path a f Hs t Ht.
  assert (Hhere : t ∈ made_at (PlanNodeOf ty s cs) path ->
            exists node p, visits_at (PlanNodeOf ty s cs) path node p /\
                           t ∈ made_at node p).
  { intros Hin. exists (PlanNodeOf ty s cs), path. split; [constructor|done]. }
  assert (Hbelow : forall k c a' f',
            visited_children (PlanNodeOf ty s cs) !! k = Some c ->
            cs !! k = Some c ->
            split_pipelines c (path ++ [k]) = Some (a', f') ->
            t ∈ a' ++ concat f' ->
            exists node p, visits_at (PlanNodeOf ty s cs) path node p /\
                           t ∈ made_at node p).
  { intros k c a' f' Hk Hck Hs' Hin.
    pose proof (proj1 (Forall_lookup _ _) IH k c Hck) as IHc.
    destruct (IHc _ _ _ Hs' t Hin) as (node & p & Hv & Hm).
    exists node, p. split; [|done]. by eapply visits_at_below. }
  apply split_pipelines_shape in Hs. simpl in Hs.
  unfold made_at, ref_of in Hhere. simpl in Hhere.
  unfold visited_children in Hbelow. simpl in Hbelow.
  destruct ty;
    try (destruct Hs as [(-> & -> & ->)|(child0 & cs' & a0 & -> & Hs0 & ->)];
         [apply Hhere; revert Ht; elems; tauto
         |revert Ht; elems; intros Ht; split_ors;
          first [apply Hhere; elems; tauto
                |apply (Hbelow 0 child0 a0 f eq_refl eq_refl Hs0); elems; tauto]]).
  - destruct Hs as (c0 & c1 & cs' & a0 & f0 & a1 & f1 & -> & Hs0 & Hs1 & -> & ->).
    revert Ht. elems. intros Ht. split_ors;
      first [apply Hhere; elems; tauto
            |apply (Hbelow 0 c0 a0 f0 eq_refl eq_refl Hs0); elems; tauto
            |apply (Hbelow 1 c1 a1 f1 eq_refl eq_refl Hs1); elems; tauto].
  - destruct Hs as (c0 & c1 & cs' & a0 & f0 & a1 & f1 & -> & Hs0 & Hs1 & -> & ->).
    revert Ht. elems. intros Ht. split_ors;
      first [apply Hhere; elems; tauto
            |apply (Hbelow 0 c0 a0 f0 eq_refl eq_refl Hs0); elems; tauto
            |apply (Hbelow 1 c1 a1 f1 eq_refl eq_refl Hs1); elems; tauto].
  - destruct Hs as (c0 & cs' & a0 & f0 & -> & Hs0 & -> & ->).
    revert Ht. elems. intros Ht. split_ors;
      first [apply Hhere; elems; tauto
            |apply (Hbelow 0 c0 a0 f0 eq_refl eq_refl Hs0); elems; tauto].
  - destruct Hs as (c0 & cs' & a0 & f0 & -> & Hs0 & -> & ->).
    revert Ht. elems. intros Ht. split_ors;
      first [apply Hhere; elems; tauto
            |apply (Hbelow 0 c0 a0 f0 eq_refl eq_refl Hs0); elems; tauto].
Qed.

Lemma elem_of_concat_inv {A} (P : list (list A)) x :
  x ∈ concat P -> exists i ts, P !! i = Some ts /\ x ∈ ts.
Proof.
  induction P as [|l P IH]; simpl; [by intros ?%elem_of_nil|].
  intros [Hx|Hx]%elem_of_app.
  - by exists 0, l.
  - destruct (IH Hx) as (i & ts & Hi & Hts). by exists (S i), ts.
Qed.

(** X12.  The pipelines of [pipelines_] hold exactly the translators
    made while the compiler is constructed: every translator made for
    a node the walk reaches, and the output translator of a plan with
    an output schema, is in a pipeline, and the pipelines hold nothing
    else.  Each is in one pipeline only, and once: no two pipelines
    share a translator, and no pipeline holds a translator twice. *)
Theorem translator_in_one_pipeline plan c :
  new_Compiler plan = Some c ->
  (forall t, made plan t <-> exists i, in_pipeline c i t) /\
  (forall i j t, in_pipeline c i t -> in_pipeline c j t -> i = j) /\
  (forall i p pl, pipelines_ c !! i = Some p -> heap c !! p = Some pl ->
                  NoDup (translators pl)).
Proof.
  intros Hnew. pose proof (new_Compiler_pipelines plan) as Hc.
  destruct (pipelines_of plan) as [P|] eqn:HP; [|congruence].
  destruct Hc as (c0 & Hc0 & _ & Hf). rewrite Hnew in Hc0. injection Hc0 as <-.
  destruct (pipelines_of_ordered _ _ HP) as (Hnd & _ & _).
  split; [|split].
  - assert (Hin : forall t, (exists i, in_pipeline c i t) <-> t ∈ concat P).
    { intros t. split.
      - intros [i Hi].
        apply (in_pipeline_contents _ _ _ _ Hf) in Hi as (ts & Hts & Ht).
        by eapply elem_of_concat_lookup.
      - intros (i & ts & Hts & Ht)%elem_of_concat_inv.
        exists i. apply (in_pipeline_contents _ _ _ _ Hf). by exists ts. }
    intros t. rewrite Hin. clear Hin Hf Hnd Hnew.
    unfold pipelines_of in HP.
    destruct (split_pipelines plan []) as [[a f]|] eqn:Hs; [|done].
    injection HP as <-. unfold made.
    assert (Hout : t ∈ match GetOutputSchema plan with
                       | Some _ => [OutputTranslator]
                       | None => []
                       end <-> t = OutputTranslator /\ is_Some (GetOutputSchema plan)).
    { destruct (GetOutputSchema plan) as [sch|].
      - rewrite list_elem_of_singleton. split; [by intros ->|by intros [-> _]].
      - rewrite elem_of_nil. split; [done|]. by intros [_ [? ?]]. }
    elems. rewrite Hout. split.
    + intros [(node & p & Hv & Hm)|Ho]; [|tauto].
      pose proof (split_pipelines_holds_made _ _ _ _ Hv _ _ Hs t Hm) as Hin.
      revert Hin. elems. tauto.
    + intros Ht.
      assert (Ht' : t ∈ a ++ concat f \/
                    t = OutputTranslator /\ is_Some (GetOutputSchema plan))
        by (elems; tauto).
      destruct Ht' as [Ht'|Ht']; [left|by right].
      by eapply split_pipelines_only_made.
  - intros i j t Hi Hj.
    apply (in_pipeline_contents _ _ _ _ Hf) in Hi as (ts & Hts & Ht).
    apply (in_pipeline_contents _ _ _ _ Hf) in Hj as (ts' & Hts' & Ht').
    by eapply NoDup_concat_unique.
  - intros i p pl Hp Hpl.
    destruct (Forall2_lookup_l _ _ _ _ _ Hf Hp) as (ts & Hts & Hlk).
    rewrite Hpl in Hlk. injection Hlk as ->. simpl.
    clear -Hnd Hts. revert i Hts.
    induction P as [|l P IHP]; intros i Hi; [by rewrite lookup_nil in Hi|].
    simpl in Hnd. apply NoDup_app in Hnd as (Hl & _ & Hrest).
    destruct i as [|i]; simpl in Hi.
    + by injection Hi as <-.
    + by eapply IHP.
Qed.

Lemma translator_in_one_pipeline_witness :
  new_Compiler Examples.join_agg_plan
  = Some (default empty_compiler (new_Compiler Examples.join_agg_plan)) /\
  (forall t,
     made Examples.join_agg_plan t <->
     exists i,
       in_pipeline (default empty_compiler (new_Compiler Examples.join_agg_plan)) i t) /\
  (forall i j t,
     in_pipeline (default empty_compiler (new_Compiler Examples.join_agg_plan)) i t ->
     in_pipeline (default empty_compiler (new_Compiler Examples.join_agg_plan)) j t ->
     i = j) /\
  (forall i p pl,
     pipelines_ (default empty_compiler (new_Compiler Examples.join_agg_plan)) !! i
     = Some p ->
     heap (default empty_compiler (new_Compiler Examples.join_agg_plan)) !! p = Some pl ->
     NoDup (translators pl)).
Proof.
  split; [vm_compute; reflexivity|].
  apply (translator_in_one_pipeline Examples.join_agg_plan).
  vm_compute. reflexivity.
Defined.

(** X13.  The main pipeline, the first object the constructor makes, is
    the last entry of [pipelines_].  It ends with the translator of
    the root of the plan, followed by the output translator when the
    plan has an output schema; the output translator is in no other
    pipeline, and in none when the plan has no output schema. *)
Theorem main_pipeline_is_last plan c :
  new_Compiler plan = Some c ->
  exists ts root_t,
    last (pipelines_ c) = Some 0 /\
    heap c !! 0 =
      Some {| translators := ts ++ [root_t]
                ++ match GetOutputSchema plan with
                   | Some _ => [OutputTranslator]
                   | None => []
                   end;
              pipeline_idx := None |} /\
    translated_op root_t = Some (ref_of [] plan) /\
    (OutputTranslator ∉ ts) /\
    (forall i, in_pipeline c i OutputTranslator ->
       GetOutputSchema plan <> None /\ S i = length (pipelines_ c)).
Proof.
  intros Hnew. pose proof (new_Compiler_pipelines plan) as Hc.
  unfold pipelines_of in Hc.
  destruct (split_pipelines plan []) as [[a f]|] eqn:Hs; [|congruence].
  destruct Hc as (c0 & Hc0 & _ & Hf). rewrite Hnew in Hc0. injection Hc0 as <-.
  destruct (split_pipelines_root _ _ _ _ Hs) as (ts & root_t & -> & Hroot).
  destruct (split_pipelines_fresh _ _ _ _ Hs) as [Hunder _].
  assert (Hno : forall t, t ∈ (ts ++ [root_t]) ++ concat f -> t <> OutputTranslator).
  { intros t Ht ->. rewrite Forall_forall in Hunder.
    destruct (Hunder _ Ht) as (r & Hr & _). done. }
  assert (Hlast : last (pipelines_ c) = Some 0 /\
                  heap c !! 0 = Some {| translators :=
                                          (ts ++ [root_t]) ++
                                          match GetOutputSchema plan with
                                          | Some _ => [OutputTranslator]
                                          | None => []
                                          end;
                                        pipeline_idx := None |}).
  { pose proof (Forall2_length _ _ _ Hf) as Hlen. rewrite length_app in Hlen.
    simpl in Hlen.
    destruct (Forall2_lookup_r _ _ _ _ _ Hf (list_lookup_middle f [] _ _ eq_refl))
      as (p & Hp & Hlk).
    assert (Hps : exists c1, pipelines_ c = pipelines_ c1 ++ [0]).
    { clear -Hnew. unfold new_Compiler in Hnew. simpl in Hnew.
      destruct (MakePipelines plan [] 0 _) as [c1|]; [|done].
      injection Hnew as <-. exists c1. by destruct (GetOutputSchema plan). }
    destruct Hps as [c1 Hps].
    assert (Hp0 : p = 0).
    { rewrite Hps in Hp, Hlen. rewrite length_app in Hlen. simpl in Hlen.
      rewrite lookup_app_r in Hp by lia.
      replace (length f - length (pipelines_ c1)) with 0 in Hp by lia.
      by injection Hp as <-. }
    subst p. split; [|done].
    rewrite last_lookup.
    replace (pred (length (pipelines_ c))) with (length f) by lia. done. }
  destruct Hlast as [Hlast Hmain].
  exists ts, root_t. split; [done|]. split; [by rewrite <- app_assoc in Hmain|].
  split; [done|]. split.
  { intros Hin. apply (Hno OutputTranslator); [|done].
    apply elem_of_app. left. apply elem_of_app. by left. }
  intros i Hi.
  apply (in_pipeline_contents _ _ _ _ Hf) in Hi as (ts' & Hts' & Ht).
  pose proof (Forall2_length _ _ _ Hf) as Hlen. rewrite length_app in Hlen.
  simpl in Hlen.
  apply lookup_app_Some in Hts' as [Hin|[Hge Hin]].
  - exfalso. apply (Hno OutputTranslator); [|done].
    apply elem_of_app. right. by eapply elem_of_concat_lookup.
  - destruct (i - length f) as [|k] eqn:Hk; simpl in Hin; [|by rewrite lookup_nil in Hin].
    injection Hin as <-. split; [|lia].
    apply elem_of_app in Ht as [Ht|Ht].
    + exfalso. apply (Hno OutputTranslator); [|done]. apply elem_of_app. by left.
    + destruct (GetOutputSchema plan); [done|]. by apply elem_of_nil in Ht.
Qed.

Lemma main_pipeline_is_last_witness :
  new_Compiler Examples.join_agg_plan
  = Some (default empty_compiler (new_Compiler Examples.join_agg_plan)) /\
  exists ts root_t,
    last (pipelines_ (default empty_compiler (new_Compiler Examples.join_agg_plan)))
    = Some 0 /\
    heap (default empty_compiler (new_Compiler Examples.join_agg_plan)) !! 0 =
      Some {| translators := ts ++ [root_t]
                ++ match GetOutputSchema Examples.join_agg_plan with
                   | Some _ => [OutputTranslator]
                   | None => []
                   end;
              pipeline_idx := None |} /\
    translated_op root_t = Some (ref_of [] Examples.join_agg_plan) /\
    (OutputTranslator ∉ ts) /\
    (forall i,
       in_pipeline (default empty_compiler (new_Compiler Examples.join_agg_plan)) i
         OutputTranslator ->
       GetOutputSchema Examples.join_agg_plan <> None /\
       S i = length (pipelines_ (default empty_compiler
                                   (new_Compiler Examples.join_agg_plan)))).
Proof.
  split; [vm_compute; reflexivity|].
  apply (main_pipeline_is_last Examples.join_agg_plan).
  vm_compute. reflexivity.
Defined.

(** X14.  The walk leaves every pipeline object that existed before it,
    other than the current one, as it was; and the pointers it
    pushes to [pipelines_] are exactly the pipeline objects it
    allocates, each pushed once: one per breaker it visits. *)
Theorem MakePipelines_registers_what_it_allocates op path curr c c' :
  curr < length (heap c) ->
  MakePipelines op path curr c = Some c' ->
  (forall p, p <> curr -> p < length (heap c) -> heap c' !! p = heap c !! p) /\
  length (heap c') = length (heap c) + breakers op /\
  exists ids, pipelines_ c' = pipelines_ c ++ ids /\
              ids ≡ₚ seq (length (heap c)) (breakers op).
Proof.
  intros Hcurr Hmk.
  pose proof (MakePipelines_split op path curr c Hcurr) as Hw.
  destruct (split_pipelines op path) as [[a f]|] eqn:Hs; [|congruence].
  destruct Hw as (c0 & Hc0 & ids & Hp & Hl & Hfr & _ & Hf & Hn).
  rewrite Hmk in Hc0. injection Hc0 as <-.
  pose proof (split_pipelines_breakers _ _ _ _ Hs) as Hb.
  pose proof (Forall2_length _ _ _ Hf) as Hlen.
  pose proof (walk_post_ids_lt _ _ _ _ Hf) as Hrange.
  split; [exact Hfr|]. split; [lia|].
  exists ids. split; [exact Hp|].
  apply submseteq_length_Permutation.
  - apply NoDup_submseteq; [exact Hn|].
    intros id Hid. rewrite Forall_forall in Hrange.
    apply elem_of_seq. specialize (Hrange id Hid). lia.
  - rewrite length_seq. lia.
Qed.

Lemma MakePipelines_registers_what_it_allocates_witness :
  0 < length (heap (alloc_pipeline empty_compiler).2) /\
  MakePipelines Examples.join_agg_plan [] 0 (alloc_pipeline empty_compiler).2
  = Some (default empty_compiler
            (MakePipelines Examples.join_agg_plan [] 0 (alloc_pipeline empty_compiler).2)) /\
  (forall p, p <> 0 -> p < length (heap (alloc_pipeline empty_compiler).2) ->
     heap (default empty_compiler
             (MakePipelines Examples.join_agg_plan [] 0
                (alloc_pipeline empty_compiler).2)) !! p
     = heap (alloc_pipeline empty_compiler).2 !! p) /\
  length (heap (default empty_compiler
                  (MakePipelines Examples.join_agg_plan [] 0
                     (alloc_pipeline empty_compiler).2)))
  = length (heap (alloc_pipeline empty_compiler).2) + breakers Examples.join_agg_plan /\
  exists ids,
    pipelines_ (default empty_compiler
                  (MakePipelines Examples.join_agg_plan [] 0
                     (alloc_pipeline empty_compiler).2))
    = pipelines_ (alloc_pipeline empty_compiler).2 ++ ids /\
    ids ≡ₚ seq (length (heap (alloc_pipeline empty_compiler).2))
              (breakers Examples.join_agg_plan).
Proof.
  split; [simpl; lia|]. split; [vm_compute; reflexivity|].
  apply (MakePipelines_registers_what_it_allocates Examples.join_agg_plan [] 0);
    [simpl; lia|vm_compute; reflexivity].
Defined.

(** ** The emitted file *)

Section FileProps.
Context `{CodeGen} `{TranslatorCode}.

(** X15.  The last declaration of the emitted file is [main], with the
    parameters of the main function and the return type int32.  It
    calls the setup function, one function per pipeline and the
    teardown function, and every function it calls is declared in
    the file, before [main], with the parameters of an execution
    function and no return value. *)
Theorem main_calls_are_declared plan top_level :
  compile_plan plan = Some top_level ->
  exists before main_body,
    top_level =
      before ++ [FunctionDecl GetMainFn MainParams (BuiltinType Int32) main_body] /\
    ExecCall GetSetupFn ∈ main_body /\
    ExecCall GetTeardownFn ∈ main_body /\
    (forall i, i < S (breakers plan) -> ExecCall (PipelineFn i) ∈ main_body) /\
    forall fn, ExecCall fn ∈ main_body ->
      exists l1 body l2,
        before = l1 ++ FunctionDecl fn ExecParams (BuiltinType Nil) body :: l2.
Proof.
  rewrite compile_plan_spec. destruct (pipelines_of plan) as [P|] eqn:HP; [|done].
  intros [= <-]. unfold compiled_file.
  destruct (pipelines_of_ordered _ _ HP) as (_ & _ & Hlen).
  set (v := initialized_vectors P).
  eexists _, _. split; [by rewrite !app_assoc|].
  split; [elems; auto 10|].
  split; [elems; auto 10|].
  split.
  { intros i Hi.
    assert (Hcall : ExecCall (PipelineFn i)
                    ∈ map (fun i => ExecCall (PipelineFn i)) (seq 0 (length P))).
    { apply list_elem_of_fmap. exists i. split; [done|]. apply elem_of_seq. lia. }
    elems. auto 10. }
  simpl. intros fn Hfn.
  apply elem_of_cons in Hfn as [Hfn|Hfn]; [done|].
  apply elem_of_cons in Hfn as [Hfn|Hfn].
  { injection Hfn as ->.
    eexists (_ :: decls v), _, _. simpl. f_equal.
    rewrite <- !app_assoc. simpl. reflexivity. }
  apply elem_of_app in Hfn as [Hfn|Hfn].
  - apply list_elem_of_fmap in Hfn as (i & Hfn & Hi). injection Hfn as ->.
    apply elem_of_seq in Hi. simpl in Hi.
    destruct (lookup_lt_is_Some_2 P i ltac:(lia)) as [ts Hts].
    assert (Hfnlk : pipeline_fns 0 P !! i
                    = Some (FunctionDecl (PipelineFn i) ExecParams (BuiltinType Nil)
                                         (emit_produce ts))).
    { unfold pipeline_fns. by rewrite list_lookup_imap, Hts. }
    apply take_drop_middle in Hfnlk.
    eexists (_ :: decls v ++ [_; _] ++ take i (pipeline_fns 0 P)), _, _.
    simpl. f_equal. rewrite <- Hfnlk at 1.
    rewrite <- !app_assoc. simpl. reflexivity.
  - apply elem_of_cons in Hfn as [Hfn|Hfn].
    + injection Hfn as ->.
      eexists (_ :: decls v ++ [_]), _, _. simpl. f_equal.
      rewrite <- !app_assoc. simpl. reflexivity.
    + apply elem_of_cons in Hfn as [Hfn|Hfn]; [done|]. by apply elem_of_nil in Hfn.
Qed.

(** X16.  The emitted file, in order: the state struct, the helper
    declarations of the translators, the setup function, the teardown
    function, one function per pipeline, named by its index, and
    [main], which declares the state variable, calls the setup
    function, the pipeline functions in their order and the teardown
    function, and returns.  The pipeline functions are one more than
    the breakers the walk visits. *)
Theorem emitted_file_layout plan top_level :
  compile_plan plan = Some top_level ->
  exists fields helpers setup teardown fns,
    top_level =
      [MakeStruct GetStateType fields] ++ helpers
      ++ [FunctionDecl GetSetupFn ExecParams (BuiltinType Nil) setup;
          FunctionDecl GetTeardownFn ExecParams (BuiltinType Nil) teardown]
      ++ fns
      ++ [FunctionDecl GetMainFn MainParams (BuiltinType Int32)
            ([DeclareVariable GetStateVar (MakeExpr GetStateType) None;
              ExecCall GetSetupFn]
             ++ map (fun i => ExecCall (PipelineFn i)) (seq 0 (length fns))
             ++ [ExecCall GetTeardownFn; ReturnStmt (IntLiteral 37)])] /\
    length fns = S (breakers plan) /\
    forall i fn, fns !! i = Some fn ->
      exists body, fn = FunctionDecl (PipelineFn i) ExecParams (BuiltinType Nil) body.
Proof.
  rewrite compile_plan_spec.
  destruct (pipelines_of plan) as [P|] eqn:HP; [|done].
  intros [= <-]. unfold compiled_file.
  destruct (pipelines_of_ordered _ _ HP) as (_ & _ & Hlen).
  assert (Hfns : length (pipeline_fns 0 P) = length P)
    by (unfold pipeline_fns; by rewrite length_imap).
  eexists _, _, _, _, (pipeline_fns 0 P). split; [by rewrite Hfns|].
  split.
  - by rewrite Hfns.
  - intros i fn Hfn. unfold pipeline_fns in Hfn.
    apply list_lookup_imap_Some in Hfn as (ts & _ & ->). by eexists.
Qed.

End FileProps.

Lemma main_calls_are_declared_witness :
  compile_plan (H := Examples.example_codegen) (H0 := Examples.example_translators)
    Examples.join_agg_plan
  = Some (default [] (compile_plan (H := Examples.example_codegen)
                        (H0 := Examples.example_translators) Examples.join_agg_plan)) /\
  exists before main_body,
    default [] (compile_plan (H := Examples.example_codegen)
                  (H0 := Examples.example_translators) Examples.join_agg_plan)
    = before ++ [FunctionDecl (GetMainFn (CodeGen := Examples.example_codegen))
                   (MainParams (CodeGen := Examples.example_codegen))
                   (BuiltinType Int32) main_body] /\
    ExecCall (GetSetupFn (CodeGen := Examples.example_codegen)) ∈ main_body /\
    ExecCall (GetTeardownFn (CodeGen := Examples.example_codegen)) ∈ main_body /\
    (forall i, i < S (breakers Examples.join_agg_plan) ->
               ExecCall (PipelineFn i) ∈ main_body) /\
    forall fn, ExecCall fn ∈ main_body ->
      exists l1 body l2,
        before = l1 ++ FunctionDecl fn
                         (ExecParams (CodeGen := Examples.example_codegen))
                         (BuiltinType Nil) body :: l2.
Proof.
  split; [vm_compute; reflexivity|].
  apply (main_calls_are_declared (H := Examples.example_codegen)
           (H0 := Examples.example_translators) Examples.join_agg_plan).
  vm_compute. reflexivity.
Defined.

Lemma emitted_file_layout_witness :
  compile_plan (H := Examples.example_codegen) (H0 := Examples.example_translators)
    Examples.join_agg_plan
  = Some (default [] (compile_plan (H := Examples.example_codegen)
                        (H0 := Examples.example_translators) Examples.join_agg_plan)) /\
  exists fields helpers setup teardown fns,
    default [] (compile_plan (H := Examples.example_codegen)
                  (H0 := Examples.example_translators) Examples.join_agg_plan) =
      [MakeStruct (GetStateType (CodeGen := Examples.example_codegen)) fields]
      ++ helpers
      ++ [FunctionDecl (GetSetupFn (CodeGen := Examples.example_codegen))
            (ExecParams (CodeGen := Examples.example_codegen)) (BuiltinType Nil) setup;
          FunctionDecl (GetTeardownFn (CodeGen := Examples.example_codegen))
            (ExecParams (CodeGen := Examples.example_codegen)) (BuiltinType Nil)
            teardown]
      ++ fns
      ++ [FunctionDecl (GetMainFn (CodeGen := Examples.example_codegen))
            (MainParams (CodeGen := Examples.example_codegen)) (BuiltinType Int32)
            ([DeclareVariable (GetStateVar (CodeGen := Examples.example_codegen))
                (MakeExpr (GetStateType (CodeGen := Examples.example_codegen))) None;
              ExecCall (GetSetupFn (CodeGen := Examples.example_codegen))]
             ++ map (fun i => ExecCall (PipelineFn i)) (seq 0 (length fns))
             ++ [ExecCall (GetTeardownFn (CodeGen := Examples.example_codegen));
                 ReturnStmt (IntLiteral 37)])] /\
    length fns = S (breakers Examples.join_agg_plan) /\
    forall i fn, fns !! i = Some fn ->
      exists body, fn = FunctionDecl (PipelineFn i)
                          (ExecParams (CodeGen := Examples.example_codegen))
                          (BuiltinType Nil) body.
Proof.
  split; [vm_compute; reflexivity|].
  apply (emitted_file_layout (H := Examples.example_codegen)
           (H0 := Examples.example_translators) Examples.join_agg_plan).
  vm_compute. reflexivity.
Defined.

End CompilerProps.

(** * Further properties of execution/sql/table_vector_iterator.cpp *)
Module TableVectorIteratorProps.
Import TableVectorIterator.
Local Open Scope nat_scope.

Section IteratorProps.
Context `{Storage}.

(** The states of an iterator made by the constructor and then used
    through [Init] and [Advance] only, in any order. *)
Inductive reachable (table_oid : nat) (exec_ctx : ExecutionContext)
    (col_oids : list nat) : TableVectorIterator -> Prop :=
| reachable_new :
    reachable table_oid exec_ctx col_oids
      (new_TableVectorIterator table_oid exec_ctx col_oids)
| reachable_Init it b it' :
    reachable table_oid exec_ctx col_oids it -> Init it = Some (b, it') ->
    reachable table_oid exec_ctx col_oids it'
| reachable_Advance it b it' :
    reachable table_oid exec_ctx col_oids it -> Advance it = Some (b, it') ->
    reachable table_oid exec_ctx col_oids it'.

(** What holds in every such state: the iterator still names the
    table it was made for; once [initialized] is set, the table, the
    slot iterator and the buffer are there; and no scan has started
    at the end of the table. *)
Definition invariant (table_oid : nat) (exec_ctx : ExecutionContext)
    (it : TableVectorIterator) : Prop :=
  table_oid_ it = table_oid /\ exec_ctx_ it = exec_ctx /\
  (initialized it = true ->
   projected_columns_ it = to_buffer /\
   exists table iter pc,
     GetTable exec_ctx table_oid = Some table /\
     table_ it = Some table /\ iter_ it = Some iter /\ buffer_ it = Some pc) /\
  forall from table, CalledScan from ∈ accesses it ->
    GetTable exec_ctx table_oid = Some table -> from <> table_end table.

Lemma reachable_invariant table_oid exec_ctx col_oids it :
  reachable table_oid exec_ctx col_oids it -> invariant table_oid exec_ctx it.
Proof.
  induction 1 as [|it b it' _ IH Hinit|it b it' _ IH Hadv].
  - unfold invariant. simpl. repeat split; try done.
    intros from table Hin. by apply elem_of_nil in Hin.
  - destruct IH as (Hoid & Hctx & Hready & Hlog). unfold Init in Hinit.
    rewrite Hoid, Hctx in Hinit.
    destruct (GetTable exec_ctx table_oid) as [table|] eqn:Htable; [|done].
    destruct (col_oids_ it) as [|oid oids]; [done|].
    injection Hinit as _ <-. unfold invariant. simpl.
    split; [done|]. split; [done|]. split.
    + intros _. split; [done|]. rewrite Htable. eauto 10.
    + intros from table' [Hin|Hin]%elem_of_app Htable'.
      * rewrite Htable in Htable'. by eapply Hlog.
      * apply list_elem_of_singleton in Hin. discriminate.
  - destruct IH as (Hoid & Hctx & Hready & Hlog). unfold Advance in Hadv.
    destruct (initialized it) eqn:Hi; simpl in Hadv.
    + destruct (Hready eq_refl) as (Hpc & table & iter & pc & Htable & Ht & Hit & Hb).
      rewrite Ht, Hit, Hpc, Hb in Hadv.
      destruct (decide (iter = table_end table)) as [Heq|Hne].
      * injection Hadv as _ <-. unfold invariant. simpl.
        split; [done|]. split; [done|]. split.
        -- intros _. split; [done|]. eauto 10.
        -- intros from table' [Hin|Hin]%elem_of_app Htable'; [by eapply Hlog|].
           apply list_elem_of_singleton in Hin. discriminate.
      * destruct (Scan table (GetTxn (exec_ctx_ it)) iter pc) as [iter' pc'].
        injection Hadv as _ <-. unfold invariant. simpl.
        split; [done|]. split; [done|]. split.
        -- intros _. split; [done|]. eauto 10.
        -- intros from table' [Hin|Hin]%elem_of_app Htable'; [by eapply Hlog|].
           apply elem_of_cons in Hin as [Hin|Hin]; [discriminate|].
           apply list_elem_of_singleton in Hin. injection Hin as ->.
           congruence.
    + injection Hadv as _ <-. unfold invariant.
      split; [done|]. split; [done|]. split; [|done].
      rewrite Hi. done.
Qed.

(** X20.  In every state the iterator can be in, [Advance] returns: the
    pointers it reads through are set whenever [initialized] is. *)
Theorem Advance_always_returns table_oid exec_ctx col_oids it :
  reachable table_oid exec_ctx col_oids it ->
  exists b it', Advance it = Some (b, it').
Proof.
  intros (_ & _ & Hready & _)%reachable_invariant. unfold Advance.
  destruct (initialized it) eqn:Hi; simpl; [|eauto].
  destruct (Hready eq_refl) as (Hpc & table & iter & pc & _ & Ht & Hit & Hb).
  rewrite Ht, Hit, Hpc, Hb.
  destruct (decide (iter = table_end table)); [eauto|].
  destruct (Scan table (GetTxn (exec_ctx_ it)) iter pc). eauto.
Qed.

(** X21.  No call of [Scan] starts at the end iterator of the table. *)
Theorem Scan_never_starts_at_the_end table_oid exec_ctx col_oids it from table :
  reachable table_oid exec_ctx col_oids it ->
  CalledScan from ∈ accesses it ->
  GetTable exec_ctx table_oid = Some table ->
  from <> table_end table.
Proof. intros (_ & _ & _ & Hlog)%reachable_invariant. apply Hlog. Qed.

(** X22.  Once [Advance] has returned false it returns false again, and
    both calls leave the table, the slot iterator, the buffer and the
    PCI as they were. *)
Theorem Advance_stays_false it it1 :
  Advance it = Some (false, it1) ->
  exists it2,
    Advance it1 = Some (false, it2) /\
    table_ it2 = table_ it /\ iter_ it2 = iter_ it /\ buffer_ it2 = buffer_ it /\
    pci_ it2 = pci_ it /\ projected_columns_ it2 = projected_columns_ it /\
    initialized it2 = initialized it.
Proof.
  unfold Advance. destruct (initialized it) eqn:Hi; simpl.
  - destruct (table_ it) as [table|] eqn:Ht; [|done].
    destruct (iter_ it) as [iter|] eqn:Hit; [|done].
    destruct (decide (iter = table_end table)) as [Heq|Hne].
    + intros [= <-]. simpl. rewrite ?Hi, ?Ht, ?Hit. simpl.
      rewrite decide_True by done. eexists. split; [reflexivity|]. simpl. done.
    + destruct (projected_columns_ it); [done|].
      destruct (buffer_ it) as [pc|]; [|done].
      by destruct (Scan table (GetTxn (exec_ctx_ it)) iter pc).
  - intros [= <-]. rewrite ?Hi. simpl. by exists it.
Qed.

End IteratorProps.

Lemma exhausted_iterator_reachable :
  reachable (H := Examples.list_storage) 1 Examples.example_exec_ctx [0]
    Examples.exhausted_iterator.
Proof.
  apply (reachable_Advance _ _ _ Examples.advanced_iterator true);
    [|vm_compute; reflexivity].
  apply (reachable_Advance _ _ _ Examples.initialized_iterator true);
    [|vm_compute; reflexivity].
  apply (reachable_Init _ _ _ Examples.example_iterator true);
    [|vm_compute; reflexivity].
  constructor.
Qed.

Lemma Advance_always_returns_witness :
  reachable (H := Examples.list_storage) 1 Examples.example_exec_ctx [0]
    Examples.exhausted_iterator /\
  exists b it', Advance Examples.exhausted_iterator = Some (b, it').
Proof.
  split; [exact exhausted_iterator_reachable|].
  apply (Advance_always_returns (H := Examples.list_storage) 1
           Examples.example_exec_ctx [0]).
  exact exhausted_iterator_reachable.
Defined.

Lemma Scan_never_starts_at_the_end_witness :
  reachable (H := Examples.list_storage) 1 Examples.example_exec_ctx [0]
    Examples.exhausted_iterator /\
  (@CalledScan Examples.list_storage 2 ∈ accesses Examples.exhausted_iterator) /\
  GetTable Examples.example_exec_ctx 1 = Some [10; 20; 30]%Z /\
  2 <> @table_end Examples.list_storage [10; 20; 30]%Z.
Proof.
  assert (Hin : @CalledScan Examples.list_storage 2
                ∈ accesses Examples.exhausted_iterator).
  { vm_compute. repeat first [by left | right]. }
  split; [exact exhausted_iterator_reachable|]. split; [exact Hin|].
  split; [reflexivity|].
  apply (Scan_never_starts_at_the_end (H := Examples.list_storage) 1
           Examples.example_exec_ctx [0] Examples.exhausted_iterator);
    [exact exhausted_iterator_reachable|exact Hin|reflexivity].
Defined.

Lemma Advance_stays_false_witness :
  Advance Examples.exhausted_iterator
  = Some (false, default Examples.exhausted_iterator
                   (snd <$> Advance Examples.exhausted_iterator)) /\
  exists it2,
    Advance (default Examples.exhausted_iterator
               (snd <$> Advance Examples.exhausted_iterator))
    = Some (false, it2) /\
    table_ it2 = table_ Examples.exhausted_iterator /\
    iter_ it2 = iter_ Examples.exhausted_iterator /\
    buffer_ it2 = buffer_ Examples.exhausted_iterator /\
    pci_ it2 = pci_ Examples.exhausted_iterator /\
    projected_columns_ it2 = projected_columns_ Examples.exhausted_iterator /\
    initialized it2 = initialized Examples.exhausted_iterator.
Proof.
  split; [vm_compute; reflexivity|].
  apply (Advance_stays_false (H := Examples.list_storage) Examples.exhausted_iterator).
  vm_compute. reflexivity.
Defined.

End TableVectorIteratorProps.

(** * Further properties of catalog/catalog_sql_table.h *)
Module SqlTableRWProps.
Import SqlTableRW SqlTableRWSpec.

(** ** Columns by name *)

Lemma ColNameToIndex_from_spec cols name index :
  index + Z.of_nat (length cols) < 2 ^ 31 ->
  match ColNameToIndex_from cols name index with
  | Some i =>
      exists k c, i = index + Z.of_nat k /\ cols !! k = Some c /\ GetName c = name /\
        forall j c', (j < k)%nat -> cols !! j = Some c' -> GetName c' <> name
  | None => forall c, c ∈ cols -> GetName c <> name
  end.
Proof.
  revert index. induction cols as [|c cols IH]; intros index Hlen.
  - simpl. intros c Hc. by apply elem_of_nil in Hc.
  - cbn [ColNameToIndex_from]. destruct (decide (GetName c = name)) as [Heq|Hne].
    + exists 0%nat, c. split; [lia|]. split; [done|]. split; [done|]. lia.
    + simpl in Hlen.
      destruct (Z.ltb_spec (index + 1) (2 ^ 31)) as [_|?]; [|lia].
      specialize (IH (index + 1) ltac:(lia)).
      destruct (ColNameToIndex_from cols name (index + 1)) as [i|].
      * destruct IH as (k & c' & -> & Hk & Hname & Hfirst).
        exists (S k), c'. split; [lia|]. split; [done|]. split; [done|].
        intros [|j] c'' Hj Hlk; simpl in Hlk.
        -- by injection Hlk as <-.
        -- apply (Hfirst j); [lia|done].
      * intros c' [->|Hc']%elem_of_cons; [done|]. by apply IH.
Qed.

(** X6.  [ColNameToIndex] returns the position of the first column with
    the name, and throws exactly when no column has it. *)
Theorem ColNameToIndex_first_match rw name :
  Z.of_nat (length (cols_ rw)) < 2 ^ 31 ->
  match ColNameToIndex rw name with
  | Some i =>
      0 <= i /\
      exists c, cols_ rw !! Z.to_nat i = Some c /\ GetName c = name /\
        forall j c', (j < Z.to_nat i)%nat -> cols_ rw !! j = Some c' ->
                     GetName c' <> name
  | None => forall c, c ∈ cols_ rw -> GetName c <> name
  end.
Proof.
  intros Hlen. unfold ColNameToIndex.
  pose proof (ColNameToIndex_from_spec (cols_ rw) name 0 ltac:(lia)) as Hs.
  destruct (ColNameToIndex_from (cols_ rw) name 0) as [i|]; [|done].
  destruct Hs as (k & c & -> & Hk & Hname & Hfirst).
  split; [lia|]. exists c. rewrite Z.add_0_l, Nat2Z.id. done.
Qed.

Lemma ColNameToIndex_first_match_witness :
  Z.of_nat (length (cols_ Examples.mixed_table)) < 2 ^ 31 /\
  match ColNameToIndex Examples.mixed_table "name" with
  | Some i =>
      0 <= i /\
      exists c, cols_ Examples.mixed_table !! Z.to_nat i = Some c /\
        GetName c = "name" /\
        forall j c', (j < Z.to_nat i)%nat ->
                     cols_ Examples.mixed_table !! j = Some c' ->
                     GetName c' <> "name"
  | None => forall c, c ∈ cols_ Examples.mixed_table -> GetName c <> "name"
  end.
Proof.
  split; [vm_compute; reflexivity|].
  apply (ColNameToIndex_first_match Examples.mixed_table "name").
  vm_compute. reflexivity.
Defined.

Lemma ColNameToIndex_from_app cols extra name index i :
  ColNameToIndex_from cols name index = Some i ->
  ColNameToIndex_from (cols ++ extra) name index = Some i.
Proof.
  revert index. induction cols as [|c cols IH]; intros index; [done|].
  cbn [ColNameToIndex_from app].
  destruct (decide (GetName c = name)); [done|].
  destruct (index + 1 <? 2 ^ 31); [apply IH|done].
Qed.

Lemma ColNameToIndex_from_fresh cols c name index :
  index + Z.of_nat (length cols) < 2 ^ 31 ->
  (forall c', c' ∈ cols -> GetName c' <> name) ->
  GetName c = name ->
  ColNameToIndex_from (cols ++ [c]) name index = Some (index + Z.of_nat (length cols)).
Proof.
  revert index. induction cols as [|c' cols IH]; intros index Hlen Hfresh Hname.
  - simpl. rewrite decide_True by done. f_equal. lia.
  - cbn [ColNameToIndex_from app]. simpl in Hlen.
    rewrite decide_False by (apply Hfresh; by left).
    destruct (Z.ltb_spec (index + 1) (2 ^ 31)) as [_|?]; [|lia].
    rewrite IH; [f_equal; simpl; lia|lia| |done].
    intros c'' Hc''. apply Hfresh. by right.
Qed.

(** X7.  A column defined under a name no earlier column has is found at
    the next position; every name that was found before is still
    found at the same position, so a second column of the same name
    cannot be reached by its name. *)
Theorem DefineColumn_ColNameToIndex rw name type nullable oid :
  Z.of_nat (length (cols_ rw)) < 2 ^ 31 ->
  ((forall c, c ∈ cols_ rw -> GetName c <> name) ->
   ColNameToIndex (DefineColumn rw name type nullable oid) name
   = Some (Z.of_nat (length (cols_ rw)))) /\
  (forall name' i, ColNameToIndex rw name' = Some i ->
     ColNameToIndex (DefineColumn rw name type nullable oid) name' = Some i).
Proof.
  intros Hlen. unfold ColNameToIndex, DefineColumn. simpl. split.
  - intros Hfresh. by rewrite ColNameToIndex_from_fresh.
  - intros name' i. apply ColNameToIndex_from_app.
Qed.

Lemma DefineColumn_ColNameToIndex_witness :
  Z.of_nat (length (cols_ Examples.mixed_table)) < 2 ^ 31 /\
  ((forall c, c ∈ cols_ Examples.mixed_table -> GetName c <> "price") ->
   ColNameToIndex (DefineColumn Examples.mixed_table "price" BIGINT false 4) "price"
   = Some (Z.of_nat (length (cols_ Examples.mixed_table)))) /\
  (forall name' i, ColNameToIndex Examples.mixed_table name' = Some i ->
     ColNameToIndex (DefineColumn Examples.mixed_table "price" BIGINT false 4) name'
     = Some i).
Proof.
  split; [vm_compute; reflexivity|].
  apply (DefineColumn_ColNameToIndex Examples.mixed_table "price" BIGINT false 4).
  vm_compute. reflexivity.
Defined.

(** ** One column does not disturb another *)

(** Rows [r] and [r'] hold the same at [offset]. *)
Definition same_at (offset : nat) (r r' : ProjectedRow) : Prop :=
  bitmap r' !! offset = bitmap r !! offset /\
  cells r' !! offset = cells r !! offset.

Lemma AccessWithNullCheck_same_at offset r r' :
  same_at offset r r' ->
  AccessWithNullCheck offset r' = AccessWithNullCheck offset r.
Proof. intros [Hb Hc]. unfold AccessWithNullCheck. by rewrite Hb, Hc. Qed.

Lemma Content_prefix (mem mem' : Memory) e s :
  mem `prefix_of` mem' -> Content mem e = Some s -> Content mem' e = Some s.
Proof.
  intros [k ->]. destruct e as [c n|p n b]; simpl; [done|].
  apply lookup_app_l_Some.
Qed.

(** The attribute of a column of type [t] in a row of the table:
    wide enough for the store [SetColInRow] makes for a value of that
    type.  For the types [SetColInRow] stores nothing for, any
    attribute will do. *)
Definition attribute_of (t : TypeId) (c : Cell) : Prop :=
  match t, c with
  | BOOLEAN, RawBytes bs => (1 <= length bs)%nat
  | INTEGER, RawBytes bs => (4 <= length bs)%nat
  | BIGINT, RawBytes bs => (8 <= length bs)%nat
  | VARCHAR, VarlenCell _ => True
  | (BOOLEAN | INTEGER | BIGINT), VarlenCell _ => False
  | VARCHAR, RawBytes _ => False
  | _, _ => True
  end.

(** Attributes of the same kind and width. *)
Definition same_width (c c' : Cell) : Prop :=
  match c, c' with
  | RawBytes bs, RawBytes bs' => length bs' = length bs
  | VarlenCell _, VarlenCell _ => True
  | _, _ => False
  end.

Lemma same_width_refl c : same_width c c.
Proof. by destruct c. Qed.

Lemma store_int_same_width n z bs :
  (n <= length bs)%nat -> same_width (RawBytes bs) (store_int n z (RawBytes bs)).
Proof.
  intros Hn. simpl. rewrite length_app, SqlTableRWSpec.length_le_bytes, length_drop. lia.
Qed.

Section Frame.
Context `{StorageConstants}.
Variable rw : SqlTableRW.

(** What [SetColInRow] does to the rest of the row and to the
    memory: the other columns keep their contents, the row keeps its
    size, and buffers are only added. *)
Lemma SetColInRow_other r m j v r' m' oid offset :
  SetColInRow rw r m j v = Some (r', m') ->
  col_oids_ rw !! j = Some oid -> pr_map_ rw !! oid = Some offset ->
  (forall off, off <> offset -> same_at off r r') /\
  m `prefix_of` m' /\
  NumColumns r' = NumColumns r /\
  length (bitmap r') = length (bitmap r).
Proof.
  intros Hset Hoid Hoff. unfold SetColInRow in Hset.
  rewrite Hoid in Hset. simpl in Hset. rewrite Hoff in Hset. simpl in Hset.
  assert (Hnull : forall r1, SetNull offset r = Some r1 ->
            (forall off, off <> offset -> same_at off r r1) /\
            NumColumns r1 = NumColumns r /\ length (bitmap r1) = length (bitmap r)).
  { unfold SetNull. intros r1 Hr1.
    destruct (decide (offset < NumColumns r)%nat); [|done].
    injection Hr1 as <-. unfold same_at, NumColumns. simpl.
    split; [|by rewrite length_insert].
    intros off Hne. by rewrite list_lookup_insert_ne. }
  assert (Hforce : forall store r1, AccessForceNotNull offset store r = Some r1 ->
            (forall off, off <> offset -> same_at off r r1) /\
            NumColumns r1 = NumColumns r /\ length (bitmap r1) = length (bitmap r)).
  { unfold AccessForceNotNull. intros store r1 Hr1.
    destruct (decide (offset < NumColumns r)%nat); [|done].
    injection Hr1 as <-. unfold same_at, NumColumns. simpl.
    split; [|by rewrite length_alter, length_insert].
    intros off Hne.
    by rewrite list_lookup_insert_ne, list_lookup_alter_ne. }
  assert (Hsame : (forall off, off <> offset -> same_at off r r) /\
            NumColumns r = NumColumns r /\ length (bitmap r) = length (bitmap r)).
  { by split. }
  assert (Hdone : forall r1 m1,
            (forall off, off <> offset -> same_at off r r1) /\
            NumColumns r1 = NumColumns r /\ length (bitmap r1) = length (bitmap r) ->
            m `prefix_of` m1 ->
            Some (r1, m1) = Some (r', m') ->
            (forall off, off <> offset -> same_at off r r') /\
            m `prefix_of` m' /\
            NumColumns r' = NumColumns r /\ length (bitmap r') = length (bitmap r)).
  { intros r1 m1 (H1 & H2 & H3) Hp [= <- <-]. done. }
  destruct (Null v).
  - destruct (SetNull offset r) as [r1|] eqn:Hr1; [|done]. simpl in Hset.
    eapply Hdone; [by apply Hnull|done|exact Hset].
  - destruct (Type_ v); try (eapply Hdone; [exact Hsame|done|exact Hset]).
    + destruct (PeekBoolean v) as [b|]; [|done]. simpl in Hset.
      destruct (AccessForceNotNull offset _ r) as [r1|] eqn:Hr1; [|done].
      eapply Hdone; [by eapply Hforce|done|exact Hset].
    + destruct (PeekInteger v) as [z|]; [|done]. simpl in Hset.
      destruct (AccessForceNotNull offset _ r) as [r1|] eqn:Hr1; [|done].
      eapply Hdone; [by eapply Hforce|done|exact Hset].
    + destruct (PeekBigInt v) as [z|]; [|done]. simpl in Hset.
      destruct (AccessForceNotNull offset _ r) as [r1|] eqn:Hr1; [|done].
      eapply Hdone; [by eapply Hforce|done|exact Hset].
    + destruct (PeekVarChar v) as [s|]; [|done]. simpl in Hset.
      destruct (InlineThreshold <? Z.of_nat (strlen s)).
      * destruct (AccessForceNotNull offset _ r) as [r1|] eqn:Hr1; [|done].
        eapply Hdone; [by eapply Hforce|by apply prefix_app_r|exact Hset].
      * destruct (AccessForceNotNull offset _ r) as [r1|] eqn:Hr1; [|done].
        eapply Hdone; [by eapply Hforce|done|exact Hset].
Qed.

(** What is read from a column depends on the row at the column's
    offset and on the buffers the row points to. *)
Lemma ColToValue_same_at r m r' m' i oid offset w :
  col_oids_ rw !! i = Some oid -> pr_map_ rw !! oid = Some offset ->
  same_at offset r r' -> m `prefix_of` m' ->
  ColToValue rw r m i = Some w -> ColToValue rw r' m' i = Some w.
Proof.
  intros Hoid Hoff Hsame Hpre. unfold ColToValue, ColNumToOffset.
  destruct (cols_ rw !! i) as [col|]; [|done]. simpl.
  destruct (decide (size (pr_map_ rw) <= i)%nat); [done|].
  rewrite Hoid. simpl. rewrite Hoff. simpl.
  rewrite (AccessWithNullCheck_same_at _ _ _ Hsame).
  destruct (AccessWithNullCheck offset r) as [[cell|]|]; simpl; [|done|done].
  destruct (GetType col); try done.
  destruct (load_varlen cell) as [e|]; [|done]. simpl.
  destruct (Content m e) as [s|] eqn:Hc; [|done].
  by rewrite (Content_prefix _ _ _ _ Hpre Hc).
Qed.

Lemma ColEqualsValue_same_at r m r' m' i oid offset sv b :
  col_oids_ rw !! i = Some oid -> pr_map_ rw !! oid = Some offset ->
  same_at offset r r' -> m `prefix_of` m' ->
  ColEqualsValue rw i r m sv = Some b -> ColEqualsValue rw i r' m' sv = Some b.
Proof.
  intros Hoid Hoff Hsame Hpre. unfold ColEqualsValue, ColNumToOffset.
  destruct (cols_ rw !! i) as [col|]; [|done]. simpl.
  destruct (sv !! i) as [v|]; [|done]. simpl.
  destruct (decide (GetType col <> Type_ v)); [done|].
  destruct (Null v); [done|].
  destruct (decide (size (pr_map_ rw) <= i)%nat); [done|].
  rewrite Hoid. simpl. rewrite Hoff. simpl.
  rewrite (AccessWithNullCheck_same_at _ _ _ Hsame).
  destruct (AccessWithNullCheck offset r) as [[cell|]|]; simpl; [|done|done].
  destruct (GetType col); try done.
  destruct (load_varlen cell) as [e|]; [|done]. simpl.
  destruct (PeekVarChar v) as [st|]; [|done]. simpl.
  destruct (decide (Z.of_nat (strlen st) <> Size e)); [done|].
  destruct (Content m e) as [s|] eqn:Hc; [|done].
  by rewrite (Content_prefix _ _ _ _ Hpre Hc).
Qed.

(** A store that fits its attribute leaves the attribute's width
    as it was. *)
Lemma SetColInRow_width r m j v r' m' col oid offset cell :
  col_oids_ rw !! j = Some oid -> pr_map_ rw !! oid = Some offset ->
  cols_ rw !! j = Some col -> Type_ v = GetType col ->
  cells r !! offset = Some cell -> attribute_of (GetType col) cell ->
  SetColInRow rw r m j v = Some (r', m') ->
  exists cell', cells r' !! offset = Some cell' /\ same_width cell cell'.
Proof.
  intros Hoid Hoff Hcol Hty Hcell Hattr Hset. unfold SetColInRow in Hset.
  rewrite Hoid in Hset. simpl in Hset. rewrite Hoff in Hset. simpl in Hset.
  rewrite <- Hty in Hattr.
  assert (Hforce : forall store r1,
            same_width cell (store cell) ->
            AccessForceNotNull offset store r = Some r1 ->
            exists cell', cells r1 !! offset = Some cell' /\ same_width cell cell').
  { unfold AccessForceNotNull. intros store r1 Hw Hr1.
    destruct (decide (offset < NumColumns r)%nat); [|done].
    injection Hr1 as <-. simpl. exists (store cell).
    split; [|done]. by rewrite list_lookup_alter, decide_True, Hcell. }
  assert (Hkeep : exists cell', cells r !! offset = Some cell' /\ same_width cell cell').
  { exists cell. split; [done|apply same_width_refl]. }
  destruct v as [t|b|z|z|z|bits|bits|z|s]; simpl in Hset, Hattr.
  - unfold SetNull in Hset.
    destruct (decide (offset < NumColumns r)%nat); [|done].
    simpl in Hset. by injection Hset as <- <-.
  - destruct (AccessForceNotNull offset _ r) as [r1|] eqn:Hr1; [|done].
    simpl in Hset. injection Hset as <- <-.
    eapply Hforce; [|exact Hr1].
    destruct cell as [bs|e]; [|done]. by apply store_int_same_width.
  - by injection Hset as <- <-.
  - destruct (AccessForceNotNull offset _ r) as [r1|] eqn:Hr1; [|done].
    simpl in Hset. injection Hset as <- <-.
    eapply Hforce; [|exact Hr1].
    destruct cell as [bs|e]; [|done]. by apply store_int_same_width.
  - destruct (AccessForceNotNull offset _ r) as [r1|] eqn:Hr1; [|done].
    simpl in Hset. injection Hset as <- <-.
    eapply Hforce; [|exact Hr1].
    destruct cell as [bs|e]; [|done]. by apply store_int_same_width.
  - by injection Hset as <- <-.
  - by injection Hset as <- <-.
  - by injection Hset as <- <-.
  - destruct (InlineThreshold <? Z.of_nat (strlen s))%Z.
    + destruct (AccessForceNotNull offset _ r) as [r1|] eqn:Hr1; [|done].
      simpl in Hset. injection Hset as <- <-.
      eapply Hforce; [|exact Hr1]. by destruct cell.
    + destruct (AccessForceNotNull offset _ r) as [r1|] eqn:Hr1; [|done].
      simpl in Hset. injection Hset as <- <-.
      eapply Hforce; [|exact Hr1]. by destruct cell.
Qed.

(** X2.  Writing column [j] with a value of the column's type, into a
    row whose attribute for the column is wide enough for that type,
    leaves what is read from any other column [i] as it was, provided
    the two columns lie at different offsets of the row; the store
    stays inside its attribute, which keeps its width. *)
Theorem SetColInRow_frame r m j v r' m' i col_j cell_j oid_i oid_j off_i off_j w :
  col_oids_ rw !! i = Some oid_i -> pr_map_ rw !! oid_i = Some off_i ->
  col_oids_ rw !! j = Some oid_j -> pr_map_ rw !! oid_j = Some off_j ->
  off_i <> off_j ->
  cols_ rw !! j = Some col_j -> Type_ v = GetType col_j ->
  cells r !! off_j = Some cell_j -> attribute_of (GetType col_j) cell_j ->
  SetColInRow rw r m j v = Some (r', m') ->
  ColToValue rw r m i = Some w ->
  ColToValue rw r' m' i = Some w /\
  exists cell_j', cells r' !! off_j = Some cell_j' /\ same_width cell_j cell_j'.
Proof.
  intros Hi Hoi Hj Hoj Hne Hcol Hty Hcell Hattr Hset Hread.
  destruct (SetColInRow_other _ _ _ _ _ _ _ _ Hset Hj Hoj) as (Hsame & Hpre & _).
  split.
  - eapply ColToValue_same_at; [exact Hi|exact Hoi|by apply Hsame|exact Hpre|exact Hread].
  - by eapply SetColInRow_width.
Qed.

End Frame.

(** ** Searching a row *)

Section Search.
Variable rw : SqlTableRW.

Lemma RowFound_from_true r m sv rest k :
  RowFound_from rw r m sv k rest = Some true <->
  forall i v, rest !! i = Some v -> Null v = false ->
              ColEqualsValue rw (k + i) r m sv = Some true.
Proof.
  revert k. induction rest as [|v rest IH]; intros k.
  - simpl. split; [|done]. intros _ i v Hi. by rewrite lookup_nil in Hi.
  - cbn [RowFound_from]. destruct (Null v) eqn:Hnull.
    + rewrite IH. split.
      * intros Hall [|i] v' Hi Hn; simpl in Hi.
        -- injection Hi as <-. congruence.
        -- replace (k + S i)%nat with (S k + i)%nat by lia. by apply (Hall i v').
      * intros Hall i v' Hi Hn.
        replace (S k + i)%nat with (k + S i)%nat by lia. by apply (Hall (S i) v').
    + destruct (ColEqualsValue rw k r m sv) as [[|]|] eqn:Heq.
      * rewrite IH. split.
        -- intros Hall [|i] v' Hi Hn; simpl in Hi.
           ++ injection Hi as <-. by rewrite Nat.add_0_r.
           ++ replace (k + S i)%nat with (S k + i)%nat by lia. by apply (Hall i v').
        -- intros Hall i v' Hi Hn.
           replace (S k + i)%nat with (k + S i)%nat by lia. by apply (Hall (S i) v').
      * split; [done|]. intros Hall.
        specialize (Hall 0%nat v eq_refl Hnull).
        rewrite Nat.add_0_r in Hall. congruence.
      * split; [done|]. intros Hall.
        specialize (Hall 0%nat v eq_refl Hnull).
        rewrite Nat.add_0_r in Hall. congruence.
Qed.

(** X4.  [RowFound] answers true exactly when its two assertions hold and
    every value of the search vector that is not NULL equals its
    column; NULL values are not compared. *)
Theorem RowFound_true r m sv :
  RowFound rw r m sv = Some true <->
  (length sv <= NumColumns r)%nat /\ sv <> [] /\
  forall i v, sv !! i = Some v -> Null v = false ->
              ColEqualsValue rw i r m sv = Some true.
Proof.
  unfold RowFound.
  destruct (decide (NumColumns r < length sv)%nat) as [Hlt|Hge].
  - split; [done|]. intros (Hle & _). lia.
  - destruct sv as [|v0 sv'] eqn:Hsv.
    + split; [done|]. by intros (_ & Hne & _).
    + rewrite <- Hsv in *. rewrite RowFound_from_true. split.
      * intros Hall. split; [lia|]. split; [by rewrite Hsv|]. exact Hall.
      * intros (_ & _ & Hall). exact Hall.
Qed.

(** A column of a type other than boolean, integer and varchar can
    never be matched: the comparison answers false on a NULL column
    and throws otherwise. *)
Lemma ColEqualsValue_unsupported r m sv i col :
  cols_ rw !! i = Some col ->
  GetType col ∉ [BOOLEAN; INTEGER; VARCHAR] ->
  ColEqualsValue rw i r m sv <> Some true.
Proof.
  intros Hcol Hty. unfold ColEqualsValue. rewrite Hcol. simpl.
  destruct (sv !! i) as [v|]; [|done]. simpl.
  destruct (decide (GetType col <> Type_ v)); [done|].
  destruct (Null v); [done|].
  destruct (ColNumToOffset rw i) as [offset|]; [|done]. simpl.
  destruct (AccessWithNullCheck offset r) as [[cell|]|]; simpl; [|done|done].
  destruct (GetType col); try done; exfalso; apply Hty;
    repeat first [by left | right].
Qed.

(** X5.  Searching for a value that is not NULL in a column of a type
    other than boolean, integer and varchar never finds a row. *)
Theorem RowFound_unsupported r m sv i v col :
  sv !! i = Some v -> Null v = false ->
  cols_ rw !! i = Some col ->
  GetType col ∉ [BOOLEAN; INTEGER; VARCHAR] ->
  RowFound rw r m sv <> Some true.
Proof.
  intros Hv Hnull Hcol Hty Hfound. unfold RowFound in Hfound.
  destruct (decide (NumColumns r < length sv)%nat); [done|].
  destruct sv as [|v0 sv'] eqn:Hsv; [done|]. rewrite <- Hsv in *.
  apply (ColEqualsValue_unsupported r m sv i col Hcol Hty).
  by apply (proj1 (RowFound_from_true r m sv sv 0) Hfound i v).
Qed.

End Search.

(** ** A whole row *)

Lemma strncmp_same_length s1 s2 :
  strlen s1 = String.length s1 -> String.length s1 = String.length s2 ->
  exists d, strncmp s1 s2 (String.length s2) = Some d /\ (d = 0 <-> s1 = s2).
Proof.
  revert s2. induction s1 as [|c1 s1 IH]; intros [|c2 s2] Hnul Hlen; try done.
  - by exists 0.
  - simpl in Hnul, Hlen. destruct (decide (c1 = NUL)) as [|Hc1]; [done|].
    injection Hnul as Hnul. injection Hlen as Hlen.
    cbn [strncmp String.length]. destruct (decide (c1 = c2)) as [<-|Hne].
    + rewrite decide_False by done.
      destruct (IH s2 Hnul Hlen) as (d & -> & Hd).
      exists d. split; [done|]. rewrite Hd. split; [by intros ->|by intros [= ->]].
    + eexists. split; [reflexivity|]. split.
      * intros Hd. exfalso. apply Hne.
        rewrite <- (ascii_N_embedding c1), <- (ascii_N_embedding c2).
        f_equal. lia.
      * by intros [= -> _].
Qed.

Section RowRoundTrip.
Context `{StorageConstants}.
Variable rw : SqlTableRW.

(** The state of a column after value [v] has been stored in it. *)
Definition written (r : ProjectedRow) (m : Memory) (offset : nat)
    (v : TransientValue) : Prop :=
  match v with
  | NullValue _ => AccessWithNullCheck offset r = Some None
  | BooleanValue b =>
      exists cell, AccessWithNullCheck offset r = Some (Some cell) /\
                   load_int 1 cell = Some (Z.b2z b)
  | IntegerValue z =>
      exists cell, AccessWithNullCheck offset r = Some (Some cell) /\
                   load_int 4 cell = Some z
  | BigIntValue z =>
      exists cell, AccessWithNullCheck offset r = Some (Some cell) /\
                   load_int 8 cell = Some z
  | VarCharValue s =>
      exists e, AccessWithNullCheck offset r = Some (Some (VarlenCell e)) /\
                Size e = Z.of_nat (String.length s) /\ Content m e = Some s
  | _ => False
  end.

(** The values [SetColInRow] stores. *)
Definition storable (v : TransientValue) : Prop :=
  Null v = true \/ Type_ v ∈ [BOOLEAN; INTEGER; BIGINT; VARCHAR].

Lemma SetColInRow_written r m j oid offset v :
  col_oids_ rw !! j = Some oid -> pr_map_ rw !! oid = Some offset ->
  (offset < NumColumns r)%nat -> length (bitmap r) = NumColumns r ->
  value_ok v -> storable v ->
  exists r' m', SetColInRow rw r m j v = Some (r', m') /\ written r' m' offset v.
Proof.
  intros Hoid Hoff Hlt Hbm Hok Hsupp. unfold SetColInRow.
  rewrite Hoid. simpl. rewrite Hoff. simpl.
  destruct (lookup_lt_is_Some_2 (cells r) offset Hlt) as [cell Hcell].
  assert (Hread : forall store (b : bool),
    AccessWithNullCheck offset
      {| bitmap := <[offset := b]> (bitmap r); cells := alter store offset (cells r) |}
    = Some (if b then Some (store cell) else None)).
  { intros store b. unfold AccessWithNullCheck. simpl.
    rewrite list_lookup_insert_eq by lia.
    rewrite list_lookup_alter_eq, Hcell. simpl. by destruct b. }
  assert (Hnull : forall b : bool,
    AccessWithNullCheck offset
      {| bitmap := <[offset := b]> (bitmap r); cells := cells r |}
    = Some (if b then Some cell else None)).
  { intros b. unfold AccessWithNullCheck. simpl.
    rewrite list_lookup_insert_eq by lia. rewrite Hcell. by destruct b. }
  unfold SetNull, AccessForceNotNull.
  destruct (decide (offset < NumColumns r)%nat) as [_|?]; [|lia].
  destruct v as [t|b|z|z|z|bits|bits|z|s]; simpl in *;
    try (destruct Hsupp as [?|Hin]; [done|];
         repeat (apply elem_of_cons in Hin as [?|Hin]; [done|]);
         by apply elem_of_nil in Hin).
  - eexists _, _. split; [reflexivity|]. simpl. by rewrite Hnull.
  - eexists _, _. split; [reflexivity|]. simpl. eexists. split; [exact (Hread _ true)|].
    apply load_store_int; [lia|by destruct b].
  - eexists _, _. split; [reflexivity|]. simpl. eexists. split; [exact (Hread _ true)|].
    apply load_store_int; [lia|exact Hok].
  - eexists _, _. split; [reflexivity|]. simpl. eexists. split; [exact (Hread _ true)|].
    apply load_store_int; [lia|exact Hok].
  - destruct Hok as [Hnul Hlen]. rewrite Hnul.
    assert (Hu32 : CInt.to_u32 (Z.of_nat (String.length s)) = Z.of_nat (String.length s)).
    { unfold CInt.to_u32, CInt.to_unsigned. apply Z.mod_small. lia. }
    destruct (InlineThreshold <? Z.of_nat (String.length s)).
    + eexists _, _. split; [reflexivity|]. simpl. eexists. split; [exact (Hread _ true)|].
      simpl. split; [exact Hu32|].
      rewrite lookup_app_r by lia. rewrite Nat.sub_diag. simpl.
      by rewrite Nat2Z.id, memcpy_length.
    + eexists _, _. split; [reflexivity|]. simpl. eexists. split; [exact (Hread _ true)|].
      simpl. split; [exact Hu32|].
      by rewrite Hu32, Nat2Z.id, memcpy_length.
Qed.

Lemma written_same_at r m r' m' offset v :
  same_at offset r r' -> m `prefix_of` m' ->
  written r m offset v -> written r' m' offset v.
Proof.
  intros Hsame Hpre. unfold written.
  rewrite (AccessWithNullCheck_same_at _ _ _ Hsame).
  destruct v; try done.
  intros (e & Hcell & Hsize & Hc). exists e. split; [done|]. split; [done|].
  by eapply Content_prefix.
Qed.

Lemma written_ColToValue r m i col oid offset v :
  cols_ rw !! i = Some col -> GetType col = Type_ v ->
  col_oids_ rw !! i = Some oid -> pr_map_ rw !! oid = Some offset ->
  (i < size (pr_map_ rw))%nat -> value_ok v ->
  written r m offset v -> ColToValue rw r m i = Some v.
Proof.
  intros Hcol Hty Hoid Hoff Hsize Hok Hw. unfold ColToValue, ColNumToOffset.
  rewrite Hcol. simpl. rewrite decide_False by lia.
  rewrite Hoid. simpl. rewrite Hoff. simpl. rewrite Hty.
  destruct v as [t|b|z|z|z|bits|bits|z|s]; simpl in Hw; try done.
  - by rewrite Hw.
  - destruct Hw as (cell & -> & Hload). simpl. rewrite Hload. simpl. by destruct b.
  - destruct Hw as (cell & -> & Hload). simpl. by rewrite Hload.
  - destruct Hw as (cell & -> & Hload). simpl. by rewrite Hload.
  - destruct Hw as (e & -> & Hsz & Hc). simpl. rewrite Hc. simpl.
    destruct Hok as [Hnul Hlen]. rewrite Hsz.
    assert (Hu32 : CInt.to_u32 (Z.of_nat (String.length s) + 1)
                   = Z.of_nat (String.length s) + 1).
    { unfold CInt.to_u32, CInt.to_unsigned. apply Z.mod_small. lia. }
    rewrite Hu32.
    replace (Z.to_nat (Z.of_nat (String.length s) + 1 - 1)) with (String.length s) by lia.
    rewrite memcpy_length. unfold GetVarChar. by rewrite c_string_terminated.
Qed.

(** The values [ColEqualsValue] compares. *)
Definition searchable (v : TransientValue) : Prop :=
  Null v = false /\ Type_ v ∈ [BOOLEAN; INTEGER; VARCHAR].

Lemma written_ColEqualsValue r m i col oid offset v sv v' :
  cols_ rw !! i = Some col -> GetType col = Type_ v ->
  col_oids_ rw !! i = Some oid -> pr_map_ rw !! oid = Some offset ->
  (i < size (pr_map_ rw))%nat ->
  sv !! i = Some v' -> Type_ v' = Type_ v -> searchable v' -> value_ok v' ->
  written r m offset v ->
  ColEqualsValue rw i r m sv = Some (bool_decide (v' = v)).
Proof.
  intros Hcol Hty Hoid Hoff Hsize Hsv Hty' [Hnn Hsupp] Hok' Hw.
  unfold ColEqualsValue, ColNumToOffset.
  rewrite Hcol. simpl. rewrite Hsv. simpl.
  rewrite decide_False by (intros Hne; apply Hne; congruence).
  rewrite Hnn. rewrite decide_False by lia.
  rewrite Hoid. simpl. rewrite Hoff. simpl. rewrite Hty.
  destruct v' as [t'|b'|z'|z'|z'|bits'|bits'|z'|s']; simpl in *; try done;
    try (repeat (apply elem_of_cons in Hsupp as [?|Hsupp]; [done|]);
         by apply elem_of_nil in Hsupp);
    destruct v as [t|b|z|z|z|bits|bits|z|s]; simpl in *; try done.
  - rewrite Hw. simpl. first [done | by rewrite bool_decide_eq_false_2].
  - destruct Hw as (cell & -> & Hload). simpl. rewrite Hload. simpl. f_equal.
    destruct b, b'; simpl; by rewrite ?bool_decide_eq_true_2, ?bool_decide_eq_false_2.
  - rewrite Hw. simpl. first [done | by rewrite bool_decide_eq_false_2].
  - destruct Hw as (cell & -> & Hload). simpl. rewrite Hload. simpl. f_equal.
    destruct (Z.eqb_spec z z') as [->|Hne].
    + by rewrite bool_decide_eq_true_2.
    + rewrite bool_decide_eq_false_2; [done|]. by intros [= ->].
  - rewrite Hw. simpl. first [done | by rewrite bool_decide_eq_false_2].
  - destruct Hw as (e & -> & Hsz & Hc). simpl. destruct Hok' as [Hnul' Hlen'].
    rewrite Hnul', Hsz.
    destruct (decide (Z.of_nat (String.length s') <> Z.of_nat (String.length s)))
      as [Hne|Heq].
    + rewrite bool_decide_eq_false_2; [done|]. intros [= ->]. by apply Hne.
    + assert (Hlen : String.length s' = String.length s) by lia.
      rewrite Hc. simpl. rewrite Nat2Z.id.
      destruct (strncmp_same_length s' s Hnul' Hlen) as (d & -> & Hd). simpl.
      f_equal. destruct (Z.eqb_spec d 0) as [Hd0|Hd0].
      * rewrite bool_decide_eq_true_2; [done|]. f_equal. by apply Hd.
      * rewrite bool_decide_eq_false_2; [done|]. intros [= Hs]. by apply Hd0, Hd.
Qed.

(** The table as [Create] leaves it, for [n] columns: one column
    definition and one offset in the row per column, the offsets
    pairwise different. *)
Definition table_ok (n : nat) : Prop :=
  length (cols_ rw) = n /\ (n <= size (pr_map_ rw))%nat /\
  exists offs, mapM (fun oid => pr_map_ rw !! oid) (col_oids_ rw) = Some offs /\
               length offs = n /\ NoDup offs /\ Forall (fun off => (off < n)%nat) offs.

(** A row whose values have the types of the columns and can be
    stored. *)
Definition typed_row (row : list TransientValue) : Prop :=
  Forall2 (fun col v => GetType col = Type_ v /\ value_ok v /\ storable v)
          (cols_ rw) row.

Lemma SetColsInRow_written n offs row :
  Forall2 (fun oid off => pr_map_ rw !! oid = Some off) (col_oids_ rw) offs ->
  NoDup offs -> Forall (fun off => (off < n)%nat) offs ->
  length row = length offs ->
  Forall (fun v => value_ok v /\ storable v) row ->
  forall rest k r m,
    drop k row = rest ->
    NumColumns r = n -> length (bitmap r) = n ->
    (forall i v off, (i < k)%nat -> row !! i = Some v -> offs !! i = Some off ->
                     written r m off v) ->
    exists r' m',
      SetColsInRow rw r m k rest = Some (r', m') /\ NumColumns r' = n /\
      (forall i v off, row !! i = Some v -> offs !! i = Some off ->
                       written r' m' off v).
Proof.
  intros Hoffs Hnd Hlt Hlen Hrow.
  induction rest as [|v rest IH]; intros k r m Hdrop Hn Hbm Hinv.
  - exists r, m. split; [done|]. split; [done|].
    intros i v off Hi Ho. apply (Hinv i); [|done|done].
    apply lookup_lt_Some in Hi.
    assert (length (drop k row) = 0%nat) as Hd by (by rewrite Hdrop).
    rewrite length_drop in Hd. lia.
  - assert (Hk : row !! k = Some v).
    { rewrite <- (Nat.add_0_r k), <- lookup_drop, Hdrop. done. }
    assert (Hdrop' : drop (S k) row = rest).
    { rewrite (drop_S _ _ _ Hk) in Hdrop. by injection Hdrop. }
    destruct (lookup_lt_is_Some_2 offs k) as [off Hoff].
    { apply lookup_lt_Some in Hk. lia. }
    destruct (Forall2_lookup_r _ _ _ _ _ Hoffs Hoff) as (oid & Hoid & Hmap).
    rewrite Forall_forall in Hrow.
    destruct (Hrow v) as [Hok Hst]; [by eapply list_elem_of_lookup_2|].
    rewrite Forall_forall in Hlt.
    assert (Hofflt : (off < n)%nat) by (apply Hlt; by eapply list_elem_of_lookup_2).
    destruct (SetColInRow_written r m k oid off v Hoid Hmap) as (r1 & m1 & Hset & Hw);
      [lia|lia|done|done|].
    destruct (SetColInRow_other rw _ _ _ _ _ _ _ _ Hset Hoid Hmap)
      as (Hsame & Hpre & Hn1 & Hbm1).
    destruct (IH (S k) r1 m1 Hdrop') as (r' & m' & Hrest & Hn' & Hall).
    { lia. }
    { lia. }
    { intros i v' off' Hi Hv' Hoff'.
      destruct (decide (i = k)) as [->|Hne].
      - rewrite Hk in Hv'. rewrite Hoff in Hoff'. by simplify_eq.
      - eapply written_same_at; [apply Hsame| exact Hpre |].
        + intros ->. apply Hne. by eapply NoDup_lookup.
        + apply (Hinv i); [lia|done|done]. }
    exists r', m'. split; [|done].
    cbn [SetColsInRow]. rewrite Hset. simpl. exact Hrest.
Qed.

(** X1.  [InsertRow] fills the insert buffer with [SetColInRow], column
    by column.  For a row of storable values of the columns' types,
    the buffer read back with [ColToValueVec] is the row. *)
Theorem InsertRow_round_trip n pri mem row :
  table_ok n -> length pri = n -> typed_row row ->
  exists r m,
    InsertRow rw pri mem row = Some (r, m) /\
    ColToValueVec rw r m = Some row.
Proof.
  intros (Hcols & Hsize & offs & Hoffs & Hlen & Hnd & Hlt) Hinit Hrow.
  unfold InsertRow.
  rewrite decide_False
    by (pose proof (Forall2_length _ _ _ Hrow) as Hl; intros Hne; apply Hne; lia).
  apply mapM_Some in Hoffs.
  pose proof (Forall2_length _ _ _ Hrow) as Hrowlen.
  pose proof (Forall2_length _ _ _ Hoffs) as Hoidlen.
  destruct (SetColsInRow_written n offs row Hoffs Hnd Hlt ltac:(lia)
              ltac:(eapply Forall2_Forall_r; [exact Hrow|];
                    apply Forall_forall; intros col _ v (?&?&?); done)
              row 0%nat (InitializeRow pri) mem)
    as (r & m & Hset & Hn & Hall).
  { done. }
  { done. }
  { unfold InitializeRow. simpl. by rewrite length_replicate. }
  { intros i v off Hi. lia. }
  exists r, m. split; [done|].
  unfold ColToValueVec. apply mapM_Some.
  apply Forall2_same_length_lookup_2; [rewrite length_seq; lia|].
  intros i x v Hx Hv. apply lookup_seq in Hx as [-> Hx]. simpl.
  destruct (lookup_lt_is_Some_2 offs i ltac:(lia)) as [off Hoff].
  destruct (Forall2_lookup_r _ _ _ _ _ Hoffs Hoff) as (oid & Hoid & Hmap).
  destruct (Forall2_lookup_r _ _ _ _ _ Hrow Hv) as (col & Hcol & Hty & Hok & _).
  eapply written_ColToValue; [exact Hcol|exact Hty|exact Hoid|exact Hmap|lia|exact Hok|].
  by apply (Hall i).
Qed.

(** A value of the search vector matches the value of the row: it
    is NULL, which is not compared, or it is the value. *)
Definition matches (v v' : TransientValue) : Prop := Null v' = true \/ v' = v.

#[local] Instance matches_dec v v' : Decision (matches v v').
Proof. unfold matches. apply _. Defined.

(** A search vector whose values, where not NULL, have the types of
    the columns and can be compared. *)
Definition typed_search (sv : list TransientValue) : Prop :=
  Forall2 (fun col v' => Null v' = true \/
                         (GetType col = Type_ v' /\ searchable v' /\ value_ok v'))
          (take (length sv) (cols_ rw)) sv.

Lemma RowFound_from_matches r m sv (row : list TransientValue) :
  (forall i v v', row !! i = Some v -> sv !! i = Some v' -> Null v' = false ->
     ColEqualsValue rw i r m sv = Some (bool_decide (v' = v))) ->
  forall rest k (rowrest : list TransientValue),
    length rowrest = length rest ->
    (forall i, rest !! i = sv !! (k + i)%nat) ->
    (forall i, rowrest !! i = row !! (k + i)%nat) ->
    RowFound_from rw r m sv k rest = Some (bool_decide (Forall2 matches rowrest rest)).
Proof.
  intros Heq. induction rest as [|v' rest IH]; intros k [|v rowrest] Hlen Hsv Hrow;
    try done.
  cbn [RowFound_from].
  assert (Hv' : sv !! k = Some v').
    { rewrite <- (Nat.add_0_r k), <- Hsv. done. }
    assert (Hv : row !! k = Some v).
    { rewrite <- (Nat.add_0_r k), <- Hrow. done. }
    assert (Hrec : RowFound_from rw r m sv (S k) rest
                   = Some (bool_decide (Forall2 matches rowrest rest))).
    { apply IH.
      - simpl in Hlen. lia.
      - intros i. replace (S k + i)%nat with (k + S i)%nat by lia. apply (Hsv (S i)).
      - intros i. replace (S k + i)%nat with (k + S i)%nat by lia. apply (Hrow (S i)). }
    destruct (Null v') eqn:Hnull.
    + rewrite Hrec. f_equal. apply bool_decide_ext. split.
      * intros Hf. constructor; [by left|done].
      * by intros [_ Hf]%Forall2_cons.
    + rewrite (Heq k v v' Hv Hv' Hnull).
      destruct (decide (v' = v)) as [->|Hne].
      * rewrite bool_decide_eq_true_2 by done. rewrite Hrec. f_equal.
        apply bool_decide_ext. split.
        -- intros Hf. constructor; [by right|done].
        -- by intros [_ Hf]%Forall2_cons.
      * rewrite bool_decide_eq_false_2 by done. f_equal. symmetry.
        apply bool_decide_eq_false_2. intros [[Hm|Hm] _]%Forall2_cons; congruence.
Qed.

(** X3.  The insert buffer filled by [InsertRow] is found by [RowFound]
    exactly for the search vectors that agree with the row wherever
    they are not NULL. *)
Theorem RowFound_after_InsertRow n pri mem row r m sv :
  table_ok n -> length pri = n -> typed_row row ->
  InsertRow rw pri mem row = Some (r, m) ->
  sv <> [] -> (length sv <= n)%nat -> typed_search sv ->
  RowFound rw r m sv
  = Some (bool_decide (Forall2 matches (take (length sv) row) sv)).
Proof.
  intros (Hcols & Hsize & offs & Hoffs & Hlen & Hnd & Hlt) Hinit Hrow Hset Hne Hsvlen Hsv.
  unfold InsertRow in Hset.
  rewrite decide_False in Hset
    by (pose proof (Forall2_length _ _ _ Hrow) as Hl; intros Hne'; apply Hne'; lia).
  apply mapM_Some in Hoffs.
  pose proof (Forall2_length _ _ _ Hrow) as Hrowlen.
  destruct (SetColsInRow_written n offs row Hoffs Hnd Hlt ltac:(lia)
              ltac:(eapply Forall2_Forall_r; [exact Hrow|];
                    apply Forall_forall; intros col _ v (?&?&?); done)
              row 0%nat (InitializeRow pri) mem)
    as (r' & m' & Hset' & Hn & Hall).
  { done. }
  { done. }
  { unfold InitializeRow. simpl. by rewrite length_replicate. }
  { intros i v off Hi. lia. }
  rewrite Hset in Hset'. injection Hset' as <- <-.
  unfold RowFound. rewrite decide_False by lia.
  destruct sv as [|v0 sv'] eqn:Hsveq; [done|]. rewrite <- Hsveq in *.
  apply RowFound_from_matches with (row := take (length sv) row).
  - intros i v v' Hv Hv' Hnull.
    apply lookup_take_Some in Hv as [Hv Hi].
    destruct (lookup_lt_is_Some_2 offs i ltac:(lia)) as [off Hoff].
    destruct (Forall2_lookup_r _ _ _ _ _ Hoffs Hoff) as (oid & Hoid & Hmap).
    destruct (Forall2_lookup_r _ _ _ _ _ Hrow Hv) as (col & Hcol & Hty & Hok & _).
    destruct (Forall2_lookup_r _ _ _ _ _ Hsv Hv') as (col' & Hcol' & Hs).
    rewrite lookup_take_lt in Hcol' by done. rewrite Hcol in Hcol'.
    injection Hcol' as <-.
    destruct Hs as [Hs|(Hty' & Hsearch & Hok')]; [congruence|].
    eapply written_ColEqualsValue;
      [exact Hcol|exact Hty|exact Hoid|exact Hmap|lia|exact Hv'|congruence
      |exact Hsearch|exact Hok'|].
    by apply (Hall i).
  - rewrite length_take. lia.
  - intros i. done.
  - intros i. done.
Qed.

End RowRoundTrip.

Section Storage.
Context `{StorageConstants}.
Variable rw : SqlTableRW.

(** X8.  A row read before any column was set has a NULL of the column's
    type in every column, whatever the types of the columns. *)
Theorem ColToValueVec_fresh_row n pri mem :
  table_ok rw n -> length pri = n ->
  ColToValueVec rw (InitializeRow pri) mem
  = Some ((fun col => GetNull (GetType col)) <$> cols_ rw).
Proof.
  intros (Hcols & Hsize & offs & Hoffs & Hlen & Hnd & Hlt) Hpri.
  apply mapM_Some in Hoffs.
  unfold ColToValueVec, NumColumns. simpl. apply mapM_Some.
  apply Forall2_fmap_r, Forall2_same_length_lookup_2; [rewrite length_seq; lia|].
  intros i x col Hx Hcol. apply lookup_seq in Hx as [-> Hi]. simpl.
  destruct (lookup_lt_is_Some_2 offs i ltac:(lia)) as [off Hoff].
  destruct (Forall2_lookup_r _ _ _ _ _ Hoffs Hoff) as (oid & Hoid & Hmap).
  rewrite Forall_forall in Hlt.
  assert (Hofflt : (off < n)%nat) by (apply Hlt; by eapply list_elem_of_lookup_2).
  destruct (lookup_lt_is_Some_2 pri off ltac:(lia)) as [cell Hcell].
  unfold ColToValue, ColNumToOffset. rewrite Hcol. simpl.
  rewrite decide_False by lia. rewrite Hoid. simpl. rewrite Hmap. simpl.
  unfold AccessWithNullCheck, InitializeRow. simpl.
  rewrite lookup_replicate_2 by lia. by rewrite Hcell.
Qed.

(** X9.  A varchar of at most [InlineThreshold] bytes is stored in the
    row itself and allocates nothing; a longer one is copied to a
    new buffer, to which the row points with the flag that makes the
    entry the owner of the buffer. *)
Theorem SetColInRow_varchar_storage r m j oid offset s :
  col_oids_ rw !! j = Some oid -> pr_map_ rw !! oid = Some offset ->
  (offset < NumColumns r)%nat ->
  strlen s = String.length s -> Z.of_nat (String.length s) < 2 ^ 32 ->
  exists r',
    SetColInRow rw r m j (VarCharValue s)
    = Some (r', if InlineThreshold <? Z.of_nat (String.length s) then m ++ [s] else m) /\
    bitmap r' = <[offset := true]> (bitmap r) /\
    cells r' !! offset
    = Some (VarlenCell
              (if InlineThreshold <? Z.of_nat (String.length s)
               then PointerEntry (length m) (Z.of_nat (String.length s)) true
               else InlineEntry s (Z.of_nat (String.length s)))).
Proof.
  intros Hoid Hoff Hlt Hnul Hlen. unfold SetColInRow.
  rewrite Hoid. simpl. rewrite Hoff. simpl. rewrite Hnul.
  assert (Hu32 : CInt.to_u32 (Z.of_nat (String.length s)) = Z.of_nat (String.length s)).
  { unfold CInt.to_u32, CInt.to_unsigned. apply Z.mod_small. lia. }
  destruct (lookup_lt_is_Some_2 (cells r) offset Hlt) as [cell Hcell].
  unfold AccessForceNotNull.
  destruct (decide (offset < NumColumns r)%nat) as [_|?]; [|lia].
  destruct (InlineThreshold <? Z.of_nat (String.length s)); simpl.
  - eexists. split; [by rewrite Nat2Z.id, memcpy_length|]. simpl. split; [done|].
    rewrite list_lookup_alter_eq, Hcell. simpl. unfold Create. by rewrite Hu32.
  - eexists. split; [reflexivity|]. simpl. split; [done|].
    rewrite list_lookup_alter_eq, Hcell. simpl. unfold CreateInline.
    by rewrite Hu32, Nat2Z.id, memcpy_length.
Qed.

End Storage.

Lemma mixed_table_ok : table_ok Examples.mixed_table 3.
Proof.
  split; [reflexivity|]. split; [vm_compute; lia|].
  exists [2; 0; 1]%nat. split; [vm_compute; reflexivity|]. split; [reflexivity|].
  split; [|repeat constructor].
  apply (bool_decide_unpack _). vm_compute. exact I.
Qed.

Lemma mixed_values_typed : typed_row Examples.mixed_table Examples.mixed_values.
Proof.
  unfold typed_row, storable. simpl.
  repeat constructor; simpl; try lia; try (left; reflexivity);
    right; repeat first [by left | right].
Qed.

Lemma SetColInRow_frame_witness :
  col_oids_ Examples.mixed_table !! 1%nat = Some 2%nat /\
  pr_map_ Examples.mixed_table !! 2%nat = Some 0%nat /\
  col_oids_ Examples.mixed_table !! 0%nat = Some 1%nat /\
  pr_map_ Examples.mixed_table !! 1%nat = Some 2%nat /\
  0%nat <> 2%nat /\
  attribute_of INTEGER (RawBytes [0; 0; 0; 0]) /\
  SetColInRow (H := Examples.inline12) Examples.mixed_table
    {| bitmap := [true; false; false];
       cells := [VarlenCell (InlineEntry "ab" 2);
                 VarlenCell (InlineEntry "" 0); RawBytes [0; 0; 0; 0]] |} []
    0 (IntegerValue 7)
  = Some ({| bitmap := [true; false; true];
             cells := [VarlenCell (InlineEntry "ab" 2);
                       VarlenCell (InlineEntry "" 0); RawBytes [7; 0; 0; 0]] |}, []) /\
  ColToValue Examples.mixed_table
    {| bitmap := [true; false; false];
       cells := [VarlenCell (InlineEntry "ab" 2);
                 VarlenCell (InlineEntry "" 0); RawBytes [0; 0; 0; 0]] |} [] 1
  = Some (VarCharValue "ab") /\
  ColToValue Examples.mixed_table
    {| bitmap := [true; false; true];
       cells := [VarlenCell (InlineEntry "ab" 2);
                 VarlenCell (InlineEntry "" 0); RawBytes [7; 0; 0; 0]] |} [] 1
  = Some (VarCharValue "ab") /\
  exists cell',
    [VarlenCell (InlineEntry "ab" 2); VarlenCell (InlineEntry "" 0);
     RawBytes [7; 0; 0; 0]] !! 2%nat = Some cell' /\
    same_width (RawBytes [0; 0; 0; 0]) cell'.
Proof.
  pose (r := {| bitmap := [true; false; false];
                cells := [VarlenCell (InlineEntry "ab" 2);
                          VarlenCell (InlineEntry "" 0); RawBytes [0; 0; 0; 0]] |}).
  pose (col := {| GetName := "id"; GetType := INTEGER;
                  GetNullable := false; GetOid := 1%nat |}).
  assert (H1 : col_oids_ Examples.mixed_table !! 1%nat = Some 2%nat) by reflexivity.
  assert (H2 : pr_map_ Examples.mixed_table !! 2%nat = Some 0%nat)
    by (vm_compute; reflexivity).
  assert (H3 : col_oids_ Examples.mixed_table !! 0%nat = Some 1%nat) by reflexivity.
  assert (H4 : pr_map_ Examples.mixed_table !! 1%nat = Some 2%nat)
    by (vm_compute; reflexivity).
  assert (H5 : 0%nat <> 2%nat) by lia.
  assert (Hcol : cols_ Examples.mixed_table !! 0%nat = Some col) by reflexivity.
  assert (Hty : Type_ (IntegerValue 7) = GetType col) by reflexivity.
  assert (Hcell : cells r !! 2%nat = Some (RawBytes [0; 0; 0; 0])) by reflexivity.
  assert (Hattr : attribute_of (GetType col) (RawBytes [0; 0; 0; 0]))
    by (simpl; lia).
  assert (H6 : SetColInRow (H := Examples.inline12) Examples.mixed_table r [] 0
                 (IntegerValue 7)
               = Some ({| bitmap := [true; false; true];
                          cells := [VarlenCell (InlineEntry "ab" 2);
                                    VarlenCell (InlineEntry "" 0);
                                    RawBytes [7; 0; 0; 0]] |}, []))
    by (vm_compute; reflexivity).
  assert (H7 : ColToValue Examples.mixed_table r [] 1 = Some (VarCharValue "ab"))
    by (vm_compute; reflexivity).
  do 8 (split; [assumption|]).
  exact (SetColInRow_frame (H := Examples.inline12) Examples.mixed_table
           _ _ _ _ _ _ _ _ _ _ _ _ _ _ H1 H2 H3 H4 H5 Hcol Hty Hcell Hattr H6 H7).
Defined.

Lemma RowFound_unsupported_witness :
  [GetSmallInt 5] !! 0%nat = Some (GetSmallInt 5) /\
  Null (GetSmallInt 5) = false /\
  cols_ Examples.smallint_table !! 0%nat
  = Some {| GetName := "id"; GetType := SMALLINT; GetNullable := true; GetOid := 1 |} /\
  (SMALLINT ∉ [BOOLEAN; INTEGER; VARCHAR]) /\
  RowFound Examples.smallint_table Examples.smallint_row [] [GetSmallInt 5]
  <> Some true.
Proof.
  assert (Hty : SMALLINT ∉ [BOOLEAN; INTEGER; VARCHAR]).
  { intros Hin. repeat (apply elem_of_cons in Hin as [?|Hin]; [done|]).
    by apply elem_of_nil in Hin. }
  split; [reflexivity|]. split; [reflexivity|]. split; [reflexivity|].
  split; [exact Hty|].
  apply (RowFound_unsupported Examples.smallint_table Examples.smallint_row []
           [GetSmallInt 5] 0 (GetSmallInt 5)
           {| GetName := "id"; GetType := SMALLINT; GetNullable := true; GetOid := 1 |});
    [reflexivity|reflexivity|reflexivity|exact Hty].
Defined.

Lemma InsertRow_round_trip_witness :
  table_ok Examples.mixed_table 3 /\
  length (cells Examples.mixed_row) = 3%nat /\
  typed_row Examples.mixed_table Examples.mixed_values /\
  exists r m,
    InsertRow (H := Examples.inline12) Examples.mixed_table
      (cells Examples.mixed_row) [] Examples.mixed_values
    = Some (r, m) /\
    ColToValueVec Examples.mixed_table r m = Some Examples.mixed_values.
Proof.
  split; [exact mixed_table_ok|]. split; [reflexivity|].
  split; [exact mixed_values_typed|].
  apply (InsertRow_round_trip (H := Examples.inline12) Examples.mixed_table 3);
    [exact mixed_table_ok|reflexivity|exact mixed_values_typed].
Defined.

Lemma RowFound_after_InsertRow_witness :
  table_ok Examples.mixed_table 3 /\
  length (cells Examples.mixed_row) = 3%nat /\
  typed_row Examples.mixed_table Examples.mixed_values /\
  InsertRow (H := Examples.inline12) Examples.mixed_table
    (cells Examples.mixed_row) [] Examples.mixed_values
  = Some Examples.mixed_written /\
  Examples.mixed_search <> [] /\
  (length Examples.mixed_search <= 3)%nat /\
  typed_search Examples.mixed_table Examples.mixed_search /\
  RowFound Examples.mixed_table Examples.mixed_written.1 Examples.mixed_written.2
    Examples.mixed_search
  = Some (bool_decide (Forall2 matches
            (take (length Examples.mixed_search) Examples.mixed_values)
            Examples.mixed_search)).
Proof.
  assert (Hset : InsertRow (H := Examples.inline12) Examples.mixed_table
                   (cells Examples.mixed_row) [] Examples.mixed_values
                 = Some (Examples.mixed_written.1, Examples.mixed_written.2))
    by (vm_compute; reflexivity).
  assert (Hsearch : typed_search Examples.mixed_table Examples.mixed_search).
  { unfold typed_search, searchable. simpl.
    constructor; [by left|]. constructor; [|constructor].
    right. split; [reflexivity|]. split; [|simpl; lia].
    split; [reflexivity|]. simpl. repeat first [by left | right]. }
  split; [exact mixed_table_ok|]. split; [reflexivity|].
  split; [exact mixed_values_typed|]. split; [vm_compute; reflexivity|].
  split; [discriminate|]. split; [simpl; lia|]. split; [exact Hsearch|].
  apply (RowFound_after_InsertRow (H := Examples.inline12) Examples.mixed_table 3
           (cells Examples.mixed_row) [] Examples.mixed_values);
    [exact mixed_table_ok|reflexivity|exact mixed_values_typed|exact Hset
    |discriminate|simpl; lia|exact Hsearch].
Defined.

Lemma ColToValueVec_fresh_row_witness :
  table_ok Examples.mixed_table 3 /\
  length (cells Examples.mixed_row) = 3%nat /\
  ColToValueVec Examples.mixed_table (InitializeRow (cells Examples.mixed_row)) []
  = Some ((fun col => GetNull (GetType col)) <$> cols_ Examples.mixed_table).
Proof.
  split; [exact mixed_table_ok|]. split; [reflexivity|].
  apply (ColToValueVec_fresh_row Examples.mixed_table 3);
    [exact mixed_table_ok|reflexivity].
Defined.

Lemma SetColInRow_varchar_storage_witness :
  col_oids_ Examples.mixed_table !! 1%nat = Some 2%nat /\
  pr_map_ Examples.mixed_table !! 2%nat = Some 0%nat /\
  (0 < NumColumns Examples.mixed_row)%nat /\
  strlen "exactly 12 b" = String.length "exactly 12 b" /\
  Z.of_nat (String.length "exactly 12 b") < 2 ^ 32 /\
  exists r',
    SetColInRow (H := Examples.inline12) Examples.mixed_table Examples.mixed_row []
      1 (VarCharValue "exactly 12 b")
    = Some (r', if InlineThreshold (StorageConstants := Examples.inline12)
                   <? Z.of_nat (String.length "exactly 12 b")
                then [] ++ ["exactly 12 b"] else []) /\
    bitmap r' = <[0%nat := true]> (bitmap Examples.mixed_row) /\
    cells r' !! 0%nat
    = Some (VarlenCell
              (if InlineThreshold (StorageConstants := Examples.inline12)
                  <? Z.of_nat (String.length "exactly 12 b")
               then PointerEntry (length (@nil string))
                      (Z.of_nat (String.length "exactly 12 b")) true
               else InlineEntry "exactly 12 b"
                      (Z.of_nat (String.length "exactly 12 b")))).
Proof.
  split; [reflexivity|]. split; [vm_compute; reflexivity|].
  split; [vm_compute; lia|]. split; [reflexivity|]. split; [vm_compute; reflexivity|].
  apply (SetColInRow_varchar_storage (H := Examples.inline12) Examples.mixed_table
           Examples.mixed_row [] 1 2 0 "exactly 12 b");
    [reflexivity|vm_compute; reflexivity|vm_compute; lia|reflexivity
    |vm_compute; reflexivity].
Defined.

End SqlTableRWProps.

(** * Properties of execution/compiler/compilation_context.cpp *)
Module CompilationContextProps.
Import CompilationContext.

(** Registering the pipelines [ps] one after the other: the ids
    returned and the vector afterwards. *)
Fixpoint register_all {P} (ps : list P) (pipelines_ : list P) : list Z * list P :=
  match ps with
  | [] => ([], pipelines_)
  | p :: ps' =>
      let '(id, pipelines_) := RegisterPipeline p pipelines_ in
      let '(ids, pipelines_) := register_all ps' pipelines_ in
      (id :: ids, pipelines_)
  end.

Lemma register_all_spec {P} (ps : list P) pipelines_ :
  Z.of_nat (length pipelines_ + length ps) <= 2 ^ 32 ->
  register_all ps pipelines_
  = (Z.of_nat <$> seq (length pipelines_) (length ps), pipelines_ ++ ps).
Proof.
  revert pipelines_. induction ps as [|p ps IH]; intros pipelines_ Hlen.
  - simpl. by rewrite app_nil_r.
  - cbn [register_all RegisterPipeline]. simpl in Hlen.
    rewrite IH by (rewrite length_app; simpl; lia).
    rewrite length_app. simpl. rewrite Nat.add_1_r, <- app_assoc. simpl.
    do 2 f_equal. unfold CInt.to_u32, CInt.to_unsigned. apply Z.mod_small. lia.
Qed.

(** X23.  As long as the vector holds at most 2^32 pipelines, the id that
    [RegisterPipeline] returns for a pipeline is its position in
    [pipelines_], also after later registrations; the ids are
    pairwise different and earlier entries stay where they were. *)
Theorem RegisterPipeline_ids {P} (ps : list P) pipelines_ ids pipelines' :
  Z.of_nat (length pipelines_ + length ps) <= 2 ^ 32 ->
  register_all ps pipelines_ = (ids, pipelines') ->
  Forall2 (fun id p => 0 <= id /\ pipelines' !! Z.to_nat id = Some p) ids ps /\
  NoDup ids /\
  pipelines_ `prefix_of` pipelines'.
Proof.
  intros Hlen Hreg. rewrite register_all_spec in Hreg by done.
  injection Hreg as <- <-. split; [|split].
  - apply Forall2_fmap_l. apply Forall2_same_length_lookup_2; [by rewrite length_seq|].
    intros i x p Hx Hp. apply lookup_seq in Hx as [-> Hi]. split; [lia|].
    rewrite Nat2Z.id, lookup_app_r by lia.
    by replace (length pipelines_ + i - length pipelines_)%nat with i by lia.
  - apply (NoDup_fmap_2 _), NoDup_seq.
  - by apply prefix_app_r.
Qed.

Lemma RegisterPipeline_ids_witness :
  Z.of_nat (length ["main"] + length ["build"; "probe"]) <= 2 ^ 32 /\
  register_all ["build"; "probe"] ["main"] = ([1; 2], ["main"; "build"; "probe"]) /\
  Forall2 (fun id p => 0 <= id /\ ["main"; "build"; "probe"] !! Z.to_nat id = Some p)
          [1; 2] ["build"; "probe"] /\
  NoDup [1; 2] /\
  ["main"] `prefix_of` ["main"; "build"; "probe"].
Proof.
  split; [simpl; lia|]. split; [reflexivity|].
  apply (RegisterPipeline_ids ["build"; "probe"] ["main"]); [simpl; lia|reflexivity].
Defined.

End CompilationContextProps.
